(** * BinRev: the structure-driven binary decoder

    A shallow embedding of [BinaryParser] (utils/binaryParser.ts) with the
    type registry of utils/dataTypes.ts, the declarations of
    types/structure.ts and the slice reader of utils/fileReader.ts.

    Conventions of the embedding:
    - a JavaScript [number] is an integer of [Z]; the decoder's own
      arithmetic (offsets, lengths, counts, bit tests) stays inside the
      integers as long as its inputs do, and a float field reads as the
      integer the platform hands back;
    - a [Uint8Array] and the content of a [File] are [list byte];
    - an optional property is an [option]; where the source tests a value
      for truthiness the test is written out ([truthy], [nonEmpty]);
    - the mutable [parsedFields] map and whatever else a script can reach
      are threaded explicitly through a state;
    - what the JavaScript platform supplies (running a script, IEEE-754
      and UTF-8 decoding) is the [Platform] interface. *)

From Stdlib Require Import ZArith String Ascii List Bool Lia DecimalString.
From Stdlib.Strings Require Import Byte.
From Stdlib Require HexadecimalString.
From stdpp Require Import base option strings gmap list.

#[local] Set Warnings "-register-all".

Local Open Scope Z_scope.

(** ** types/structure.ts *)

Inductive DataType :=
  | uint8 | uint16 | uint32 | uint64
  | int8 | int16 | int32 | int64
  | float32 | float64
  | string_ | bytes | struct | script.

Inductive Endianness := big | little.

(** [ValueMapping.value : number | string] *)
Inductive MapKey :=
  | KNumber (n : Z)
  | KString (s : string).

Record ValueMapping := mkValueMapping {
  vm_value : MapKey;
  vm_description : string
}.

Record BitDescription := mkBitDescription {
  bitIndex : Z;
  descriptionIfSet : string;
  descriptionIfUnset : option string
}.

Inductive FieldDefinition := mkFieldDefinition {
  def_id : string;
  def_name : string;
  def_type : DataType;
  def_length : option Z;
  def_lengthRef : option string;
  def_endianness : Endianness;
  def_offset : option Z;
  def_description : option string;
  def_repeats : option Z;
  def_repeatRef : option string;
  def_children : option (list FieldDefinition);
  def_substructureRef : option string;
  def_script : option string;
  def_valueMap : option (list ValueMapping);
  def_bitDescriptions : option (list BitDescription)
}.

(** [FieldValueType] together with the [Uint8Array] of [ParsedField.value]. *)
Inductive FieldValue :=
  | VNull
  | VUndefined
  | VNumber (n : Z)
  | VString (s : string)
  | VBoolean (b : bool)
  | VBigInt (n : Z)
  | VBytes (data : list byte)
  | VArray (items : list FieldValue).

Inductive ParsedField := mkParsedField {
  pf_definition : FieldDefinition;
  pf_value : FieldValue;
  pf_rawValue : list byte;
  pf_offset : Z;
  pf_length : Z;
  pf_children : option (list ParsedField)
}.

Record SubstructureTemplate := mkSubstructureTemplate {
  tpl_id : string;
  tpl_name : string;
  tpl_description : option string;
  tpl_fields : list FieldDefinition
}.

(** [FileData]: the size is a property of its own, next to the file. *)
Record FileData := mkFileData {
  fd_name : string;
  fd_size : Z;
  fd_file : list byte
}.

(** ** utils/dataTypes.ts *)

Definition getDataTypeSize (type : DataType) : option Z :=
  match type with
  | uint8 => Some 1 | uint16 => Some 2 | uint32 => Some 4 | uint64 => Some 8
  | int8 => Some 1 | int16 => Some 2 | int32 => Some 4 | int64 => Some 8
  | float32 => Some 4 | float64 => Some 8
  | string_ | bytes | struct | script => None
  end.

(** ** utils/fileReader.ts

    [readFileSlice] resolves to the bytes of [file.slice(start, end)];
    [Blob.slice] counts a negative bound from the end, clamps both bounds
    to the blob and yields nothing when they cross. *)

Definition readFileSlice (file : list byte) (start end_ : Z) : list byte :=
  let size := Z.of_nat (length file) in
  let relativeStart :=
    if start <? 0 then Z.max (size + start) 0 else Z.min start size in
  let relativeEnd :=
    if end_ <? 0 then Z.max (size + end_) 0 else Z.min end_ size in
  let span := Z.max (relativeEnd - relativeStart) 0 in
  take (Z.to_nat span) (drop (Z.to_nat relativeStart) file).

(** ** The platform *)

(** What a script call hands back once awaited, as far as the decoder
    looks at it.

    The [length] of a returned object: [LNumber n] is a value whose
    [typeof] is ['number'], [LOtherType] any value of another type.
    Numbers are integers throughout this development, so a length that is
    [NaN] or fractional has no counterpart here; the check
    [typeof length !== 'number' || length < 0] of the source lets such a
    length through unless it is negative, [NaN] included. *)
Inductive ScriptLength :=
  | LNumber (n : Z)
  | LOtherType.

Inductive ScriptResult :=
  | RNotObject
  | RObject (value : option FieldValue) (length_ : option ScriptLength).

(** A call that failed (the script did not compile, threw, or its promise
    was rejected) hands the thrown value to the [catch] block, which reads
    [error.message] and prints it into a template string. [Threw message]
    is a thrown value for which that works, [message] being the printed
    text (["undefined"] for a value without a message). [ThrewUnreadable]
    is a thrown value for which it does not: [null] or [undefined], whose
    properties cannot be read, or a message that cannot be printed; there
    the [catch] block itself throws. *)
Inductive ScriptOutcome :=
  | Threw (message : string)
  | ThrewUnreadable
  | Returned (result : ScriptResult).

(** A script receives the [parsedFields] map itself, not a copy, and runs
    with the ambient state of the page (clock, random source, globals):
    a run yields an outcome, the map as the script left it, and the
    ambient state as the script left it. *)
Record ScriptRun (W : Type) := mkScriptRun {
  run_outcome : ScriptOutcome;
  run_parsedFields : gmap string ParsedField;
  run_world : W
}.
Arguments mkScriptRun {W} _ _ _.
Arguments run_outcome {W} _.
Arguments run_parsedFields {W} _.
Arguments run_world {W} _.

Class Platform := mkPlatform {
  World : Type;
  (** [new Function('file', 'fileSize', 'offset', 'parsedFields',
      'readFileSlice', script)(...)], awaited *)
  runScript : string -> list byte -> Z -> Z -> gmap string ParsedField ->
              World -> ScriptRun World;
  (** [DataView.getFloat32/64(0, littleEndian)] *)
  getFloat32 : list byte -> bool -> Z;
  getFloat64 : list byte -> bool -> Z;
  (** [new TextDecoder().decode(data)] *)
  textDecode : list byte -> string
}.

(** ** utils/binaryParser.ts: the parser object *)

(** The read-only properties set by the constructor. *)
Record BinaryParser := mkBinaryParser {
  file : list byte;
  fileSize : Z;
  substructures : list SubstructureTemplate
}.

Definition newBinaryParser (fileData : FileData)
    (substructures : list SubstructureTemplate) : BinaryParser :=
  {| file := fd_file fileData;
     fileSize := fd_size fileData;
     substructures := substructures |}.

(** The mutable part: the [parsedFields] map of the object, and the ambient
    state scripts run in. *)
Record State `{Platform} := mkState {
  parsedFields : gmap string ParsedField;
  world : World
}.

(** *** JavaScript primitives the parser relies on *)

(** A string in a condition is true when it is not empty. *)
Definition nonEmpty (s : string) : bool := negb (String.eqb s "").

Definition truthy (o : option string) : option string :=
  match o with
  | Some s => if nonEmpty s then Some s else None
  | None => None
  end.

Definition isNull (v : FieldValue) : bool :=
  match v with VNull => true | _ => false end.

(** [typeof v === 'number'], with the number. *)
Definition asNumber (v : FieldValue) : option Z :=
  match v with VNumber n => Some n | _ => None end.

(** [k === v] for a mapping key [k : number | string]: false across types. *)
Definition strictEquals (k : MapKey) (v : FieldValue) : bool :=
  match k, v with
  | KNumber a, VNumber b => a =? b
  | KString s, VString t => String.eqb s t
  | _, _ => false
  end.

(** [ToInt32], and [value >> count]: the left operand is taken as a signed
    32-bit integer, the count modulo 32, and the sign is propagated. *)
Definition toInt32 (n : Z) : Z := (n + 2 ^ 31) mod 2 ^ 32 - 2 ^ 31.

Definition signedShiftRight (value count : Z) : Z :=
  Z.shiftr (toInt32 value) (count mod 32).

(** [value & 1] after a shift *)
Definition lowBit (n : Z) : Z := Z.land (toInt32 n) 1.

Definition byteValue (b : byte) : Z := Z.of_N (Byte.to_N b).

Fixpoint bigEndian (acc : Z) (bs : list byte) : Z :=
  match bs with
  | [] => acc
  | b :: rest => bigEndian (acc * 256 + byteValue b) rest
  end.

(** [DataView.getUint8/16/32(0, le)] and [getBigUint64(0, le)] on a view
    that holds at least [size] bytes. *)
Definition getUint (size : nat) (data : list byte) (littleEndian : bool) : Z :=
  let window := take size data in
  bigEndian 0 (if littleEndian then rev window else window).

(** [DataView.getInt8/16/32(0, le)] and [getBigInt64(0, le)]. *)
Definition getInt (size : nat) (data : list byte) (littleEndian : bool) : Z :=
  let u := getUint size data littleEndian in
  let bits := 8 * Z.of_nat size in
  if u <? 2 ^ (bits - 1) then u else u - 2 ^ bits.

Definition hexDigit (n : Z) : ascii :=
  nth (Z.to_nat n) (list_ascii_of_string "0123456789abcdef") "0"%char.

(** [b.toString(16).padStart(2, '0')] *)
Definition toHex2 (b : byte) : string :=
  let v := byteValue b in
  String (hexDigit (v / 16)) (String (hexDigit (v mod 16)) EmptyString).

(** [`${i}`] for an integer [i] *)
Definition numberToString (i : Z) : string :=
  NilZero.string_of_int (Z.to_int i).

Definition doubleQuote : string := String (ascii_of_nat 34) EmptyString.

Section Parser.

Context `{P : Platform} (this : BinaryParser).

(** *** parseValue *)

(** [None] stands for the thrown [Error('Insufficient data: ...')]. *)
Definition parseValue (definition : FieldDefinition) (data : list byte)
    : option FieldValue :=
  let typeSize := getDataTypeSize (def_type definition) in
  let tooShort :=
    match typeSize with
    | Some size => Z.of_nat (length data) <? size
    | None => false
    end in
  if tooShort then None
  else
    let isLittleEndian :=
      match def_endianness definition with little => true | big => false end in
    Some
      match def_type definition with
      | uint8 => VNumber (getUint 1 data isLittleEndian)
      | uint16 => VNumber (getUint 2 data isLittleEndian)
      | uint32 => VNumber (getUint 4 data isLittleEndian)
      | uint64 => VBigInt (getUint 8 data isLittleEndian)
      | int8 => VNumber (getInt 1 data isLittleEndian)
      | int16 => VNumber (getInt 2 data isLittleEndian)
      | int32 => VNumber (getInt 4 data isLittleEndian)
      | int64 => VBigInt (getInt 8 data isLittleEndian)
      | float32 => VNumber (getFloat32 data isLittleEndian)
      | float64 => VNumber (getFloat64 data isLittleEndian)
      | string_ => VString (textDecode data)
      | bytes => VString (String.concat " " (map toHex2 data))
      | struct | script => VBytes data
      end.

(** *** applyValueMapping *)

Definition applyValueMapping (definition : FieldDefinition)
    (value : FieldValue) : FieldValue :=
  match def_valueMap definition with
  | None => value
  | Some valueMap =>
    if (Z.of_nat (length valueMap) =? 0) || isNull value then value
    else
      match find (fun m => strictEquals (vm_value m) value) valueMap with
      | Some mapping => VString (vm_description mapping)
      | None => value
      end
  end.

(** *** applyBitDescriptions *)

(** One turn of the loop: [push] appends at the end. *)
Definition bitStep (value : Z) (collected : list string)
    (bitDesc : BitDescription) : list string :=
  let bitValue := lowBit (signedShiftRight value (bitIndex bitDesc)) in
  if (bitValue =? 1) && nonEmpty (descriptionIfSet bitDesc) then
    collected ++ [descriptionIfSet bitDesc]
  else
    match bitValue =? 0, truthy (descriptionIfUnset bitDesc) with
    | true, Some label => collected ++ [label]
    | _, _ => collected
    end.

Definition applyBitDescriptions (definition : FieldDefinition)
    (value : FieldValue) : FieldValue :=
  match def_bitDescriptions definition with
  | None => value
  | Some descriptions =>
    if Z.of_nat (length descriptions) =? 0 then value
    else
      match value with
      | VNumber n =>
        let collected := fold_left (bitStep n) descriptions [] in
        if Z.of_nat (length collected) >? 0
        then VArray (map VString collected)
        else value
      | _ => value
      end
  end.

(** *** getFieldLength, getRepeatCount *)

(** [const refField = this.parsedFields.get(ref);
     if (refField && typeof refField.value === 'number')], guarded by the
    truthiness of [ref]. *)
Definition numericReference (index : gmap string ParsedField)
    (ref : option string) : option Z :=
  match truthy ref with
  | Some name =>
    match index !! name with
    | Some refField => asNumber (pf_value refField)
    | None => None
    end
  | None => None
  end.

Definition getFieldLength (index : gmap string ParsedField)
    (definition : FieldDefinition) : Z :=
  match numericReference index (def_lengthRef definition) with
  | Some n => n
  | None =>
    match def_length definition with
    | Some len => len
    | None =>
      match getDataTypeSize (def_type definition) with
      | Some typeSize => typeSize
      | None => 1
      end
    end
  end.

(** [definition.repeats || 1]: a count of 0 is falsy. *)
Definition getRepeatCount (index : gmap string ParsedField)
    (definition : FieldDefinition) : Z :=
  match numericReference index (def_repeatRef definition) with
  | Some n => n
  | None =>
    match def_repeats definition with
    | Some repeats => if repeats =? 0 then 1 else repeats
    | None => 1
    end
  end.

(** *** The decoding monad

    A method of the parser reads and writes the state; [None] is a call
    that gives no result: an exception escapes it, so that its promise is
    rejected, or it does not end (the recursion through substructure
    templates has no bound in the source, here it has the bound [fuel]). *)

Definition M (A : Type) : Type := State -> option (A * State).

Definition ret {A} (a : A) : M A := fun st => Some (a, st).

Definition bind {A B} (m : M A) (k : A -> M B) : M B :=
  fun st =>
    match m st with
    | Some (a, st') => k a st'
    | None => None
    end.

Notation "x <- m ;; k" := (bind m (fun x => k))
  (at level 100, m at next level, right associativity).

Definition getIndex : M (gmap string ParsedField) :=
  fun st => Some (parsedFields st, st).

(** [this.parsedFields.set(id, parsed)] *)
Definition setParsedField (id : string) (parsed : ParsedField) : M unit :=
  fun st =>
    Some (tt, {| parsedFields := <[id := parsed]> (parsedFields st);
                 world := world st |}).

(** [this.parsedFields.clear()] *)
Definition clearParsedFields : M unit :=
  fun st => Some (tt, {| parsedFields := ∅; world := world st |}).

(** The result every early exit builds: null value, no bytes, length 0. *)
Definition emptyResult (definition : FieldDefinition) (offset : Z)
    : ParsedField :=
  {| pf_definition := definition;
     pf_value := VNull;
     pf_rawValue := [];
     pf_offset := offset;
     pf_length := 0;
     pf_children := None |}.

(** *** parseScriptField *)

Definition shapeMessage : string :=
  "Script must return an object with " +:+ doubleQuote +:+ "value" +:+
  doubleQuote +:+ " and " +:+ doubleQuote +:+ "length" +:+ doubleQuote +:+
  " properties".

Definition lengthMessage : string :=
  "Script " +:+ doubleQuote +:+ "length" +:+ doubleQuote +:+
  " must be a non-negative number".

(** The result the [catch] block builds once it has the message. *)
Definition scriptError (definition : FieldDefinition) (offset : Z)
    (errorMessage : string) : ParsedField :=
  {| pf_definition := definition;
     pf_value := VString ("Script Error: " +:+ errorMessage);
     pf_rawValue := [];
     pf_offset := offset;
     pf_length := 0;
     pf_children := None |}.

Definition parseScriptField (definition : FieldDefinition) (offset : Z)
    : M ParsedField :=
  fun st =>
    match truthy (def_script definition) with
    | None => Some (emptyResult definition offset, st)
    | Some code =>
      let run :=
        runScript code (file this) (fileSize this) offset
          (parsedFields st) (world st) in
      let st' :=
        {| parsedFields := run_parsedFields run; world := run_world run |} in
      match run_outcome run with
      | ThrewUnreadable =>
        (* [error.message] throws inside the [catch] block *)
        None
      | Threw message => Some (scriptError definition offset message, st')
      | Returned RNotObject
      | Returned (RObject None _)
      | Returned (RObject _ None) =>
        Some (scriptError definition offset shapeMessage, st')
      | Returned (RObject (Some value) (Some LOtherType)) =>
        Some (scriptError definition offset lengthMessage, st')
      | Returned (RObject (Some value) (Some (LNumber length_))) =>
        if length_ <? 0
        then Some (scriptError definition offset lengthMessage, st')
        else
          let bytesAvailable := fileSize this - offset in
          let actualLength := Z.min length_ bytesAvailable in
          Some ({| pf_definition := definition;
                   pf_value := value;
                   pf_rawValue :=
                     readFileSlice (file this) offset (offset + actualLength);
                   pf_offset := offset;
                   pf_length := actualLength;
                   pf_children := None |}, st')
      end
    end.

(** *** The child loop

    [parseSubstructure] and the legacy-children branch of [parseField]
    run the same loop, over the fields of the template and over
    [definition.children]; [parse] is [this.parseField]. *)

Fixpoint parseChildren (parse : FieldDefinition -> Z -> option Z -> M ParsedField)
    (defs : list FieldDefinition) (childResults : list ParsedField)
    (childOffset : Z) : M (list ParsedField * Z) :=
  match defs with
  | [] => ret (childResults, childOffset)
  | childDef :: rest =>
    if childOffset >=? fileSize this then ret (childResults, childOffset)
    else
      childParsed <- parse childDef childOffset None ;;
      parseChildren parse rest (childResults ++ [childParsed])
        (pf_offset childParsed + pf_length childParsed)
  end.

(** *** parseSubstructure *)

Definition parseSubstructure
    (parse : FieldDefinition -> Z -> option Z -> M ParsedField)
    (definition : FieldDefinition) (offset : Z) : M ParsedField :=
  match find (fun s => bool_decide (Some (tpl_id s) = def_substructureRef definition))
             (substructures this) with
  | None => ret (emptyResult definition offset)
  | Some substructure =>
    loop <- parseChildren parse (tpl_fields substructure) [] offset ;;
    let '(childResults, childOffset) := loop in
    let totalLength := childOffset - offset in
    let actualBytesToRead := Z.min totalLength (fileSize this - offset) in
    ret {| pf_definition := definition;
           pf_value := VArray (map pf_value childResults);
           pf_rawValue :=
             readFileSlice (file this) offset (offset + actualBytesToRead);
           pf_offset := offset;
           pf_length := actualBytesToRead;
           pf_children := Some childResults |}
  end.

(** *** parseRepeatedField *)

(** [const { ...singleItemDef } = definition;
     const itemDef = { ...singleItemDef, id: `${definition.id}[${i}]` };]
    the rest pattern copies every property, the spread copies them again
    and [id] is overwritten. *)
Definition itemDef (definition : FieldDefinition) (i : Z) : FieldDefinition :=
  let singleItemDef := definition in
  {| def_id := def_id definition +:+ "[" +:+ numberToString i +:+ "]";
     def_name := def_name singleItemDef;
     def_type := def_type singleItemDef;
     def_length := def_length singleItemDef;
     def_lengthRef := def_lengthRef singleItemDef;
     def_endianness := def_endianness singleItemDef;
     def_offset := def_offset singleItemDef;
     def_description := def_description singleItemDef;
     def_repeats := def_repeats singleItemDef;
     def_repeatRef := def_repeatRef singleItemDef;
     def_children := def_children singleItemDef;
     def_substructureRef := def_substructureRef singleItemDef;
     def_script := def_script singleItemDef;
     def_valueMap := def_valueMap singleItemDef;
     def_bitDescriptions := def_bitDescriptions singleItemDef |}.

(** The [for] loop with [remaining] turns left, at index [i]. *)
Fixpoint repeatLoop (parse : FieldDefinition -> Z -> option Z -> M ParsedField)
    (definition : FieldDefinition) (remaining : nat) (i : Z)
    (children : list ParsedField) (currentOffset : Z)
    : M (list ParsedField * Z) :=
  match remaining with
  | O => ret (children, currentOffset)
  | S remaining' =>
    if currentOffset >=? fileSize this then ret (children, currentOffset)
    else
      itemParsed <- parse (itemDef definition i) currentOffset (Some 1) ;;
      if isNull (pf_value itemParsed) && (pf_length itemParsed =? 0)
      then ret (children, currentOffset)
      else
        repeatLoop parse definition remaining' (i + 1)
          (children ++ [itemParsed])
          (pf_offset itemParsed + pf_length itemParsed)
  end.

Definition parseRepeatedField
    (parse : FieldDefinition -> Z -> option Z -> M ParsedField)
    (definition : FieldDefinition) (offset : Z) (count : Z) : M ParsedField :=
  loop <- repeatLoop parse definition (Z.to_nat count) 0 [] offset ;;
  let '(children, currentOffset) := loop in
  let totalLength := currentOffset - offset in
  let actualBytesToRead := Z.min totalLength (fileSize this - offset) in
  ret {| pf_definition := definition;
         pf_value := VArray (map pf_value children);
         pf_rawValue :=
           readFileSlice (file this) offset (offset + actualBytesToRead);
         pf_offset := offset;
         pf_length := actualBytesToRead;
         pf_children := Some children |}.

(** *** parseField

    The method is written in three parts, in the order of its text: the
    single-value decode with the legacy children (from "Parse single field
    with bounds checking" on), the length, availability and repeat handling
    before it (from "Determine field length" on), and the head of the
    method with the dispatch. The recursive calls go through [parse]. *)

Definition parseSingle
    (parse : FieldDefinition -> Z -> option Z -> M ParsedField)
    (definition : FieldDefinition) (offset : Z)
    (requestedLength actualBytesToRead : Z) : M ParsedField :=
  let rawValue :=
    readFileSlice (file this) offset (offset + actualBytesToRead) in
  let value :=
    match parseValue definition rawValue with
    | Some raw =>
      applyBitDescriptions definition (applyValueMapping definition raw)
    | None => VNull
    end in
  let parsed :=
    {| pf_definition := definition;
       pf_value := value;
       pf_rawValue := rawValue;
       pf_offset := offset;
       pf_length := requestedLength;
       pf_children := None |} in
  (* legacy children *)
  match def_type definition, def_children definition with
  | struct, Some children =>
    if isNull value then ret parsed
    else
      loop <- parseChildren parse children [] offset ;;
      let '(childResults, childOffset) := loop in
      ret {| pf_definition := definition;
             pf_value := value;
             pf_rawValue := rawValue;
             pf_offset := offset;
             pf_length := childOffset - offset;
             pf_children := Some childResults |}
  | _, _ => ret parsed
  end.

Definition parsePrimitive
    (parse : FieldDefinition -> Z -> option Z -> M ParsedField)
    (definition : FieldDefinition) (offset : Z)
    (repeatCount : option Z) : M ParsedField :=
  index <- getIndex ;;
  let requestedLength := getFieldLength index definition in
  let bytesAvailable := fileSize this - offset in
  let actualBytesToRead := Z.min requestedLength bytesAvailable in
  let typeSize := getDataTypeSize (def_type definition) in
  let insufficient :=
    match typeSize with
    | Some size => actualBytesToRead <? size
    | None => false
    end in
  if insufficient then
    ret {| pf_definition := definition;
           pf_value := VNull;
           pf_rawValue :=
             readFileSlice (file this) offset (offset + actualBytesToRead);
           pf_offset := offset;
           pf_length := requestedLength;
           pf_children := None |}
  else
    (* repeatCount ??= this.getRepeatCount(definition) *)
    let repeatCount :=
      match repeatCount with
      | Some given => given
      | None => getRepeatCount index definition
      end in
    if repeatCount >? 1 then
      parseRepeatedField parse definition offset repeatCount
    else
      parseSingle parse definition offset requestedLength actualBytesToRead.

Definition parseFieldBody
    (parse : FieldDefinition -> Z -> option Z -> M ParsedField)
    (definition : FieldDefinition) (startOffset : Z)
    (repeatCount : option Z) : M ParsedField :=
  (* offset override *)
  let offset :=
    match def_offset definition with
    | Some fixed => fixed
    | None => startOffset
    end in
  (* beyond the file *)
  if offset >=? fileSize this then ret (emptyResult definition offset)
  else
    match def_type definition, truthy (def_substructureRef definition) with
    | script, _ => parseScriptField definition offset
    | struct, Some _ => parseSubstructure parse definition offset
    | _, _ => parsePrimitive parse definition offset repeatCount
    end.

(** The method itself: every call spends one unit of [fuel]. *)
Fixpoint parseField (fuel : nat) : FieldDefinition -> Z -> option Z -> M ParsedField :=
  match fuel with
  | O => fun _ _ _ _ => None
  | S fuel' => parseFieldBody (parseField fuel')
  end.

(** *** parseStructure *)

Fixpoint structureLoop
    (parse : FieldDefinition -> Z -> option Z -> M ParsedField)
    (fields : list FieldDefinition) (results : list ParsedField)
    (offset : Z) : M (list ParsedField) :=
  match fields with
  | [] => ret results
  | field :: rest =>
    parsed <- parse field offset None ;;
    let results := results ++ [parsed] in
    _ <- setParsedField (def_id field) parsed ;;
    let offset := pf_offset parsed + pf_length parsed in
    if offset >=? fileSize this then ret results
    else structureLoop parse rest results offset
  end.

Definition parseStructure (fuel : nat) (fields : list FieldDefinition)
    : M (list ParsedField) :=
  _ <- clearParsedFields ;;
  structureLoop (parseField fuel) fields [] 0.

End Parser.

(** ** Notions the properties are stated with *)

Section Notions.

Context `{P : Platform} (this : BinaryParser).

(** The offset a field is decoded at: its own fixed offset, else the
    running offset of the caller. *)
Definition resolvedOffset (definition : FieldDefinition) (startOffset : Z) : Z :=
  match def_offset definition with
  | Some fixed => fixed
  | None => startOffset
  end.

(** The bytes of the file from [offset] on. *)
Definition availableBytes (offset : Z) : list byte :=
  drop (Z.to_nat offset) (file this).

(** A sibling sequence decoded from the running offset [start]: a field
    without a fixed offset sits where the previous one ended. *)
Fixpoint ChainedFrom (start : Z) (siblings : list ParsedField) : Prop :=
  match siblings with
  | [] => True
  | r :: rest =>
    (def_offset (pf_definition r) = None -> pf_offset r = start) /\
    ChainedFrom (pf_offset r + pf_length r) rest
  end.

(** The same, through every level of the tree: children are decoded from
    the offset of their parent. *)
Inductive WellChained : ParsedField -> Prop :=
  | WellChained_intro r :
      (forall cs, pf_children r = Some cs ->
         ChainedFrom (pf_offset r) cs /\ Forall WellChained cs) ->
      WellChained r.

(** What every result of [parseField] satisfies: it carries its descriptor,
    sits at the resolved offset, and is well chained below. *)
Definition decodedAt (definition : FieldDefinition) (startOffset : Z)
    (r : ParsedField) : Prop :=
  pf_definition r = definition /\
  pf_offset r = resolvedOffset definition startOffset /\
  WellChained r.

(** Where the running offset stands after a sibling sequence. *)
Definition endOffset (start : Z) (siblings : list ParsedField) : Z :=
  fold_left (fun _ r => pf_offset r + pf_length r) siblings start.

(** The top-level driver in the words of the specification: decode at the
    running offset, append, advance to [offset + length], register under
    the id, stop once the offset has reached the end of the source. *)
Definition register (id : string) (r : ParsedField) (st : State) : State :=
  {| parsedFields := <[id := r]> (parsedFields st); world := world st |}.

Definition cleared (st : State) : State :=
  {| parsedFields := ∅; world := world st |}.

Inductive driverRun (parse : FieldDefinition -> Z -> option Z -> M ParsedField)
    : Z -> State -> list FieldDefinition -> list ParsedField -> State -> Prop :=
  | driver_done offset st :
      driverRun parse offset st [] [] st
  | driver_stop offset st d rest r st1 :
      parse d offset None st = Some (r, st1) ->
      pf_offset r + pf_length r >= fileSize this ->
      driverRun parse offset st (d :: rest) [r] (register (def_id d) r st1)
  | driver_next offset st d rest r st1 rs st2 :
      parse d offset None st = Some (r, st1) ->
      pf_offset r + pf_length r < fileSize this ->
      driverRun parse (pf_offset r + pf_length r)
        (register (def_id d) r st1) rest rs st2 ->
      driverRun parse offset st (d :: rest) (r :: rs) st2.

(** The descriptors a field can lead to: the fields of the template it
    names and its inline children. *)
Definition nestedFields (definition : FieldDefinition) : list FieldDefinition :=
  match find (fun s => bool_decide (Some (tpl_id s) = def_substructureRef definition))
             (substructures this) with
  | Some substructure => tpl_fields substructure
  | None => []
  end ++
  match def_children definition with
  | Some children => children
  | None => []
  end.

(** [definition] nests at most [depth] levels deep; a catalog in which a
    template leads back to itself has fields that nest within no depth. *)
Fixpoint nestingWithin (depth : nat) (definition : FieldDefinition) : bool :=
  match depth with
  | O => false
  | S depth' => forallb (nestingWithin depth') (nestedFields definition)
  end.

(** Scripts that leave the [parsedFields] map as they found it. *)
Definition readOnlyScripts : Prop :=
  forall code bytes size offset index w,
    run_parsedFields (runScript code bytes size offset index w) = index.

(** Scripts whose outcome and whose effect on the map are decided by the
    arguments of the call alone, not by the ambient state. *)
Definition deterministicScripts : Prop :=
  forall code bytes size offset index w1 w2,
    run_outcome (runScript code bytes size offset index w1) =
    run_outcome (runScript code bytes size offset index w2) /\
    run_parsedFields (runScript code bytes size offset index w1) =
    run_parsedFields (runScript code bytes size offset index w2).

(** Scripts that never throw a value whose message cannot be read. *)
Definition readableThrows : Prop :=
  forall code bytes size offset index w,
    run_outcome (runScript code bytes size offset index w) <> ThrewUnreadable.

(** The failures of a script call that come with a message: it threw a
    value whose message can be read, or what it returned is not an object
    with [value] and [length], or [length] is not of type number, or is
    negative. *)
Definition failureMessage (outcome : ScriptOutcome) : option string :=
  match outcome with
  | Threw message => Some message
  | ThrewUnreadable => None
  | Returned RNotObject => Some shapeMessage
  | Returned (RObject None _) => Some shapeMessage
  | Returned (RObject _ None) => Some shapeMessage
  | Returned (RObject (Some _) (Some LOtherType)) => Some lengthMessage
  | Returned (RObject (Some _) (Some (LNumber n))) =>
    if n <? 0 then Some lengthMessage else None
  end.

(** Partial correctness, termination and insensitivity to the ambient
    state of a computation in [M]. *)
Definition hoare {A} (Pre : State -> Prop) (m : M A)
    (Post : A -> State -> Prop) : Prop :=
  forall s a s', Pre s -> m s = Some (a, s') -> Post a s'.

(** [parse] hands back results that are [decodedAt] their inputs. *)
Definition sound (parse : FieldDefinition -> Z -> option Z -> M ParsedField)
    : Prop :=
  forall d o rc, hoare (fun _ => True) (parse d o rc)
                   (fun r _ => decodedAt d o r).

(** A computation that leaves the reference index as it found it. *)
Definition keepsIndex {A} (m : M A) : Prop :=
  forall s a s', m s = Some (a, s') -> parsedFields s' = parsedFields s.

Definition returns {A} (m : M A) : Prop :=
  forall s, is_Some (m s).

(** [m'] returns whatever [m] returns. *)
Definition below {A} (m m' : M A) : Prop :=
  forall s x, m s = Some x -> m' s = Some x.

Definition agree {A} (o1 o2 : option (A * State)) : Prop :=
  match o1, o2 with
  | Some (a1, s1), Some (a2, s2) => a1 = a2 /\ parsedFields s1 = parsedFields s2
  | None, None => True
  | _, _ => False
  end.

Definition worldBlind {A} (m : M A) : Prop :=
  forall s1 s2, parsedFields s1 = parsedFields s2 -> agree (m s1) (m s2).

End Notions.

(** ** The priorities of length and repeat resolution, in the words of the
    specification *)

Definition orElse {A} (first second : option A) : option A :=
  match first with
  | Some a => Some a
  | None => second
  end.

Definition lengthPriority (index : gmap string ParsedField)
    (definition : FieldDefinition) : Z :=
  default 1
    (orElse (numericReference index (def_lengthRef definition))
       (orElse (def_length definition)
          (getDataTypeSize (def_type definition)))).

(** "the static repeats, else 1", a static count of 0 counting as not
    set *)
Definition nonZero (o : option Z) : option Z :=
  match o with
  | Some n => if n =? 0 then None else Some n
  | None => None
  end.

Definition repeatPriority (index : gmap string ParsedField)
    (definition : FieldDefinition) : Z :=
  default 1
    (orElse (numericReference index (def_repeatRef definition))
       (nonZero (def_repeats definition))).

(** ** Bit descriptions in the words of the specification *)

(** The label an entry contributes: the set-label when the bit is set and
    that label exists, the unset-label when the bit is unset and that label
    exists; a label exists when it is a non-empty string. *)
Definition labelFor (value : Z) (bitDesc : BitDescription) : option string :=
  if lowBit (signedShiftRight value (bitIndex bitDesc)) =? 1
  then truthy (Some (descriptionIfSet bitDesc))
  else truthy (descriptionIfUnset bitDesc).

Definition bitLabels (value : Z) (descriptions : list BitDescription)
    : list string :=
  omap (labelFor value) descriptions.

Definition bitDescriptionsPerSpec (definition : FieldDefinition)
    (value : FieldValue) : FieldValue :=
  match value with
  | VNumber n =>
    match bitLabels n (default [] (def_bitDescriptions definition)) with
    | [] => value
    | labels => VArray (map VString labels)
    end
  | _ => value
  end.

(** ** Platforms and inputs to run the decoder on *)

Definition textOfBytes (data : list byte) : string :=
  string_of_list_ascii (map ascii_of_byte data).

(** No script compiles, floats read as 0, text is read as Latin-1. *)
Definition plainPlatform : Platform :=
  {| World := unit;
     runScript := fun _ _ _ _ index w =>
       mkScriptRun (Threw "Unexpected token") index w;
     getFloat32 := fun _ _ => 0;
     getFloat64 := fun _ _ => 0;
     textDecode := textOfBytes |}.

(** Every script behaves as
    [globalThis.n = (globalThis.n || 0) + 1;
     return { value: globalThis.n, length: 0 };]:
    the ambient state is the counter. *)
Definition counterPlatform : Platform :=
  {| World := Z;
     runScript := fun _ _ _ _ index w =>
       mkScriptRun
         (Returned (RObject (Some (VNumber (w + 1))) (Some (LNumber 0))))
         index (w + 1);
     getFloat32 := fun _ _ => 0;
     getFloat64 := fun _ _ => 0;
     textDecode := textOfBytes |}.

(** A script is [throw null], or else behaves as
    [throw new Error('boom')]. *)
Definition throwingPlatform : Platform :=
  {| World := unit;
     runScript := fun code _ _ _ index w =>
       mkScriptRun
         (if String.eqb code "throw null" then ThrewUnreadable
          else Threw "boom")
         index w;
     getFloat32 := fun _ _ => 0;
     getFloat64 := fun _ _ => 0;
     textDecode := textOfBytes |}.

Definition field (id : string) (type : DataType) : FieldDefinition :=
  {| def_id := id; def_name := id; def_type := type;
     def_length := None; def_lengthRef := None; def_endianness := big;
     def_offset := None; def_description := None;
     def_repeats := None; def_repeatRef := None; def_children := None;
     def_substructureRef := None; def_script := None;
     def_valueMap := None; def_bitDescriptions := None |}.

Definition withLength (len : Z) (d : FieldDefinition) : FieldDefinition :=
  mkFieldDefinition (def_id d) (def_name d) (def_type d) (Some len)
    (def_lengthRef d) (def_endianness d) (def_offset d) (def_description d)
    (def_repeats d) (def_repeatRef d) (def_children d)
    (def_substructureRef d) (def_script d) (def_valueMap d)
    (def_bitDescriptions d).

Definition withLengthRef (ref : string) (d : FieldDefinition) : FieldDefinition :=
  mkFieldDefinition (def_id d) (def_name d) (def_type d) (def_length d)
    (Some ref) (def_endianness d) (def_offset d) (def_description d)
    (def_repeats d) (def_repeatRef d) (def_children d)
    (def_substructureRef d) (def_script d) (def_valueMap d)
    (def_bitDescriptions d).

Definition withEndianness (e : Endianness) (d : FieldDefinition) : FieldDefinition :=
  mkFieldDefinition (def_id d) (def_name d) (def_type d) (def_length d)
    (def_lengthRef d) e (def_offset d) (def_description d)
    (def_repeats d) (def_repeatRef d) (def_children d)
    (def_substructureRef d) (def_script d) (def_valueMap d)
    (def_bitDescriptions d).

Definition withRepeats (n : Z) (d : FieldDefinition) : FieldDefinition :=
  mkFieldDefinition (def_id d) (def_name d) (def_type d) (def_length d)
    (def_lengthRef d) (def_endianness d) (def_offset d) (def_description d)
    (Some n) (def_repeatRef d) (def_children d)
    (def_substructureRef d) (def_script d) (def_valueMap d)
    (def_bitDescriptions d).

Definition withRepeatRef (ref : string) (d : FieldDefinition) : FieldDefinition :=
  mkFieldDefinition (def_id d) (def_name d) (def_type d) (def_length d)
    (def_lengthRef d) (def_endianness d) (def_offset d) (def_description d)
    (def_repeats d) (Some ref) (def_children d)
    (def_substructureRef d) (def_script d) (def_valueMap d)
    (def_bitDescriptions d).

Definition withSubstructureRef (ref : string) (d : FieldDefinition) : FieldDefinition :=
  mkFieldDefinition (def_id d) (def_name d) (def_type d) (def_length d)
    (def_lengthRef d) (def_endianness d) (def_offset d) (def_description d)
    (def_repeats d) (def_repeatRef d) (def_children d)
    (Some ref) (def_script d) (def_valueMap d)
    (def_bitDescriptions d).

Definition withScript (code : string) (d : FieldDefinition) : FieldDefinition :=
  mkFieldDefinition (def_id d) (def_name d) (def_type d) (def_length d)
    (def_lengthRef d) (def_endianness d) (def_offset d) (def_description d)
    (def_repeats d) (def_repeatRef d) (def_children d)
    (def_substructureRef d) (Some code) (def_valueMap d)
    (def_bitDescriptions d).

Definition withValueMap (vm : list ValueMapping) (d : FieldDefinition) : FieldDefinition :=
  mkFieldDefinition (def_id d) (def_name d) (def_type d) (def_length d)
    (def_lengthRef d) (def_endianness d) (def_offset d) (def_description d)
    (def_repeats d) (def_repeatRef d) (def_children d)
    (def_substructureRef d) (def_script d) (Some vm)
    (def_bitDescriptions d).

(** [new BinaryParser({ name, size: file.size, file }, subs)] *)
Definition parserOf (data : list byte) (subs : list SubstructureTemplate)
    : BinaryParser :=
  newBinaryParser (mkFileData "test.bin" (Z.of_nat (length data)) data) subs.

Definition freshState : @State plainPlatform := @mkState plainPlatform ∅ tt.

(** What a test of the repository inspects of a result. *)
Definition summary (r : ParsedField) : FieldValue * Z * Z :=
  (pf_value r, pf_offset r, pf_length r).

Definition decode `{P : Platform} (this : BinaryParser) (fuel : nat)
    (fields : list FieldDefinition) (st : State) : option (list ParsedField) :=
  fst <$> parseStructure this fuel fields st.

(** ** Further notions: decoded integers *)

(** The interval a decoded integer of each kind lies in, lower bound
    included, upper bound excluded. *)
Definition integerRange (type : DataType) : option (Z * Z) :=
  match type with
  | uint8 => Some (0, 2 ^ 8)
  | uint16 => Some (0, 2 ^ 16)
  | uint32 => Some (0, 2 ^ 32)
  | uint64 => Some (0, 2 ^ 64)
  | int8 => Some (- 2 ^ 7, 2 ^ 7)
  | int16 => Some (- 2 ^ 15, 2 ^ 15)
  | int32 => Some (- 2 ^ 31, 2 ^ 31)
  | int64 => Some (- 2 ^ 63, 2 ^ 63)
  | _ => None
  end.

(** The integer a value holds, as a number or as a wide integer. *)
Definition integerOf (v : FieldValue) : option Z :=
  match v with
  | VNumber n | VBigInt n => Some n
  | _ => None
  end.

(** ** Further notions: trees, indexes and a platform with a working script *)

(** [Q] holds at a result and at every result below it. *)
Inductive EveryNode (Q : ParsedField -> Prop) : ParsedField -> Prop :=
  | EveryNode_intro r :
      Q r ->
      (forall cs, pf_children r = Some cs -> Forall (EveryNode Q) cs) ->
      EveryNode Q r.

(** The index that registering the results in order, each under the id of
    its descriptor, builds on top of [start]. *)
Definition indexAfter (start : gmap string ParsedField)
    (rs : list ParsedField) : gmap string ParsedField :=
  fold_left (fun index r => <[def_id (pf_definition r) := r]> index) rs start.

(** The repeat count [parseField] works with: the one its caller gives,
    else the one [getRepeatCount] resolves. *)
Definition resolvedRepeatCount (index : gmap string ParsedField)
    (definition : FieldDefinition) (repeatCount : option Z) : Z :=
  match repeatCount with
  | Some given => given
  | None => getRepeatCount index definition
  end.

(** Every script behaves as [return { value: offset, length: 4 };]. *)
Definition offsetScriptPlatform : Platform :=
  {| World := unit;
     runScript := fun _ _ _ offset index w =>
       mkScriptRun
         (Returned (RObject (Some (VNumber offset)) (Some (LNumber 4))))
         index w;
     getFloat32 := fun _ _ => 0;
     getFloat64 := fun _ _ => 0;
     textDecode := textOfBytes |}.

Section FurtherNotions.

Context `{P : Platform} (this : BinaryParser).

(** The raw bytes of a result at a non-negative offset are bytes of the
    file, read from that offset on. *)
Definition rawAtOffset (r : ParsedField) : Prop :=
  0 <= pf_offset r ->
  exists n, pf_rawValue r = take n (availableBytes this (pf_offset r)).

(** The raw bytes of a result as [parseField] builds them: none, or a
    slice of the file that starts at the offset of the result. *)
Definition rawIsSlice (r : ParsedField) : Prop :=
  pf_rawValue r = [] \/
  exists end_, pf_rawValue r = readFileSlice (file this) (pf_offset r) end_.

(** A result that [parse] handed back. *)
Definition producedBy
    (parse : FieldDefinition -> Z -> option Z -> M ParsedField)
    (c : ParsedField) : Prop :=
  exists d o rc s0 s1, parse d o rc s0 = Some (c, s1).

End FurtherNotions.

(** The value of a lower-case hexadecimal digit, 16 for any other
    character. *)
Definition hexDigitValue (c : ascii) : Z :=
  let n := Z.of_nat (nat_of_ascii c) in
  if (48 <=? n) && (n <=? 57) then n - 48
  else if (97 <=? n) && (n <=? 102) then n - 87
  else 16.

(** ** workers/hexWorker.ts *)

Record FormattedRow := mkFormattedRow {
  row_offset : string;
  row_hex : list string;
  row_ascii : list string
}.

(** [toUpperCase] on the ASCII strings it is applied to here. *)
Definition upperCaseChar (c : ascii) : ascii :=
  let n := nat_of_ascii c in
  if (97 <=? n)%nat && (n <=? 122)%nat then ascii_of_nat (n - 32) else c.

Fixpoint toUpperCase (s : string) : string :=
  match s with
  | EmptyString => EmptyString
  | String c rest => String (upperCaseChar c) (toUpperCase rest)
  end.

Fixpoint repeatChar (n : nat) (c : ascii) : string :=
  match n with
  | O => EmptyString
  | S n' => String c (repeatChar n' c)
  end.

(** [s.padStart(targetLength, fill)] for a one-character [fill] *)
Definition padStart (targetLength : nat) (fill : ascii) (s : string) : string :=
  (repeatChar (targetLength - String.length s) fill ++ s)%string.

(** [n.toString(16)] for an integer [n] *)
Definition toStringBase16 (n : Z) : string :=
  HexadecimalString.NilZero.string_of_int (Z.to_hex_int n).

(** [(startOffset + i).toString(16).padStart(8, '0').toUpperCase()] *)
Definition offsetLabel (n : Z) : string :=
  toUpperCase (padStart 8 "0" (toStringBase16 n)).

(** [byte.toString(16).padStart(2, '0').toUpperCase()] *)
Definition hexCell (b : byte) : string := toUpperCase (toHex2 b).

(** [byte >= 32 && byte <= 126 ? String.fromCharCode(byte) : '.'] *)
Definition asciiCell (b : byte) : string :=
  let v := byteValue b in
  if (32 <=? v) && (v <=? 126) then String (ascii_of_byte b) EmptyString
  else ".".

(** The [for] loop of [formatHex], at index [i], with [turns] turns left:
    every turn moves [i] on by 16, so the loop makes no more turns than
    the data has bytes. *)
Fixpoint formatHexLoop (turns : nat) (data : list byte) (startOffset : Z)
    (i : nat) (rows : list FormattedRow) : list FormattedRow :=
  match turns with
  | O => rows
  | S turns' =>
    if (i <? length data)%nat then
      let rowData := take 16 (drop i data) in
      let offset := offsetLabel (startOffset + Z.of_nat i) in
      let hex := map hexCell rowData in
      let ascii := map asciiCell rowData in
      formatHexLoop turns' data startOffset (i + 16)
        (rows ++ [mkFormattedRow offset hex ascii])
    else rows
  end.

Definition formatHex (data : list byte) (startOffset : Z) : list FormattedRow :=
  formatHexLoop (length data) data startOffset 0 [].

(** Row [k] of the hex view of [data], said directly: the 16 bytes from
    index 16k on, under the label of their offset. *)
Definition rowAt (data : list byte) (startOffset : Z) (k : nat) : FormattedRow :=
  let rowData := take 16 (drop (16 * k) data) in
  mkFormattedRow (offsetLabel (startOffset + Z.of_nat (16 * k)))
    (map hexCell rowData) (map asciiCell rowData).

Definition rowCount (data : list byte) : nat := (length data + 15) / 16.

(** ** components/HexView.tsx: the ranges behind the byte styles *)

Record FieldRange := mkFieldRange {
  range_start : Z;
  range_end : Z;
  range_field : ParsedField;
  range_color : string
}.

Definition colors : list string :=
  ["bg-red-500/20 border-red-500/50";
   "bg-green-500/20 border-green-500/50";
   "bg-blue-500/20 border-blue-500/50";
   "bg-yellow-500/20 border-yellow-500/50";
   "bg-purple-500/20 border-purple-500/50";
   "bg-pink-500/20 border-pink-500/50"].

(** [colors[colorIndex % colors.length]] *)
Definition colorAt (colorIndex : nat) : string :=
  nth (colorIndex mod length colors) colors EmptyString.

(** The range [addFieldRange] pushes for the field itself. *)
Definition ownRange (field : ParsedField) (colorIndex : nat) : FieldRange :=
  mkFieldRange (pf_offset field) (pf_offset field + pf_length field - 1)
    field (colorAt colorIndex).

(** [addFieldRange(field, colorIndex)], the array [ranges] it pushes to
    passed along. *)
Fixpoint addFieldRange (field : ParsedField) (colorIndex : nat)
    (ranges : list FieldRange) {struct field} : list FieldRange :=
  match field with
  | mkParsedField definition value rawValue offset length_ children =>
    let ranges :=
      ranges ++
      [mkFieldRange offset (offset + length_ - 1)
         (mkParsedField definition value rawValue offset length_ children)
         (colorAt colorIndex)] in
    match children with
    | Some cs =>
      (fix forEach (cs : list ParsedField) (index : nat)
           (ranges : list FieldRange) {struct cs} : list FieldRange :=
         match cs with
         | [] => ranges
         | child :: rest =>
           forEach rest (S index)
             (addFieldRange child (colorIndex + index + 1) ranges)
         end) cs 0%nat ranges
    | None => ranges
    end
  end.

(** [fields.forEach((field, index) => addFieldRange(field, base + index))]
    from [index] on. *)
Fixpoint addFieldRanges (fields : list ParsedField) (base index : nat)
    (ranges : list FieldRange) : list FieldRange :=
  match fields with
  | [] => ranges
  | field :: rest =>
    addFieldRanges rest base (S index)
      (addFieldRange field (base + index) ranges)
  end.

(** The memoized [fieldRanges]. *)
Definition fieldRanges (parsedFields : list ParsedField) : list FieldRange :=
  addFieldRanges parsedFields 0 0 [].

Definition covers (offset : Z) (r : FieldRange) : bool :=
  (offset >=? range_start r) && (offset <=? range_end r).

(** [getByteStyle(offset)] *)
Definition getByteStyle (ranges : list FieldRange)
    (highlightedField : option string) (offset : Z) : string :=
  match find (covers offset) ranges with
  | None => EmptyString
  | Some range =>
    let isHighlighted :=
      bool_decide
        (highlightedField = Some (def_id (pf_definition (range_field range)))) in
    range_color range +:+ " " +:+
    (if isHighlighted then "ring-2 ring-white" else EmptyString)
  end.

(** ** utils/entropyCalculator.ts

    The entropy of a block is a floating-point sum. The numbers and the
    two operations the code performs on them are left open: [zero] is the
    literal [0], and [subtractTerm entropy frequency blockLength] is one
    turn of
    [probability = frequency / blockLength;
     entropy -= probability * Math.log2(probability)]. *)

(** [data.slice(start, end)] of a typed array, integer bounds. *)
Definition uint8ArraySlice (data : list byte) (start end_ : Z) : list byte :=
  let len := Z.of_nat (length data) in
  let from := if start <? 0 then Z.max (len + start) 0 else Z.min start len in
  let to := if end_ <? 0 then Z.max (len + end_) 0 else Z.min end_ len in
  take (Z.to_nat (to - from)) (drop (Z.to_nat from) data).

Section EntropyCalculator.
Variable number : Type.
Variable zero : number.
Variable subtractTerm : number -> nat -> nat -> number.

(** [new Array(256).fill(0)], then [frequencies[byte]++] per byte. *)
Definition frequenciesOf (block : list byte) : list nat :=
  fold_left (fun frequencies b => alter S (Byte.to_nat b) frequencies)
    block (replicate 256 0%nat).

Definition calculateBlockEntropy (block : list byte) : number :=
  if (length block =? 0)%nat then zero
  else
    let blockLength := length block in
    fold_left
      (fun entropy frequency =>
         if (0 <? frequency)%nat
         then subtractTerm entropy frequency blockLength
         else entropy)
      (frequenciesOf block) zero.

(** The loop of [calculateEntropy]; [turns] bounds its iterations and
    [None] is a loop still running when they are used up. *)
Fixpoint calculateEntropyLoop (turns : nat) (data : list byte)
    (blockSize i : Z) (entropyValues : list number) : option (list number) :=
  match turns with
  | O => None
  | S turns' =>
    if i <? Z.of_nat (length data) then
      let blockEnd := Z.min (i + blockSize) (Z.of_nat (length data)) in
      let block := uint8ArraySlice data i blockEnd in
      let entropy := calculateBlockEntropy block in
      calculateEntropyLoop turns' data blockSize (i + blockSize)
        (entropyValues ++ [entropy])
    else Some entropyValues
  end.

Definition calculateEntropy (turns : nat) (data : list byte)
    (blockSize : Z) : option (list number) :=
  calculateEntropyLoop turns data blockSize 0 [].
End EntropyCalculator.

Arguments frequenciesOf block : simpl never.
Arguments calculateBlockEntropy {number} zero subtractTerm block.
Arguments calculateEntropyLoop {number} zero subtractTerm turns data blockSize i entropyValues.
Arguments calculateEntropy {number} zero subtractTerm turns data blockSize.

(** * Properties *)

(** ** The tests of the repository (utils/binaryParser.test.ts) *)

Example test_big_endian :
  map summary <$>
    decode (parserOf [x01; x02; x03; x04; x05; x06; x07; x08] []) 1
      [field "f1" uint8; field "f2" uint16; field "f3" uint32] freshState
  = Some [(VNumber 0x01, 0, 1); (VNumber 0x0203, 1, 2);
          (VNumber 0x04050607, 3, 4)].
Proof. vm_compute. reflexivity. Qed.

Example test_little_endian :
  map summary <$>
    decode (parserOf [x01; x03; x02; x07; x06; x05; x04] []) 1
      (map (withEndianness little)
         [field "f1" uint8; field "f2" uint16; field "f3" uint32])
      freshState
  = Some [(VNumber 0x01, 0, 1); (VNumber 0x0203, 1, 2);
          (VNumber 0x04050607, 3, 4)].
Proof. vm_compute. reflexivity. Qed.

Example test_fixed_length_string :
  map summary <$>
    decode (parserOf [x48; x65; x6c; x6c; x6f] []) 1
      [withLength 5 (field "f1" string_)] freshState
  = Some [(VString "Hello", 0, 5)].
Proof. vm_compute. reflexivity. Qed.

Example test_lengthRef :
  map summary <$>
    decode (parserOf [x05; x48; x65; x6c; x6c; x6f] []) 1
      [field "len" uint8; withLengthRef "len" (field "str" string_)]
      freshState
  = Some [(VNumber 5, 0, 1); (VString "Hello", 1, 5)].
Proof. vm_compute. reflexivity. Qed.

Example test_repeated :
  map (fun r => map summary <$> pf_children r) <$>
    decode (parserOf [x12; x34; x56; x78] []) 2
      [withRepeats 2 (field "f1" uint16)] freshState
  = Some [Some [(VNumber 0x1234, 0, 2); (VNumber 0x5678, 2, 2)]].
Proof. vm_compute. reflexivity. Qed.

Example test_substructure :
  let sub1 :=
    mkSubstructureTemplate "sub1" "MySub" None
      [field "s_type" uint8; field "s_val" uint16] in
  map (fun r => (pf_length r, map summary <$> pf_children r)) <$>
    decode (parserOf [x01; x12; x34] [sub1]) 2
      [withSubstructureRef "sub1" (field "f1" struct)] freshState
  = Some [(3, Some [(VNumber 0x01, 0, 1); (VNumber 0x1234, 1, 2)])].
Proof. vm_compute. reflexivity. Qed.

(** ** Reference resolution *)

Lemma truthy_Some (o : option string) (name : string) :
  truthy o = Some name <-> o = Some name /\ name <> "".
Proof.
  unfold truthy, nonEmpty. destruct o as [s|]; [|split; [discriminate | intros [? _]; discriminate]].
  destruct (String.eqb_spec s "") as [->|Hne]; simpl; split.
  - discriminate.
  - intros [[= <-] Hne]. congruence.
  - intros [= <-]. auto.
  - intros [[= <-] _]. reflexivity.
Qed.

Lemma numericReference_Some (index : gmap string ParsedField)
    (ref : option string) (n : Z) :
  numericReference index ref = Some n <->
  exists name refField,
    ref = Some name /\ name <> "" /\
    index !! name = Some refField /\ pf_value refField = VNumber n.
Proof.
  unfold numericReference. split.
  - destruct (truthy ref) as [name|] eqn:Href; [|discriminate].
    apply truthy_Some in Href as [-> Hne].
    destruct (index !! name) as [refField|] eqn:Hget; [|discriminate].
    intros Hnum. exists name, refField. repeat split; auto.
    destruct (pf_value refField); simpl in Hnum; congruence.
  - intros (name & refField & -> & Hne & Hget & Hval).
    assert (truthy (Some name) = Some name) as -> by (apply truthy_Some; auto).
    rewrite Hget, Hval. reflexivity.
Qed.

(** X24. How [getFieldLength] and [getRepeatCount] resolve: the requested
    length is the value of the field that a non-empty [lengthRef] names in
    the reference index, else the static [length] if set, else the fixed
    size of the type, else 1. The repeat count is the value of the field
    that a non-empty [repeatRef] names, else the static [repeats] if set
    and not 0, else 1. For the code a reference resolves exactly when it
    is a non-empty id registered in the index with a value of the
    JavaScript type number; a bigint, a string or a list does not count. *)
Theorem length_and_repeat_priority (index : gmap string ParsedField)
    (definition : FieldDefinition) :
  getFieldLength index definition = lengthPriority index definition /\
  getRepeatCount index definition = repeatPriority index definition /\
  (forall ref n,
     numericReference index ref = Some n <->
     exists name refField,
       ref = Some name /\ name <> "" /\
       index !! name = Some refField /\ pf_value refField = VNumber n).
Proof.
  split; [|split].
  - unfold getFieldLength, lengthPriority, orElse.
    destruct (numericReference index (def_lengthRef definition)); [reflexivity|].
    destruct (def_length definition); [reflexivity|].
    destruct (getDataTypeSize (def_type definition)); reflexivity.
  - unfold getRepeatCount, repeatPriority, orElse, nonZero.
    destruct (numericReference index (def_repeatRef definition)); [reflexivity|].
    destruct (def_repeats definition) as [r|]; [|reflexivity].
    destruct (r =? 0); reflexivity.
  - intros ref n. apply numericReference_Some.
Qed.

(** The value of a [uint64] or [int64] field is a bigint, and a reference
    to a field whose value is a bigint never resolves. *)
Lemma wide_reference_never_resolves (index : gmap string ParsedField)
    (name : string) (refField : ParsedField) (n : Z) :
  index !! name = Some refField ->
  pf_value refField = VBigInt n ->
  numericReference index (Some name) = None.
Proof.
  intros Hget Hval. unfold numericReference.
  destruct (truthy (Some name)) as [name'|] eqn:Hname; [|reflexivity].
  apply truthy_Some in Hname as [[= ->] _].
  rewrite Hget, Hval. reflexivity.
Qed.

(** C3 on a reference to a 64-bit field. No reference to a field whose
    value is a bigint resolves. The field [n] holds 3, the text field [s]
    has [lengthRef: 'n'] and the static [length: 1]: with [n] a [uint64]
    the reference is passed over and one byte is read, with [n] a [uint32]
    of the same value three bytes are read. In the same way a [repeatRef]
    to a [uint64] holding 2 yields a single value, and to a [uint32]
    holding 2 the two instances. The structure editor offers the 64-bit
    fields as targets of both references. *)
Theorem wide_reference_falls_back :
  let text := withLengthRef "n" (withLength 1 (field "s" string_)) in
  let item := withRepeatRef "n" (field "r" uint8) in
  (forall index name refField n,
     index !! name = Some refField ->
     pf_value refField = VBigInt n ->
     numericReference index (Some name) = None) /\
  map summary <$>
    decode (parserOf [x00; x00; x00; x00; x00; x00; x00; x03; x61; x62; x63] [])
      1 [field "n" uint64; text] freshState
  = Some [(VBigInt 3, 0, 8); (VString "a", 8, 1)] /\
  map summary <$>
    decode (parserOf [x00; x00; x00; x03; x61; x62; x63] [])
      1 [field "n" uint32; text] freshState
  = Some [(VNumber 3, 0, 4); (VString "abc", 4, 3)] /\
  map summary <$>
    decode (parserOf [x00; x00; x00; x00; x00; x00; x00; x02; x0a; x0b] [])
      2 [field "n" uint64; item] freshState
  = Some [(VBigInt 2, 0, 8); (VNumber 10, 8, 1)] /\
  map summary <$>
    decode (parserOf [x00; x00; x00; x02; x0a; x0b] [])
      2 [field "n" uint32; item] freshState
  = Some [(VNumber 2, 0, 4); (VArray [VNumber 10; VNumber 11], 4, 2)].
Proof.
  intros text item. split; [exact wide_reference_never_resolves|].
  vm_compute. repeat split.
Qed.

(** ** Bit descriptions *)

Lemma land_1_mod_2 (a : Z) : Z.land a 1 = a mod 2.
Proof. exact (Z.land_ones a 1 ltac:(lia)). Qed.

Lemma lowBit_cases (n : Z) : lowBit n = 0 \/ lowBit n = 1.
Proof.
  unfold lowBit. rewrite land_1_mod_2.
  assert (0 <= toInt32 n mod 2 < 2) by (apply Z.mod_pos_bound; lia). lia.
Qed.

Lemma toInt32_range (n : Z) : - 2 ^ 31 <= toInt32 n < 2 ^ 31.
Proof.
  unfold toInt32.
  assert (0 < 2 ^ 32) as Hpos by reflexivity.
  pose proof (Z.mod_pos_bound (n + 2 ^ 31) (2 ^ 32) Hpos).
  change (2 ^ 32) with (2 * 2 ^ 31) in *. lia.
Qed.

Lemma toInt32_small (n : Z) : - 2 ^ 31 <= n < 2 ^ 31 -> toInt32 n = n.
Proof.
  intros Hn. unfold toInt32.
  change (2 ^ 32) with (2 * 2 ^ 31). rewrite Z.mod_small; lia.
Qed.

Lemma signedShiftRight_range (value count : Z) :
  - 2 ^ 31 <= signedShiftRight value count < 2 ^ 31.
Proof.
  unfold signedShiftRight.
  pose proof (toInt32_range value) as Hr.
  assert (0 <= count mod 32 < 32) as Hc by (apply Z.mod_pos_bound; lia).
  rewrite Z.shiftr_div_pow2 by lia.
  assert (0 < 2 ^ (count mod 32)) by (apply Z.pow_pos_nonneg; lia).
  split.
  - apply Z.div_le_lower_bound; [lia|]. nia.
  - apply Z.div_lt_upper_bound; [lia|]. nia.
Qed.

(** The bit that [(value >> bitIndex) & 1] extracts. *)
Lemma lowBit_shift_testbit (value index : Z) :
  lowBit (signedShiftRight value index) =
  Z.b2z (Z.testbit (toInt32 value) (index mod 32)).
Proof.
  unfold lowBit. rewrite toInt32_small by apply signedShiftRight_range.
  unfold signedShiftRight.
  assert (0 <= index mod 32 < 32) as Hc by (apply Z.mod_pos_bound; lia).
  rewrite land_1_mod_2, <- Z.bit0_mod.
  rewrite Z.shiftr_spec by lia. reflexivity.
Qed.

Lemma bitStep_labelFor (value : Z) (collected : list string)
    (bitDesc : BitDescription) :
  bitStep value collected bitDesc =
  collected ++ option_list (labelFor value bitDesc).
Proof.
  unfold bitStep, labelFor, truthy.
  destruct (lowBit_cases (signedShiftRight value (bitIndex bitDesc))) as [-> | ->];
    simpl.
  - destruct (descriptionIfUnset bitDesc) as [u|]; simpl.
    + destruct (nonEmpty u); simpl; [reflexivity | by rewrite app_nil_r].
    + by rewrite app_nil_r.
  - destruct (nonEmpty (descriptionIfSet bitDesc)); simpl; [reflexivity|].
    destruct (descriptionIfUnset bitDesc) as [u|]; simpl.
    + destruct (nonEmpty u); by rewrite app_nil_r.
    + by rewrite app_nil_r.
Qed.

Lemma bit_loop_collects (value : Z) (descriptions : list BitDescription)
    (collected : list string) :
  fold_left (bitStep value) descriptions collected =
  collected ++ bitLabels value descriptions.
Proof.
  revert collected. induction descriptions as [|bitDesc rest IH]; intros collected.
  - simpl. by rewrite app_nil_r.
  - simpl. rewrite IH, bitStep_labelFor, <- app_assoc. f_equal.
    unfold bitLabels. simpl. destruct (labelFor value bitDesc); reflexivity.
Qed.

(** C7. Post-processing by bit descriptions leaves every value that is not
    a number as it is. For a number, the entries are visited in list
    order; an entry contributes its set-label when [(value >> bitIndex) & 1]
    is 1 and that label exists, its unset-label when the bit is 0 and that
    label exists; the value becomes the list of the labels in that order
    when there is at least one, and stays the number otherwise. The bit
    extracted is bit [bitIndex mod 32] of the value read as a signed 32-bit
    integer. *)
Theorem applyBitDescriptions_per_spec (definition : FieldDefinition)
    (value : FieldValue) :
  applyBitDescriptions definition value =
    bitDescriptionsPerSpec definition value /\
  (forall n bitDesc,
     lowBit (signedShiftRight n (bitIndex bitDesc)) =
     Z.b2z (Z.testbit (toInt32 n) (bitIndex bitDesc mod 32))).
Proof.
  split; [|intros; apply lowBit_shift_testbit].
  unfold applyBitDescriptions, bitDescriptionsPerSpec.
  destruct (def_bitDescriptions definition) as [descriptions|]; simpl.
  - destruct descriptions as [|bitDesc rest].
    + simpl. destruct value; reflexivity.
    + destruct value; try reflexivity.
      change (Z.of_nat (length (bitDesc :: rest)) =? 0) with false. cbv iota.
      rewrite bit_loop_collects, app_nil_l.
      destruct (bitLabels n (bitDesc :: rest)) as [|label labels]; reflexivity.
  - destruct value; reflexivity.
Qed.

(** ** Value mapping on wide integers *)

Section ValueMapping.

Context `{P : Platform}.

Lemma parseValue_wide (definition : FieldDefinition) (data : list byte)
    (value : FieldValue) :
  def_type definition = uint64 \/ def_type definition = int64 ->
  parseValue definition data = Some value ->
  exists n, value = VBigInt n.
Proof.
  unfold parseValue. intros [-> | ->]; simpl;
    destruct (Z.of_nat (length data) <? 8); intros [= <-]; eauto.
Qed.

Lemma parseValue_wide_succeeds (definition : FieldDefinition)
    (data : list byte) :
  def_type definition = uint64 \/ def_type definition = int64 ->
  8 <= Z.of_nat (length data) ->
  is_Some (parseValue definition data).
Proof.
  unfold parseValue. intros [-> | ->] Hlen; simpl;
    (destruct (Z.ltb_spec (Z.of_nat (length data)) 8); [lia | eauto]).
Qed.

Lemma find_none_of_all_false {A} (f : A -> bool) (l : list A) :
  (forall x, In x l -> f x = false) -> find f l = None.
Proof.
  induction l as [|a l IH]; intros Hall; [reflexivity|].
  simpl. rewrite (Hall a) by (left; reflexivity).
  apply IH. intros x Hx. apply Hall. right. exact Hx.
Qed.

(** C9. A [uint64] or [int64] field that decodes yields a wide integer;
    no entry of any value map is strictly equal to it, an entry holding a
    number or a string, so value mapping hands the value back as it is. *)
Theorem valueMapping_identity_on_bigint (definition : FieldDefinition)
    (data : list byte) (value : FieldValue) :
  def_type definition = uint64 \/ def_type definition = int64 ->
  parseValue definition data = Some value ->
  (exists n, value = VBigInt n) /\
  (forall key, strictEquals key value = false) /\
  applyValueMapping definition value = value.
Proof.
  intros Htype Hparse.
  destruct (parseValue_wide _ _ _ Htype Hparse) as [n ->].
  split; [eauto|]. split.
  - intros [k|s]; reflexivity.
  - unfold applyValueMapping.
    destruct (def_valueMap definition) as [valueMap|]; [|reflexivity].
    destruct (_ || _); [reflexivity|].
    rewrite find_none_of_all_false; [reflexivity|].
    intros m _. destruct (vm_value m); reflexivity.
Qed.

End ValueMapping.

Lemma valueMapping_identity_on_bigint_witness :
  let definition :=
    withValueMap [mkValueMapping (KNumber 1) "one"] (field "wide" uint64) in
  let data := [x00; x00; x00; x00; x00; x00; x00; x01] in
  @parseValue plainPlatform definition data = Some (VBigInt 1) /\
  applyValueMapping definition (VBigInt 1) = VBigInt 1.
Proof.
  split; [reflexivity|].
  apply (@valueMapping_identity_on_bigint plainPlatform
           (withValueMap [mkValueMapping (KNumber 1) "one"] (field "wide" uint64))
           [x00; x00; x00; x00; x00; x00; x00; x01] (VBigInt 1)).
  - left. reflexivity.
  - reflexivity.
Defined.

(** ** Single fields: script failures and insufficient data *)

Section SingleField.

Context `{P : Platform} (this : BinaryParser).

Lemma parseField_S (fuel : nat) :
  parseField this (S fuel) = parseFieldBody this (parseField this fuel).
Proof. reflexivity. Qed.

Lemma parseScriptField_failure (definition : FieldDefinition) (offset : Z)
    (st : State) (code message : string) :
  truthy (def_script definition) = Some code ->
  failureMessage
    (run_outcome (runScript code (file this) (fileSize this) offset
                    (parsedFields st) (world st))) = Some message ->
  parseScriptField this definition offset st =
  Some (scriptError definition offset message,
        let run := runScript code (file this) (fileSize this) offset
                     (parsedFields st) (world st) in
        {| parsedFields := run_parsedFields run; world := run_world run |}).
Proof.
  intros Hcode Hfail. unfold parseScriptField. rewrite Hcode.
  destruct (run_outcome _) as [m| |[|[v|] [[n|]|]]]; simpl in Hfail;
    try discriminate; try (injection Hfail as <-; reflexivity).
  destruct (n <? 0); [injection Hfail as <-; reflexivity | discriminate].
Qed.

Lemma parseScriptField_state (definition : FieldDefinition) (offset : Z)
    (st st' : State) (r : ParsedField) :
  parseScriptField this definition offset st = Some (r, st') ->
  match truthy (def_script definition) with
  | Some code =>
    let run := runScript code (file this) (fileSize this) offset
                 (parsedFields st) (world st) in
    st' = {| parsedFields := run_parsedFields run; world := run_world run |}
  | None => st' = st
  end.
Proof.
  unfold parseScriptField. destruct (truthy (def_script definition)) as [code|];
    [|intros [= _ <-]; reflexivity].
  cbv zeta.
  destruct (run_outcome _) as [m| |[|[v|] [[n|]|]]]; try discriminate;
    try (intros [= _ <-]; reflexivity).
  destruct (n <? 0); intros [= _ <-]; reflexivity.
Qed.

Lemma parseFieldBody_script parse (definition : FieldDefinition)
    (startOffset : Z) (repeatCount : option Z) (st : State) :
  def_type definition = script ->
  resolvedOffset definition startOffset < fileSize this ->
  parseFieldBody this parse definition startOffset repeatCount st =
  parseScriptField this definition (resolvedOffset definition startOffset) st.
Proof.
  intros Htype Hin. unfold parseFieldBody.
  fold (resolvedOffset definition startOffset).
  destruct (Z.geb_spec (resolvedOffset definition startOffset) (fileSize this));
    [lia|].
  rewrite Htype. reflexivity.
Qed.

(** X23. A script field decoded inside the source whose script fails
    with a message (it does not compile or throws a value whose message
    can be read, or returns something that is not an object with [value]
    and [length], or a [length] that is not of type number or is negative)
    yields the result whose value is the text "Script Error: " followed by
    the message, whose length is 0 and whose raw bytes are empty; both the
    top-level driver and the child loop go on with the next sibling, at
    the same offset, and with no sibling left they return what they have
    with the failed field appended. *)
Theorem script_failure_is_contained (fuel : nat)
    (definition : FieldDefinition) (startOffset : Z)
    (repeatCount : option Z) (st : State) (code message : string) :
  def_type definition = script ->
  truthy (def_script definition) = Some code ->
  resolvedOffset definition startOffset < fileSize this ->
  failureMessage
    (run_outcome
       (runScript code (file this) (fileSize this)
          (resolvedOffset definition startOffset)
          (parsedFields st) (world st))) = Some message ->
  let offset := resolvedOffset definition startOffset in
  let run :=
    runScript code (file this) (fileSize this) offset
      (parsedFields st) (world st) in
  let st' := {| parsedFields := run_parsedFields run; world := run_world run |} in
  let failed := scriptError definition offset message in
  pf_value failed = VString ("Script Error: " +:+ message) /\
  pf_length failed = 0 /\
  pf_rawValue failed = [] /\
  parseField this (S fuel) definition startOffset repeatCount st
    = Some (failed, st') /\
  (forall rest results,
     structureLoop this (parseField this (S fuel)) (definition :: rest)
       results startOffset st =
     structureLoop this (parseField this (S fuel)) rest
       (results ++ [failed]) offset (register (def_id definition) failed st')) /\
  (forall rest childResults,
     startOffset < fileSize this ->
     parseChildren this (parseField this (S fuel)) (definition :: rest)
       childResults startOffset st =
     parseChildren this (parseField this (S fuel)) rest
       (childResults ++ [failed]) offset st') /\
  (forall results,
     structureLoop this (parseField this (S fuel)) [definition]
       results startOffset st
     = Some (results ++ [failed], register (def_id definition) failed st')) /\
  (forall childResults,
     startOffset < fileSize this ->
     parseChildren this (parseField this (S fuel)) [definition]
       childResults startOffset st
     = Some ((childResults ++ [failed], offset), st')).
Proof.
  intros Htype Hcode Hin Hfail offset run st' failed.
  assert (forall rc, parseField this (S fuel) definition startOffset rc st
                     = Some (failed, st')) as Hfield.
  { intros rc. rewrite parseField_S, parseFieldBody_script by assumption.
    apply parseScriptField_failure; assumption. }
  assert (pf_offset failed + pf_length failed = offset) as Hend
    by (simpl; lia).
  repeat split; try reflexivity.
  - apply Hfield.
  - intros rest results. cbn [structureLoop]. unfold bind at 1.
    rewrite Hfield. unfold bind at 1. cbn [setParsedField].
    rewrite Hend.
    destruct (Z.geb_spec offset (fileSize this)); [unfold offset in *; lia|].
    reflexivity.
  - intros rest childResults Hstart. cbn [parseChildren].
    destruct (Z.geb_spec startOffset (fileSize this)); [lia|].
    unfold bind at 1. rewrite Hfield, Hend. reflexivity.
  - intros results. cbn [structureLoop]. unfold bind at 1.
    rewrite Hfield. unfold bind at 1. cbn [setParsedField].
    rewrite Hend.
    destruct (Z.geb_spec offset (fileSize this)); reflexivity.
  - intros childResults Hstart. cbn [parseChildren].
    destruct (Z.geb_spec startOffset (fileSize this)); [lia|].
    unfold bind at 1. rewrite Hfield, Hend. reflexivity.
Qed.

(** X25. A script field decoded inside the source whose script throws a
    value without a readable message gives no result, whatever the fuel:
    the [catch] block fails, and with it the call of [parseField], the
    child loop and the top-level driver that reached the field; what
    they had decoded before is not returned either. *)
Theorem unreadable_throw_gives_no_result (fuel : nat)
    (definition : FieldDefinition) (startOffset : Z) (st : State)
    (code : string) :
  def_type definition = script ->
  truthy (def_script definition) = Some code ->
  resolvedOffset definition startOffset < fileSize this ->
  run_outcome
    (runScript code (file this) (fileSize this)
       (resolvedOffset definition startOffset)
       (parsedFields st) (world st)) = ThrewUnreadable ->
  parseScriptField this definition (resolvedOffset definition startOffset) st
    = None /\
  (forall repeatCount,
     parseField this fuel definition startOffset repeatCount st = None) /\
  (forall rest results,
     structureLoop this (parseField this fuel) (definition :: rest)
       results startOffset st = None) /\
  (forall rest childResults,
     startOffset < fileSize this ->
     parseChildren this (parseField this fuel) (definition :: rest)
       childResults startOffset st = None).
Proof.
  intros Htype Hcode Hin Hthrown.
  assert (parseScriptField this definition
            (resolvedOffset definition startOffset) st = None) as Hscript.
  { unfold parseScriptField. rewrite Hcode, Hthrown. reflexivity. }
  assert (forall rc, parseField this fuel definition startOffset rc st = None)
    as Hfield.
  { intros rc. destruct fuel as [|fuel]; [reflexivity|].
    rewrite parseField_S, parseFieldBody_script by assumption.
    exact Hscript. }
  split; [exact Hscript|]. split; [exact Hfield|]. split.
  - intros rest results. cbn [structureLoop]. unfold bind at 1.
    rewrite Hfield. reflexivity.
  - intros rest childResults Hstart. cbn [parseChildren].
    destruct (Z.geb_spec startOffset (fileSize this)); [lia|].
    unfold bind at 1. rewrite Hfield. reflexivity.
Qed.

End SingleField.

Lemma unreadable_throw_gives_no_result_witness :
  structureLoop (parserOf [x2a; x2b] []) (parseField (parserOf [x2a; x2b] []) 1)
    [withScript "throw null" (field "s" script); field "next" uint8] [] 0
    (@mkState throwingPlatform ∅ tt)
  = None.
Proof.
  apply (proj1 (proj2 (proj2
           (@unreadable_throw_gives_no_result throwingPlatform
              (parserOf [x2a; x2b] []) 1
              (withScript "throw null" (field "s" script)) 0
              (@mkState throwingPlatform ∅ tt) "throw null"
              ltac:(reflexivity) ltac:(reflexivity)
              ltac:(vm_compute; reflexivity) ltac:(reflexivity))))).
Defined.

(** C6 on a script that throws [null], with a sibling after it or before
    it, over the bytes 2a 2b: the field gives no result and neither does
    the decode, with any fuel; the sibling is not decoded, and the one
    decoded before the script field is not returned. The same structure
    with a script that throws an [Error] decodes to the error result
    followed by the sibling. *)
Theorem throw_null_rejects_the_decode :
  let this := parserOf [x2a; x2b] [] in
  let thrower := withScript "throw null" (field "s" script) in
  let failing := withScript "throw new Error('boom')" (field "s" script) in
  let next := field "next" uint8 in
  let st := @mkState throwingPlatform ∅ tt in
  parseScriptField this thrower 0 st = None /\
  (forall fuel, parseStructure this fuel [thrower; next] st = None) /\
  (forall fuel, parseStructure this fuel [next; thrower] st = None) /\
  map summary <$> decode this 1 [failing; next] st
  = Some [(VString "Script Error: boom", 0, 0); (VNumber 42, 0, 1)].
Proof.
  intros this thrower failing next st.
  split; [reflexivity|]. split; [|split].
  - intros [|fuel]; reflexivity.
  - intros [|fuel]; vm_compute; reflexivity.
  - vm_compute. reflexivity.
Qed.

Lemma script_failure_is_contained_witness :
  let this := parserOf [x2a] [] in
  let definition := withScript "return {" (field "s" script) in
  failureMessage
    (run_outcome
       (@runScript plainPlatform "return {" (file this) (fileSize this) 0
          (parsedFields freshState) (world freshState)))
    = Some "Unexpected token" /\
  parseField this 1 definition 0 None freshState
    = Some (scriptError definition 0 "Unexpected token", freshState) /\
  map summary <$> decode this 1 [definition; field "next" uint8] freshState
    = Some [(VString "Script Error: Unexpected token", 0, 0);
            (VNumber 42, 0, 1)].
Proof.
  split; [reflexivity|]. split; [|vm_compute; reflexivity].
  apply (@script_failure_is_contained plainPlatform (parserOf [x2a] []) 0
           (withScript "return {" (field "s" script)) 0 None freshState
           "return {" "Unexpected token");
    [reflexivity | reflexivity | vm_compute; reflexivity | reflexivity].
Defined.

Section InsufficientData.

Context `{P : Platform} (this : BinaryParser).

Lemma readFileSlice_inside (bytes : list byte) (start end_ : Z) :
  0 <= start <= Z.of_nat (length bytes) ->
  start <= end_ ->
  readFileSlice bytes start end_ =
  take (Z.to_nat (Z.min end_ (Z.of_nat (length bytes)) - start))
    (drop (Z.to_nat start) bytes).
Proof.
  intros Hstart Hend. unfold readFileSlice.
  destruct (Z.ltb_spec start 0); [lia|].
  destruct (Z.ltb_spec end_ 0); [lia|].
  rewrite (Z.min_l start) by lia. f_equal. lia.
Qed.

Lemma fixed_size_is_primitive (type : DataType) (size : Z) :
  getDataTypeSize type = Some size -> type <> script /\ type <> struct.
Proof. destruct type; simpl; intros; split; congruence. Qed.

Lemma parseFieldBody_dispatch_primitive {A} (type : DataType)
    (ref : option string) (a b c : A) :
  type <> script -> type <> struct ->
  match type, ref with
  | script, _ => a
  | struct, Some _ => b
  | _, _ => c
  end = c.
Proof. intros Hscript Hstruct. destruct type; try congruence; destruct ref; reflexivity. Qed.

(** C4, as amended. A field of a fixed-size type decoded at an offset
    inside the source, with fewer bytes left than the size of the type,
    yields value null and the requested length as length; its raw bytes
    are the first min(requested length, bytes left) bytes at the offset
    when the requested length is not negative, which is all the bytes
    left whenever the requested length reaches that far (as it does for
    a field without [length] or [lengthRef]). The state is untouched. *)
Theorem insufficient_data_partial_result (fuel : nat)
    (definition : FieldDefinition) (startOffset : Z)
    (repeatCount : option Z) (st : State) (size : Z) :
  getDataTypeSize (def_type definition) = Some size ->
  fileSize this = Z.of_nat (length (file this)) ->
  0 <= resolvedOffset definition startOffset < fileSize this ->
  fileSize this - resolvedOffset definition startOffset < size ->
  let offset := resolvedOffset definition startOffset in
  let requested := getFieldLength (parsedFields st) definition in
  let left := fileSize this - offset in
  exists r,
    parseField this (S fuel) definition startOffset repeatCount st
      = Some (r, st) /\
    pf_value r = VNull /\
    pf_length r = requested /\
    pf_offset r = offset /\
    (0 <= requested ->
     pf_rawValue r =
     take (Z.to_nat (Z.min requested left)) (availableBytes this offset)) /\
    (left <= requested -> pf_rawValue r = availableBytes this offset).
Proof.
  intros Hsize Hfile Hin Hshort offset requested left.
  destruct (fixed_size_is_primitive _ _ Hsize) as [Hscript Hstruct].
  eexists. split.
  - rewrite parseField_S. unfold parseFieldBody.
    fold (resolvedOffset definition startOffset). fold offset.
    destruct (Z.geb_spec offset (fileSize this)); [unfold offset in *; lia|].
    rewrite parseFieldBody_dispatch_primitive by assumption.
    unfold parsePrimitive, bind, getIndex. cbv zeta.
    rewrite Hsize. fold requested. fold left.
    destruct (Z.ltb_spec (Z.min requested left) size); [|unfold left, offset in *; lia].
    reflexivity.
  - cbn [pf_value pf_length pf_offset pf_rawValue].
    repeat split.
    + intros Hreq. rewrite readFileSlice_inside; unfold availableBytes.
      * f_equal. unfold left, offset in *. lia.
      * unfold offset in *. lia.
      * unfold left, offset in *. lia.
    + intros Hreach. rewrite readFileSlice_inside; unfold availableBytes.
      * apply take_ge. rewrite length_drop. unfold left, offset in *. lia.
      * unfold offset in *. lia.
      * unfold left, offset in *. lia.
Qed.

End InsufficientData.

(** The case of the specification: a [uint32] with 2 bytes left. *)
Lemma insufficient_data_partial_result_witness :
  let this := parserOf [x01; x02] [] in
  exists r,
    parseField this 1 (field "f1" uint32) 0 None freshState
      = Some (r, freshState) /\
    pf_value r = VNull /\ pf_length r = 4 /\ pf_rawValue r = [x01; x02].
Proof.
  destruct (@insufficient_data_partial_result plainPlatform
              (parserOf [x01; x02] []) 0 (field "f1" uint32) 0 None
              freshState 4)
    as (r & Hrun & Hvalue & Hlength & _ & _ & Hraw);
    [reflexivity | reflexivity | vm_compute; split; congruence | reflexivity |].
  exists r. repeat split; try assumption.
  apply Hraw. vm_compute. congruence.
Defined.

(** C4, as stated, fails: a [uint32] given a static [length] of 1, with
    2 bytes left, has one raw byte, not the two that are available. *)
Lemma partial_result_shorter_than_available :
  let this := parserOf [x01; x02] [] in
  let definition := withLength 1 (field "f1" uint32) in
  getDataTypeSize (def_type definition) = Some 4 /\
  fileSize this - 0 < 4 /\
  exists r,
    parseField this 1 definition 0 None freshState = Some (r, freshState) /\
    pf_value r = VNull /\
    pf_length r = 1 /\
    pf_rawValue r = [x01] /\
    availableBytes this 0 = [x01; x02] /\
    pf_rawValue r <> availableBytes this 0.
Proof.
  split; [reflexivity|]. split; [reflexivity|].
  eexists. split; [vm_compute; reflexivity|].
  repeat split; try reflexivity. vm_compute. congruence.
Qed.

(** ** Sibling sequences *)

Section Siblings.

Context `{P : Platform} (this : BinaryParser).

Implicit Types parse : FieldDefinition -> Z -> option Z -> M ParsedField.

Lemma ChainedFrom_app (start : Z) (front back : list ParsedField) :
  ChainedFrom start (front ++ back) <->
  ChainedFrom start front /\ ChainedFrom (endOffset start front) back.
Proof.
  revert start. induction front as [|r front IH]; intros start; simpl.
  - tauto.
  - rewrite IH. unfold endOffset. simpl. tauto.
Qed.

Lemma endOffset_app (start : Z) (front back : list ParsedField) :
  endOffset start (front ++ back) = endOffset (endOffset start front) back.
Proof. unfold endOffset. apply fold_left_app. Qed.

Lemma WellChained_leaf (r : ParsedField) :
  pf_children r = None -> WellChained r.
Proof. intros Hnone. constructor. intros cs Hcs. congruence. Qed.

Lemma WellChained_parent (r : ParsedField) (cs : list ParsedField) :
  pf_children r = Some cs ->
  ChainedFrom (pf_offset r) cs -> Forall WellChained cs ->
  WellChained r.
Proof.
  intros Hcs Hchain Hall. constructor. intros cs' Hcs'.
  assert (cs' = cs) as -> by congruence. auto.
Qed.

Lemma decodedAt_chain (d : FieldDefinition) (o : Z) (r : ParsedField) :
  decodedAt d o r ->
  (def_offset (pf_definition r) = None -> pf_offset r = o) /\ WellChained r.
Proof.
  intros (-> & -> & Hwc). split; [|assumption].
  unfold resolvedOffset. intros ->. reflexivity.
Qed.

Lemma parseChildren_chained parse (defs : list FieldDefinition) :
  sound parse ->
  forall acc off,
    hoare (fun _ => True) (parseChildren this parse defs acc off)
      (fun out _ =>
         exists new, fst out = acc ++ new /\
           ChainedFrom off new /\ Forall WellChained new /\
           snd out = endOffset off new).
Proof.
  intros Hsound. induction defs as [|d rest IH]; intros acc off s out s' _ Hrun.
  - injection Hrun as <- <-. exists []. simpl. rewrite app_nil_r. auto.
  - cbn [parseChildren] in Hrun.
    destruct (off >=? fileSize this).
    + injection Hrun as <- <-. exists []. simpl. rewrite app_nil_r. auto.
    + unfold bind in Hrun.
      destruct (parse d off None s) as [[r s1]|] eqn:Hparse; [|discriminate].
      apply (Hsound d off None s r s1 I) in Hparse.
      apply decodedAt_chain in Hparse as [Hoff Hwc].
      destruct (IH _ _ _ _ _ I Hrun) as (new & Hout & Hchain & Hall & Hend).
      exists (r :: new). rewrite Hout, <- app_assoc. simpl.
      repeat split; auto.
Qed.

Lemma repeatLoop_chained parse (definition : FieldDefinition) (remaining : nat) :
  sound parse ->
  forall i acc off,
    hoare (fun _ => True) (repeatLoop this parse definition remaining i acc off)
      (fun out _ =>
         exists new, fst out = acc ++ new /\
           ChainedFrom off new /\ Forall WellChained new /\
           snd out = endOffset off new).
Proof.
  intros Hsound. induction remaining as [|remaining IH];
    intros i acc off s out s' _ Hrun.
  - injection Hrun as <- <-. exists []. simpl. rewrite app_nil_r. auto.
  - cbn [repeatLoop] in Hrun.
    destruct (off >=? fileSize this).
    + injection Hrun as <- <-. exists []. simpl. rewrite app_nil_r. auto.
    + unfold bind in Hrun.
      destruct (parse (itemDef definition i) off (Some 1) s)
        as [[r s1]|] eqn:Hparse; [|discriminate].
      apply (Hsound _ off (Some 1) s r s1 I) in Hparse.
      apply decodedAt_chain in Hparse as [Hoff Hwc].
      destruct (isNull (pf_value r) && (pf_length r =? 0)).
      * injection Hrun as <- <-. exists []. simpl. rewrite app_nil_r. auto.
      * destruct (IH _ _ _ _ _ _ I Hrun) as (new & Hout & Hchain & Hall & Hend).
        exists (r :: new). rewrite Hout, <- app_assoc. simpl.
        repeat split; auto.
Qed.

Lemma decodedAt_leaf (d : FieldDefinition) (off : Z) (r : ParsedField) :
  pf_definition r = d -> pf_offset r = resolvedOffset d off ->
  pf_children r = None -> decodedAt d off r.
Proof. intros Hd Ho Hc. split; [|split]; auto using WellChained_leaf. Qed.

Lemma decodedAt_parent (d : FieldDefinition) (off : Z) (r : ParsedField)
    (cs : list ParsedField) :
  pf_definition r = d -> pf_offset r = resolvedOffset d off ->
  pf_children r = Some cs ->
  ChainedFrom (resolvedOffset d off) cs -> Forall WellChained cs ->
  decodedAt d off r.
Proof.
  intros Hd Ho Hc Hchain Hall. split; [|split]; auto.
  eapply WellChained_parent; eauto. rewrite Ho. exact Hchain.
Qed.

Lemma emptyResult_decodedAt (d : FieldDefinition) (off : Z) :
  decodedAt d off (emptyResult d (resolvedOffset d off)).
Proof. apply decodedAt_leaf; reflexivity. Qed.

Lemma parseScriptField_decodedAt (d : FieldDefinition) (off : Z) :
  hoare (fun _ => True) (parseScriptField this d (resolvedOffset d off))
    (fun r _ => decodedAt d off r).
Proof.
  intros s r s' _ Hrun. unfold parseScriptField in Hrun.
  destruct (truthy (def_script d)).
  - destruct (run_outcome _) as [m| |[|[v|] [[n|]|]]]; try discriminate;
      try (injection Hrun as <- _; apply decodedAt_leaf; reflexivity).
    destruct (n <? 0); injection Hrun as <- _; apply decodedAt_leaf; reflexivity.
  - injection Hrun as <- _. apply emptyResult_decodedAt.
Qed.

Lemma parseSubstructure_decodedAt parse (d : FieldDefinition) (off : Z) :
  sound parse ->
  hoare (fun _ => True) (parseSubstructure this parse d (resolvedOffset d off))
    (fun r _ => decodedAt d off r).
Proof.
  intros Hsound s r s' _ Hrun. unfold parseSubstructure in Hrun.
  destruct (find _ _) as [substructure|].
  - unfold bind in Hrun.
    destruct (parseChildren _ _ _ _ _ _) as [[[cs childOffset] s1]|] eqn:Hloop;
      [|discriminate].
    injection Hrun as <- _.
    apply (parseChildren_chained _ _ Hsound) in Hloop; [|exact I].
    destruct Hloop as (new & Hout & Hchain & Hall & _). simpl in Hout. subst cs.
    eapply decodedAt_parent; [reflexivity..|assumption|assumption].
  - injection Hrun as <- _. apply emptyResult_decodedAt.
Qed.

Lemma parseRepeatedField_decodedAt parse (d : FieldDefinition) (off count : Z) :
  sound parse ->
  hoare (fun _ => True)
    (parseRepeatedField this parse d (resolvedOffset d off) count)
    (fun r _ => decodedAt d off r).
Proof.
  intros Hsound s r s' _ Hrun. unfold parseRepeatedField, bind in Hrun.
  destruct (repeatLoop _ _ _ _ _ _ _ _) as [[[cs currentOffset] s1]|] eqn:Hloop;
    [|discriminate].
  injection Hrun as <- _.
  apply (repeatLoop_chained _ _ _ Hsound) in Hloop; [|exact I].
  destruct Hloop as (new & Hout & Hchain & Hall & _). simpl in Hout. subst cs.
  eapply decodedAt_parent; [reflexivity..|assumption|assumption].
Qed.

Lemma parseSingle_decodedAt parse (d : FieldDefinition) (off : Z)
    (requested actual : Z) :
  sound parse ->
  hoare (fun _ => True)
    (parseSingle this parse d (resolvedOffset d off) requested actual)
    (fun r _ => decodedAt d off r).
Proof.
  intros Hsound s r s' _. unfold parseSingle. cbv zeta.
  assert (forall v raw len,
            decodedAt d off
              {| pf_definition := d; pf_value := v; pf_rawValue := raw;
                 pf_offset := resolvedOffset d off; pf_length := len;
                 pf_children := None |}) as Hleaf.
  { intros. apply decodedAt_leaf; reflexivity. }
  destruct (def_type d); try (intros [= <- _]; apply Hleaf).
  destruct (def_children d) as [children|]; [|intros [= <- _]; apply Hleaf].
  destruct (isNull _); [intros [= <- _]; apply Hleaf|].
  unfold bind.
  destruct (parseChildren _ _ _ _ _ _) as [[[cs childOffset] s1]|] eqn:Hloop;
    [|discriminate].
  intros [= <- _].
  apply (parseChildren_chained _ _ Hsound) in Hloop; [|exact I].
  destruct Hloop as (new & Hout & Hchain & Hall & _). simpl in Hout. subst cs.
  eapply decodedAt_parent; [reflexivity..|assumption|assumption].
Qed.

Lemma parsePrimitive_decodedAt parse (d : FieldDefinition) (off : Z)
    (rc : option Z) :
  sound parse ->
  hoare (fun _ => True)
    (parsePrimitive this parse d (resolvedOffset d off) rc)
    (fun r _ => decodedAt d off r).
Proof.
  intros Hsound s r s' _. unfold parsePrimitive, bind at 1, getIndex. cbv zeta.
  destruct (match getDataTypeSize (def_type d) with
            | Some size => _ | None => false end).
  { intros [= <- _]. apply decodedAt_leaf; reflexivity. }
  destruct (_ >? 1).
  - apply parseRepeatedField_decodedAt; auto.
  - apply parseSingle_decodedAt; auto.
Qed.

Lemma parseFieldBody_sound parse : sound parse -> sound (parseFieldBody this parse).
Proof.
  intros Hsound d off rc s r s' _ Hrun. unfold parseFieldBody in Hrun.
  fold (resolvedOffset d off) in Hrun.
  destruct (resolvedOffset d off >=? fileSize this).
  { injection Hrun as <- _. apply emptyResult_decodedAt. }
  destruct (def_type d);
    try (eapply parsePrimitive_decodedAt; [exact Hsound | exact I | exact Hrun]).
  - destruct (truthy (def_substructureRef d)).
    + eapply parseSubstructure_decodedAt; eauto.
    + eapply parsePrimitive_decodedAt; eauto.
  - eapply parseScriptField_decodedAt; eauto.
Qed.

Lemma parseField_sound (fuel : nat) : sound (parseField this fuel).
Proof.
  induction fuel as [|fuel IH].
  - intros d o rc s r s' _ Hrun. discriminate.
  - apply parseFieldBody_sound. exact IH.
Qed.

End Siblings.

(** ** The top-level driver *)

Section Driver.

Context `{P : Platform} (this : BinaryParser).

Implicit Types parse : FieldDefinition -> Z -> option Z -> M ParsedField.

Lemma structureLoop_driverRun parse (fields : list FieldDefinition) :
  forall results off st rs st',
    structureLoop this parse fields results off st = Some (rs, st') ->
    exists new, rs = results ++ new /\ driverRun this parse off st fields new st'.
Proof.
  induction fields as [|d rest IH]; intros results off st rs st' Hrun.
  - injection Hrun as <- <-. exists []. rewrite app_nil_r. split; [reflexivity|].
    constructor.
  - cbn [structureLoop] in Hrun. unfold bind at 1 in Hrun.
    destruct (parse d off None st) as [[r s1]|] eqn:Hparse; [|discriminate].
    unfold bind at 1 in Hrun. cbn [setParsedField] in Hrun.
    fold (register (def_id d) r s1) in Hrun.
    destruct (Z.geb_spec (pf_offset r + pf_length r) (fileSize this)).
    + injection Hrun as <- <-. exists [r]. split; [reflexivity|].
      apply driver_stop; [assumption | lia].
    + apply IH in Hrun as (new & -> & Hdrive).
      exists (r :: new). rewrite <- app_assoc. split; [reflexivity|].
      eapply driver_next; eauto.
Qed.

Lemma driverRun_structureLoop parse off st fields new st' :
  driverRun this parse off st fields new st' ->
  forall results,
    structureLoop this parse fields results off st = Some (results ++ new, st').
Proof.
  induction 1 as [off st | off st d rest r st1 Hparse Hend
                 | off st d rest r st1 rs st2 Hparse Hend Hrest IH];
    intros results.
  - simpl. rewrite app_nil_r. reflexivity.
  - cbn [structureLoop]. unfold bind at 1. rewrite Hparse.
    unfold bind at 1. cbn [setParsedField].
    destruct (Z.geb_spec (pf_offset r + pf_length r) (fileSize this)); [|lia].
    reflexivity.
  - cbn [structureLoop]. unfold bind at 1. rewrite Hparse.
    unfold bind at 1. cbn [setParsedField].
    destruct (Z.geb_spec (pf_offset r + pf_length r) (fileSize this)); [lia|].
    fold (register (def_id d) r st1). rewrite IH, <- app_assoc. reflexivity.
Qed.

Lemma parseStructure_driverRun (fuel : nat) (fields : list FieldDefinition)
    (st : State) (rs : list ParsedField) (st' : State) :
  parseStructure this fuel fields st = Some (rs, st') <->
  driverRun this (parseField this fuel) 0 (cleared st) fields rs st'.
Proof.
  unfold parseStructure, bind, clearParsedFields. fold (cleared st). split.
  - intros Hrun. apply structureLoop_driverRun in Hrun as (new & -> & Hdrive).
    exact Hdrive.
  - intros Hdrive. apply driverRun_structureLoop with (results := []) in Hdrive.
    exact Hdrive.
Qed.

Lemma driverRun_chained parse off st fields rs st' :
  sound parse ->
  driverRun this parse off st fields rs st' ->
  ChainedFrom off rs /\ Forall WellChained rs /\
  map pf_definition rs = take (length rs) fields.
Proof.
  intros Hsound.
  induction 1 as [off st | off st d rest r st1 Hparse Hend
                 | off st d rest r st1 rs st2 Hparse Hend Hrest IH].
  - simpl. auto.
  - pose proof (Hsound d off None st r st1 I Hparse) as Hat.
    destruct (decodedAt_chain _ _ _ Hat) as [Hoff Hwc].
    destruct Hat as (Hdef & _ & _).
    split; [|split].
    + simpl. auto.
    + constructor; [exact Hwc | constructor].
    + simpl. rewrite take_0, Hdef. reflexivity.
  - pose proof (Hsound d off None st r st1 I Hparse) as Hat.
    destruct (decodedAt_chain _ _ _ Hat) as [Hoff Hwc].
    destruct Hat as (Hdef & _ & _).
    destruct IH as (Hchain & Hall & Hdefs).
    split; [|split].
    + simpl. auto.
    + constructor; assumption.
    + simpl. rewrite Hdef, Hdefs. reflexivity.
Qed.

(** *** Termination *)

Lemma parseChildren_returns parse (defs : list FieldDefinition) :
  (forall d, In d defs -> forall o rc, returns (parse d o rc)) ->
  forall acc off, returns (parseChildren this parse defs acc off).
Proof.
  induction defs as [|d rest IH]; intros Hparse acc off s.
  - eexists. reflexivity.
  - cbn [parseChildren]. destruct (off >=? fileSize this).
    + eexists. reflexivity.
    + unfold bind.
      destruct (Hparse d (or_introl eq_refl) off None s) as [[r s1] ->].
      apply IH. intros d' Hd'. apply Hparse. right. exact Hd'.
Qed.

Lemma repeatLoop_returns parse (definition : FieldDefinition) (remaining : nat) :
  (forall i o, returns (parse (itemDef definition i) o (Some 1))) ->
  forall i acc off, returns (repeatLoop this parse definition remaining i acc off).
Proof.
  intros Hparse. induction remaining as [|remaining IH]; intros i acc off s.
  - eexists. reflexivity.
  - cbn [repeatLoop]. destruct (off >=? fileSize this).
    + eexists. reflexivity.
    + unfold bind. destruct (Hparse i off s) as [[r s1] ->].
      destruct (isNull (pf_value r) && (pf_length r =? 0)).
      * eexists. reflexivity.
      * apply IH.
Qed.

Lemma parseScriptField_returns (d : FieldDefinition) (off : Z) :
  readableThrows -> returns (parseScriptField this d off).
Proof.
  intros Hreadable s. unfold parseScriptField.
  destruct (truthy (def_script d)) as [code|]; [|eauto].
  pose proof (Hreadable code (file this) (fileSize this) off
                (parsedFields s) (world s)) as Hthrown.
  destruct (run_outcome _) as [m| |[|[v|] [[n|]|]]]; try congruence; eauto.
  destruct (n <? 0); eauto.
Qed.

Lemma In_nestedFields_template (d : FieldDefinition)
    (substructure : SubstructureTemplate) (d' : FieldDefinition) :
  find (fun s => bool_decide (Some (tpl_id s) = def_substructureRef d))
    (substructures this) = Some substructure ->
  In d' (tpl_fields substructure) -> In d' (nestedFields this d).
Proof.
  intros Hfind Hin. unfold nestedFields. rewrite Hfind.
  apply in_or_app. left. exact Hin.
Qed.

Lemma In_nestedFields_children (d : FieldDefinition)
    (children : list FieldDefinition) (d' : FieldDefinition) :
  def_children d = Some children ->
  In d' children -> In d' (nestedFields this d).
Proof.
  intros Hchildren Hin. unfold nestedFields. rewrite Hchildren.
  apply in_or_app. right. exact Hin.
Qed.

Lemma parseSubstructure_returns parse (d : FieldDefinition) (off : Z) :
  (forall d', In d' (nestedFields this d) -> forall o rc, returns (parse d' o rc)) ->
  returns (parseSubstructure this parse d off).
Proof.
  intros Hparse s. unfold parseSubstructure.
  destruct (find _ _) as [substructure|] eqn:Hfind; [|eexists; reflexivity].
  unfold bind.
  destruct (parseChildren_returns parse (tpl_fields substructure)
              (fun d' Hd' => Hparse d' (In_nestedFields_template _ _ _ Hfind Hd'))
              [] off s) as [[[cs childOffset] s1] ->].
  eexists. reflexivity.
Qed.

Lemma parseSingle_returns parse (d : FieldDefinition) (off requested actual : Z) :
  (forall d', In d' (nestedFields this d) -> forall o rc, returns (parse d' o rc)) ->
  returns (parseSingle this parse d off requested actual).
Proof.
  intros Hparse s. unfold parseSingle. cbv zeta.
  destruct (def_type d); try (eexists; reflexivity).
  destruct (def_children d) as [children|] eqn:Hchildren; [|eexists; reflexivity].
  destruct (isNull _); [eexists; reflexivity|].
  unfold bind.
  destruct (parseChildren_returns parse children
              (fun d' Hd' => Hparse d' (In_nestedFields_children _ _ _ Hchildren Hd'))
              [] off s) as [[[cs childOffset] s1] ->].
  eexists. reflexivity.
Qed.

Lemma parseRepeatedField_returns parse (d : FieldDefinition) (off count : Z) :
  (forall i o, returns (parse (itemDef d i) o (Some 1))) ->
  returns (parseRepeatedField this parse d off count).
Proof.
  intros Hparse s. unfold parseRepeatedField, bind.
  destruct (repeatLoop_returns parse d (Z.to_nat count) Hparse 0 [] off s)
    as [[[cs currentOffset] s1] ->].
  eexists. reflexivity.
Qed.

Lemma parseFieldBody_returns parse (d : FieldDefinition) (off : Z)
    (rc : option Z) :
  readableThrows ->
  (forall d', In d' (nestedFields this d) -> forall o rc, returns (parse d' o rc)) ->
  (rc = Some 1 \/ forall i o, returns (parse (itemDef d i) o (Some 1))) ->
  returns (parseFieldBody this parse d off rc).
Proof.
  intros Hreadable Hnested Hitems s. unfold parseFieldBody.
  destruct (_ >=? fileSize this); [eexists; reflexivity|].
  assert (forall o, returns (parsePrimitive this parse d o rc)) as Hprimitive.
  { intros o s0. unfold parsePrimitive, bind at 1, getIndex. cbv zeta.
    destruct (match getDataTypeSize (def_type d) with
              | Some size => _ | None => false end); [eexists; reflexivity|].
    destruct Hitems as [-> | Hitems].
    - change (1 >? 1) with false. cbv iota.
      apply parseSingle_returns. exact Hnested.
    - destruct (_ >? 1).
      + apply parseRepeatedField_returns. exact Hitems.
      + apply parseSingle_returns. exact Hnested. }
  destruct (def_type d); try apply Hprimitive.
  - destruct (truthy (def_substructureRef d)); [|apply Hprimitive].
    apply parseSubstructure_returns. exact Hnested.
  - apply parseScriptField_returns. exact Hreadable.
Qed.

(** A field that nests within [depth] levels is decoded with any fuel from
    twice that depth on: one unit for the field, one for the instances of
    a repeat, as long as no script throws a value whose message cannot
    be read. *)
Lemma parseField_returns (depth : nat) :
  readableThrows ->
  forall d, nestingWithin this depth d = true ->
  forall fuel, (2 * depth <= fuel)%nat ->
  forall off rc, returns (parseField this fuel d off rc).
Proof.
  intros Hreadable.
  induction depth as [|depth IH]; intros d Hnest fuel Hfuel off rc;
    [discriminate|].
  cbn [nestingWithin] in Hnest. rewrite forallb_forall in Hnest.
  destruct fuel as [|[|fuel]]; [lia | lia |].
  rewrite parseField_S. apply parseFieldBody_returns; [exact Hreadable | |].
  - intros d' Hd' o rc'. apply IH; [auto | lia].
  - right. intros i o. rewrite parseField_S.
    apply parseFieldBody_returns; [exact Hreadable | |].
    + intros d' Hd' o' rc'. apply IH; [|lia]. apply Hnest. exact Hd'.
    + left. reflexivity.
Qed.

Lemma structureLoop_returns parse (fields : list FieldDefinition) :
  (forall d, In d fields -> forall o rc, returns (parse d o rc)) ->
  forall results off, returns (structureLoop this parse fields results off).
Proof.
  induction fields as [|d rest IH]; intros Hparse results off s.
  - eexists. reflexivity.
  - cbn [structureLoop]. unfold bind at 1.
    destruct (Hparse d (or_introl eq_refl) off None s) as [[r s1] ->].
    unfold bind at 1. cbn [setParsedField].
    destruct (_ >=? fileSize this); [eexists; reflexivity|].
    apply IH. intros d' Hd'. apply Hparse. right. exact Hd'.
Qed.

(** C5. The top-level driver is the run the specification describes, from
    an emptied index and the running offset 0: decode at the running
    offset, append, register under the id of the descriptor, advance to
    offset + length of the result, and stop once that has reached the end
    of the source. Every sibling sequence of the tree it returns, the top
    level with the children of structs and repeats at every depth, is
    chained: a field whose descriptor has no fixed offset starts where its
    predecessor ended, the first at the running offset its parent started
    from. And the driver returns whenever the fields nest within a depth
    the fuel covers and no script throws a value whose message cannot be
    read. *)
Theorem driver_threads_running_offset (fuel : nat)
    (fields : list FieldDefinition) (st : State) :
  (forall rs st',
     parseStructure this fuel fields st = Some (rs, st') <->
     driverRun this (parseField this fuel) 0 (cleared st) fields rs st') /\
  (forall rs st',
     parseStructure this fuel fields st = Some (rs, st') ->
     ChainedFrom 0 rs /\ Forall WellChained rs /\
     map pf_definition rs = take (length rs) fields) /\
  (forall depth,
     readableThrows ->
     forallb (nestingWithin this depth) fields = true ->
     (2 * depth <= fuel)%nat ->
     exists rs st', parseStructure this fuel fields st = Some (rs, st')).
Proof.
  split; [|split].
  - intros rs st'. apply parseStructure_driverRun.
  - intros rs st' Hrun. apply parseStructure_driverRun in Hrun.
    eapply driverRun_chained; [apply parseField_sound | exact Hrun].
  - intros depth Hreadable Hnest Hfuel. rewrite forallb_forall in Hnest.
    unfold parseStructure, bind, clearParsedFields.
    destruct (structureLoop_returns (parseField this fuel) fields
                (fun d Hd o rc =>
                   parseField_returns depth Hreadable d (Hnest d Hd)
                     fuel Hfuel o rc)
                [] 0 (cleared st)) as [[rs st'] Hrun].
    exists rs, st'. exact Hrun.
Qed.

End Driver.

Lemma plain_scripts_readable : @readableThrows plainPlatform.
Proof. intros code bytes size offset index w. discriminate. Qed.

Lemma driver_threads_running_offset_witness :
  let this := parserOf [x05; x48; x65; x6c; x6c; x6f] [] in
  let fields := [field "len" uint8; withLengthRef "len" (field "str" string_)] in
  @readableThrows plainPlatform /\
  forallb (nestingWithin this 1) fields = true /\
  exists rs st', parseStructure this 2 fields freshState = Some (rs, st').
Proof.
  split; [exact plain_scripts_readable|]. split; [reflexivity|].
  apply (proj2 (proj2 (@driver_threads_running_offset plainPlatform
                         (parserOf [x05; x48; x65; x6c; x6c; x6f] []) 2
                         [field "len" uint8;
                          withLengthRef "len" (field "str" string_)]
                         freshState)) 1%nat);
    [exact plain_scripts_readable | reflexivity | lia].
Defined.

(** ** The fuel is only a bound *)

Section Fuel.

Context `{P : Platform} (this : BinaryParser).

Implicit Types parse : FieldDefinition -> Z -> option Z -> M ParsedField.

Lemma below_refl {A} (m : M A) : below m m.
Proof. intros s x Hm. exact Hm. Qed.

Lemma below_bind {A B} (m m' : M A) (k k' : A -> M B) :
  below m m' -> (forall a, below (k a) (k' a)) ->
  below (bind m k) (bind m' k').
Proof.
  intros Hm Hk s x. unfold bind.
  destruct (m s) as [[a s1]|] eqn:Hms; [|discriminate].
  rewrite (Hm _ _ Hms). apply Hk.
Qed.

Create HintDb fuel.
#[local] Hint Resolve below_refl : fuel.

Lemma parseChildren_below parse parse' (defs : list FieldDefinition) :
  (forall d o rc, below (parse d o rc) (parse' d o rc)) ->
  forall acc off,
    below (parseChildren this parse defs acc off)
          (parseChildren this parse' defs acc off).
Proof.
  intros Hparse. induction defs as [|d rest IH]; intros acc off;
    cbn [parseChildren]; [auto with fuel|].
  destruct (off >=? fileSize this); [auto with fuel|].
  apply below_bind; auto.
Qed.

Lemma repeatLoop_below parse parse' (d : FieldDefinition) (remaining : nat) :
  (forall d o rc, below (parse d o rc) (parse' d o rc)) ->
  forall i acc off,
    below (repeatLoop this parse d remaining i acc off)
          (repeatLoop this parse' d remaining i acc off).
Proof.
  intros Hparse. induction remaining as [|remaining IH]; intros i acc off;
    cbn [repeatLoop]; [auto with fuel|].
  destruct (off >=? fileSize this); [auto with fuel|].
  apply below_bind; [auto|]. intros r.
  destruct (_ && _); auto with fuel.
Qed.

Lemma parseFieldBody_below parse parse' :
  (forall d o rc, below (parse d o rc) (parse' d o rc)) ->
  forall d o rc,
    below (parseFieldBody this parse d o rc) (parseFieldBody this parse' d o rc).
Proof.
  intros Hparse d o rc. unfold parseFieldBody.
  destruct (_ >=? fileSize this); [auto with fuel|].
  assert (forall off,
            below (parsePrimitive this parse d off rc)
                  (parsePrimitive this parse' d off rc)) as Hprimitive.
  { intros off. unfold parsePrimitive.
    apply below_bind; [auto with fuel|]. intros index. cbv zeta.
    destruct (match getDataTypeSize (def_type d) with
              | Some size => _ | None => false end); [auto with fuel|].
    destruct (_ >? 1).
    - unfold parseRepeatedField.
      apply below_bind; [apply repeatLoop_below; auto | auto with fuel].
    - unfold parseSingle. cbv zeta.
      destruct (def_type d); auto with fuel.
      destruct (def_children d); [|auto with fuel].
      destruct (isNull _); [auto with fuel|].
      apply below_bind; [apply parseChildren_below; auto | auto with fuel]. }
  destruct (def_type d); auto with fuel.
  destruct (truthy (def_substructureRef d)); [|auto].
  unfold parseSubstructure. destruct (find _ _); [|auto with fuel].
  apply below_bind; [apply parseChildren_below; auto | auto with fuel].
Qed.

Lemma parseField_fuel_S (fuel : nat) :
  forall d o rc,
    below (parseField this fuel d o rc) (parseField this (S fuel) d o rc).
Proof.
  induction fuel as [|fuel IH]; intros d o rc.
  - intros s x Hrun. discriminate.
  - rewrite (parseField_S this (S fuel)). rewrite parseField_S.
    apply parseFieldBody_below. exact IH.
Qed.

(** A result obtained with some fuel is the result with any more fuel. *)
Lemma parseField_fuel_mono (fuel fuel' : nat) :
  (fuel <= fuel')%nat ->
  forall d o rc,
    below (parseField this fuel d o rc) (parseField this fuel' d o rc).
Proof.
  induction 1 as [|fuel' Hle IH]; intros d o rc; [apply below_refl|].
  intros s x Hrun. apply parseField_fuel_S. apply IH. exact Hrun.
Qed.

End Fuel.

(** ** Repeated fields *)

Section Repeats.

Context `{P : Platform} (this : BinaryParser).

Implicit Types parse : FieldDefinition -> Z -> option Z -> M ParsedField.

Lemma not_null_and_empty (r : ParsedField) :
  isNull (pf_value r) && (pf_length r =? 0) = false ->
  ~ (pf_value r = VNull /\ pf_length r = 0).
Proof.
  intros Hcond [Hvalue Hlength]. rewrite Hvalue, Hlength in Hcond. discriminate.
Qed.

Lemma repeatLoop_children parse (definition : FieldDefinition) (remaining : nat) :
  forall i acc off s out s',
    repeatLoop this parse definition remaining i acc off s = Some (out, s') ->
    exists new, fst out = acc ++ new /\
      Forall (fun c => ~ (pf_value c = VNull /\ pf_length c = 0)) new.
Proof.
  induction remaining as [|remaining IH]; intros i acc off s out s' Hrun.
  - injection Hrun as <- _. exists []. rewrite app_nil_r. auto.
  - cbn [repeatLoop] in Hrun. destruct (off >=? fileSize this).
    + injection Hrun as <- _. exists []. rewrite app_nil_r. auto.
    + unfold bind in Hrun.
      destruct (parse (itemDef definition i) off (Some 1) s) as [[r s1]|];
        [|discriminate].
      destruct (isNull (pf_value r) && (pf_length r =? 0)) eqn:Hcond.
      * injection Hrun as <- _. exists []. rewrite app_nil_r. auto.
      * apply IH in Hrun as (new & Hout & Hall).
        exists (r :: new). rewrite Hout, <- app_assoc.
        split; [reflexivity|]. constructor; [|exact Hall].
        apply not_null_and_empty. exact Hcond.
Qed.

Lemma itemDef_nesting (depth : nat) (definition : FieldDefinition) (i : Z) :
  nestingWithin this depth (itemDef definition i) =
  nestingWithin this depth definition.
Proof. destruct depth; reflexivity. Qed.

(** C10. In the expansion of a repeated field, an instance that decodes
    to value null with length 0 ends the loop and is not appended. So the
    children of the aggregate never hold a result that is null with length
    0, the value of the aggregate is the list of the values of its
    children, and both have the same length. The expansion returns
    whenever the field nests within a depth the fuel covers and no script
    throws a value whose message cannot be read. *)
Theorem repeated_children_never_null_and_empty (fuel : nat)
    (definition : FieldDefinition) (offset count : Z) (st : State) :
  (forall remaining i children currentOffset s item s1,
     currentOffset < fileSize this ->
     parseField this fuel (itemDef definition i) currentOffset (Some 1) s
       = Some (item, s1) ->
     pf_value item = VNull -> pf_length item = 0 ->
     repeatLoop this (parseField this fuel) definition (S remaining) i
       children currentOffset s
     = Some ((children, currentOffset), s1)) /\
  (forall r st',
     parseRepeatedField this (parseField this fuel) definition offset count st
       = Some (r, st') ->
     exists children,
       pf_children r = Some children /\
       Forall (fun c => ~ (pf_value c = VNull /\ pf_length c = 0)) children /\
       pf_value r = VArray (map pf_value children) /\
       length (map pf_value children) = length children) /\
  (forall depth,
     readableThrows ->
     nestingWithin this depth definition = true ->
     (2 * depth <= fuel)%nat ->
     exists r st',
       parseRepeatedField this (parseField this fuel) definition offset count st
         = Some (r, st')).
Proof.
  split; [|split].
  - intros remaining i children currentOffset s item s1 Hin Hitem Hnull Hempty.
    cbn [repeatLoop].
    destruct (Z.geb_spec currentOffset (fileSize this)); [lia|].
    unfold bind. rewrite Hitem, Hnull, Hempty. reflexivity.
  - intros r st'. unfold parseRepeatedField, bind.
    destruct (repeatLoop _ _ _ _ _ _ _ _) as [[[cs currentOffset] s1]|] eqn:Hloop;
      [|discriminate].
    intros [= <- _].
    apply repeatLoop_children in Hloop as (new & Hout & Hall).
    simpl in Hout. subst cs.
    exists new. repeat split; [exact Hall | apply length_map].
  - intros depth Hreadable Hnest Hfuel.
    destruct (parseRepeatedField_returns this (parseField this fuel)
                definition offset count) with (s := st) as [[r st'] Hrun].
    + intros i o.
      apply (parseField_returns this depth Hreadable); [|exact Hfuel].
      rewrite itemDef_nesting. exact Hnest.
    + exists r, st'. exact Hrun.
Qed.

Lemma itemDef_properties (definition : FieldDefinition) (i : Z) :
  def_id (itemDef definition i)
    = def_id definition +:+ "[" +:+ numberToString i +:+ "]" /\
  def_repeats (itemDef definition i) = def_repeats definition /\
  def_repeatRef (itemDef definition i) = def_repeatRef definition.
Proof. repeat split. Qed.

End Repeats.

Lemma repeated_children_never_null_and_empty_witness :
  let this := parserOf [x12; x34; x56; x78] [] in
  let definition := withRepeats 2 (field "f1" uint16) in
  @readableThrows plainPlatform /\
  nestingWithin this 1 definition = true /\
  exists r st',
    parseRepeatedField this (parseField this 2) definition 0 2 freshState
      = Some (r, st').
Proof.
  split; [exact plain_scripts_readable|]. split; [reflexivity|].
  apply (proj2 (proj2 (@repeated_children_never_null_and_empty plainPlatform
                         (parserOf [x12; x34; x56; x78] []) 2
                         (withRepeats 2 (field "f1" uint16)) 0 2 freshState))
           1%nat);
    [exact plain_scripts_readable | reflexivity | lia].
Defined.

(** C2 on the repeated field of the repository's test
    ([{ id: 'f1', type: 'uint16', repeats: 2 }] over 12 34 56 78): the
    descriptors of the two instances have the synthetic ids, and they
    still carry [repeats: 2]. The comment in the source announces the
    removal of the repeat properties; the rest pattern has no property
    named before it, so nothing is removed. *)
Lemma repeated_instances_keep_repeats :
  let this := parserOf [x12; x34; x56; x78] [] in
  let definition := withRepeats 2 (field "f1" uint16) in
  map (fun r =>
         map (fun c => (def_id (pf_definition c), def_repeats (pf_definition c)))
           <$> pf_children r) <$>
    decode this 2 [definition] freshState
  = Some [Some [("f1[0]", Some 2); ("f1[1]", Some 2)]] /\
  def_repeats (itemDef definition 0) = Some 2 /\
  def_repeats (itemDef definition 0) <> None.
Proof. vm_compute. repeat split; congruence. Qed.

(** ** The scope of references inside a substructure *)

Section Scope.

Context `{P : Platform} (this : BinaryParser).

Implicit Types parse : FieldDefinition -> Z -> option Z -> M ParsedField.

Lemma keepsIndex_ret {A} (a : A) : keepsIndex (ret a).
Proof. intros s a' s' [= _ <-]. reflexivity. Qed.

Lemma keepsIndex_bind {A B} (m : M A) (k : A -> M B) :
  keepsIndex m -> (forall a, keepsIndex (k a)) -> keepsIndex (bind m k).
Proof.
  intros Hm Hk s b s' Hrun. unfold bind in Hrun.
  destruct (m s) as [[a s1]|] eqn:Hms; [|discriminate].
  rewrite (Hk a _ _ _ Hrun). eapply Hm. exact Hms.
Qed.

Lemma keepsIndex_getIndex : keepsIndex getIndex.
Proof. intros s a s' [= _ <-]. reflexivity. Qed.

Create HintDb index.
#[local] Hint Resolve keepsIndex_ret keepsIndex_getIndex : index.

Lemma parseScriptField_keepsIndex (d : FieldDefinition) (off : Z) :
  readOnlyScripts -> keepsIndex (parseScriptField this d off).
Proof.
  intros Hro s r s' Hrun. apply parseScriptField_state in Hrun.
  destruct (truthy (def_script d)); cbv zeta in Hrun; rewrite Hrun;
    [|reflexivity].
  apply Hro.
Qed.

Lemma parseChildren_keepsIndex parse (defs : list FieldDefinition) :
  (forall d o rc, keepsIndex (parse d o rc)) ->
  forall acc off, keepsIndex (parseChildren this parse defs acc off).
Proof.
  intros Hparse. induction defs as [|d rest IH]; intros acc off;
    cbn [parseChildren]; [auto with index|].
  destruct (off >=? fileSize this); [auto with index|].
  apply keepsIndex_bind; auto.
Qed.

Lemma repeatLoop_keepsIndex parse (d : FieldDefinition) (remaining : nat) :
  (forall d o rc, keepsIndex (parse d o rc)) ->
  forall i acc off, keepsIndex (repeatLoop this parse d remaining i acc off).
Proof.
  intros Hparse. induction remaining as [|remaining IH]; intros i acc off;
    cbn [repeatLoop]; [auto with index|].
  destruct (off >=? fileSize this); [auto with index|].
  apply keepsIndex_bind; [auto|]. intros r.
  destruct (_ && _); auto with index.
Qed.

Lemma parseSubstructure_keepsIndex parse (d : FieldDefinition) (off : Z) :
  (forall d o rc, keepsIndex (parse d o rc)) ->
  keepsIndex (parseSubstructure this parse d off).
Proof.
  intros Hparse. unfold parseSubstructure.
  destruct (find _ _); [|auto with index].
  apply keepsIndex_bind; [apply parseChildren_keepsIndex; auto|].
  intros [cs childOffset]. auto with index.
Qed.

Lemma parsePrimitive_keepsIndex parse (d : FieldDefinition) (off : Z)
    (rc : option Z) :
  (forall d o rc, keepsIndex (parse d o rc)) ->
  keepsIndex (parsePrimitive this parse d off rc).
Proof.
  intros Hparse. unfold parsePrimitive.
  apply keepsIndex_bind; [auto with index|]. intros index. cbv zeta.
  destruct (match getDataTypeSize (def_type d) with
            | Some size => _ | None => false end); [auto with index|].
  destruct (_ >? 1).
  - unfold parseRepeatedField.
    apply keepsIndex_bind; [apply repeatLoop_keepsIndex; auto|].
    intros [cs currentOffset]. auto with index.
  - unfold parseSingle. cbv zeta.
    destruct (def_type d); auto with index.
    destruct (def_children d); [|auto with index].
    destruct (isNull _); [auto with index|].
    apply keepsIndex_bind; [apply parseChildren_keepsIndex; auto|].
    intros [cs childOffset]. auto with index.
Qed.

Lemma parseField_keepsIndex (fuel : nat) :
  readOnlyScripts ->
  forall d o rc, keepsIndex (parseField this fuel d o rc).
Proof.
  intros Hro. induction fuel as [|fuel IH]; intros d o rc.
  - intros s r s' Hrun. discriminate.
  - rewrite parseField_S. unfold parseFieldBody.
    destruct (_ >=? fileSize this); [auto with index|].
    destruct (def_type d); try (apply parsePrimitive_keepsIndex; exact IH).
    + destruct (truthy (def_substructureRef d)).
      * apply parseSubstructure_keepsIndex. exact IH.
      * apply parsePrimitive_keepsIndex. exact IH.
    + apply parseScriptField_keepsIndex. exact Hro.
Qed.

(** A struct field with a non-empty [substructureRef], inside the source,
    is handed to [parseSubstructure] at its resolved offset. *)
Lemma parseField_substructure (fuel : nat) (d : FieldDefinition) (off : Z)
    (rc : option Z) (st : State) :
  def_type d = struct ->
  is_Some (truthy (def_substructureRef d)) ->
  resolvedOffset d off < fileSize this ->
  parseField this (S fuel) d off rc st =
  parseSubstructure this (parseField this fuel) d (resolvedOffset d off) st.
Proof.
  intros Htype [ref Href] Hin. rewrite parseField_S. unfold parseFieldBody.
  fold (resolvedOffset d off).
  destruct (Z.geb_spec (resolvedOffset d off) (fileSize this)); [lia|].
  rewrite Htype, Href. reflexivity.
Qed.

(** Every child of the loop was decoded from a state with the index of
    the state the loop started in. *)
Lemma parseChildren_under_index parse (defs : list FieldDefinition) :
  (forall d o rc, keepsIndex (parse d o rc)) ->
  forall acc off s out s',
    parseChildren this parse defs acc off s = Some (out, s') ->
    exists new, fst out = acc ++ new /\
      Forall (fun c =>
                exists childDef o s0 s1,
                  parsedFields s0 = parsedFields s /\
                  parse childDef o None s0 = Some (c, s1)) new.
Proof.
  intros Hparse. induction defs as [|d rest IH]; intros acc off s out s' Hrun.
  - injection Hrun as <- _. exists []. rewrite app_nil_r. auto.
  - cbn [parseChildren] in Hrun. destruct (off >=? fileSize this).
    + injection Hrun as <- _. exists []. rewrite app_nil_r. auto.
    + unfold bind in Hrun.
      destruct (parse d off None s) as [[r s1]|] eqn:Hd; [|discriminate].
      apply IH in Hrun as (new & Hout & Hall).
      exists (r :: new). rewrite Hout, <- app_assoc. split; [reflexivity|].
      constructor.
      * exists d, off, s, s1. auto.
      * eapply Forall_impl; [exact Hall|].
        intros c (childDef & o & s0 & s2 & Hidx & Hc).
        exists childDef, o, s0, s2. split; [|exact Hc].
        rewrite Hidx. eapply Hparse. exact Hd.
Qed.

(** The length of a primitive result is the requested length, resolved in
    the index of the state the field was decoded in. *)
Lemma parseFieldBody_length parse (d : FieldDefinition) (o : Z)
    (rc : option Z) (s : State) (c : ParsedField) (s' : State) :
  parseFieldBody this parse d o rc s = Some (c, s') ->
  def_type d <> script -> def_type d <> struct ->
  pf_children c = None -> pf_offset c < fileSize this ->
  pf_length c = getFieldLength (parsedFields s) d.
Proof.
  unfold parseFieldBody. intros Hrun Hscript Hstruct Hleaf Hin.
  destruct (Z.geb_spec (match def_offset d with Some f => f | None => o end)
              (fileSize this)).
  { injection Hrun as <- _. simpl in Hin. lia. }
  rewrite parseFieldBody_dispatch_primitive in Hrun by assumption.
  unfold parsePrimitive, bind, getIndex in Hrun. cbv zeta in Hrun.
  destruct (match getDataTypeSize (def_type d) with
            | Some size => _ | None => false end).
  { injection Hrun as <- _. reflexivity. }
  destruct (_ >? 1).
  - unfold parseRepeatedField, bind in Hrun.
    destruct (repeatLoop _ _ _ _ _ _ _ _) as [[[cs cur] s1]|]; [|discriminate].
    injection Hrun as <- _. discriminate.
  - unfold parseSingle in Hrun. cbv zeta in Hrun.
    destruct (def_type d); try congruence; injection Hrun as <- _; reflexivity.
Qed.

(** C1, as amended. The parser has one reference index, written by the
    top-level driver only; a substructure is decoded against it as it
    stands. With scripts that do not write to the map: decoding a
    substructure leaves the index as it was, every field of the template
    is decoded from a state that holds the index of the enclosing level,
    and the length of a primitive child is resolved in that index. So a
    [lengthRef] or [repeatRef] inside a substructure resolves to the
    top-level fields decoded before the struct field, and never to a
    sibling decoded within the substructure. *)
Theorem substructure_resolves_in_enclosing_index (fuel : nat)
    (definition : FieldDefinition) (offset : Z)
    (st : State) (r : ParsedField) (st' : State) :
  readOnlyScripts ->
  parseSubstructure this (parseField this fuel) definition offset st
    = Some (r, st') ->
  parsedFields st' = parsedFields st /\
  (forall children,
     pf_children r = Some children ->
     Forall (fun c =>
               (exists childDef o s0 s1,
                  parsedFields s0 = parsedFields st /\
                  parseField this fuel childDef o None s0 = Some (c, s1)) /\
               (def_type (pf_definition c) <> script ->
                def_type (pf_definition c) <> struct ->
                pf_children c = None ->
                pf_offset c < fileSize this ->
                pf_length c = getFieldLength (parsedFields st) (pf_definition c)))
       children).
Proof.
  intros Hro Hrun. split.
  - eapply parseSubstructure_keepsIndex; [|exact Hrun].
    apply parseField_keepsIndex. exact Hro.
  - intros children Hchildren. unfold parseSubstructure in Hrun.
    destruct (find _ _) as [substructure|];
      [|injection Hrun as <- _; discriminate].
    unfold bind in Hrun.
    destruct (parseChildren _ _ _ _ _ _) as [[[cs childOffset] s1]|] eqn:Hloop;
      [|discriminate].
    injection Hrun as <- _. injection Hchildren as <-.
    apply parseChildren_under_index in Hloop as (new & Hout & Hall);
      [|apply parseField_keepsIndex; exact Hro].
    simpl in Hout. subst cs.
    eapply Forall_impl; [exact Hall|].
    intros c (childDef & o & s0 & s2 & Hidx & Hc).
    split; [eauto 10|].
    destruct (parseField_sound this fuel childDef o None s0 c s2 I Hc)
      as (Hdef & _ & _).
    rewrite Hdef, <- Hidx. intros Hscript Hstruct Hleaf Hin.
    destruct fuel as [|fuel]; [discriminate|].
    eapply parseFieldBody_length; eauto.
Qed.

End Scope.

Lemma plain_scripts_read_only : @readOnlyScripts plainPlatform.
Proof. intros code data size offset index w. reflexivity. Qed.

Lemma substructure_resolves_in_enclosing_index_witness :
  let template :=
    mkSubstructureTemplate "sub1" "Sub" None
      [field "innerLen" uint8; withLengthRef "outerLen" (field "b" string_)] in
  let this := parserOf [x03; x02; x41; x42; x43] [template] in
  let st := @mkState plainPlatform
              {[ "outerLen" :=
                   mkParsedField (field "outerLen" uint8) (VNumber 3) [x03]
                     0 1 None ]} tt in
  exists r st',
    parseSubstructure this (parseField this 1)
      (withSubstructureRef "sub1" (field "s" struct)) 1 st = Some (r, st') /\
    parsedFields st' = parsedFields st.
Proof.
  intros template this st.
  destruct (parseSubstructure this (parseField this 1)
              (withSubstructureRef "sub1" (field "s" struct)) 1 st)
    as [[r st']|] eqn:Hrun; [|vm_compute in Hrun; discriminate].
  exists r, st'. split; [reflexivity|].
  exact (proj1 (@substructure_resolves_in_enclosing_index plainPlatform
                  this 1 _ 1 st r st' plain_scripts_read_only Hrun)).
Defined.

(** C1, as stated, fails. The top level decodes [outerLen] = 3 and then a
    struct whose template is [innerLen; a (lengthRef innerLen);
    b (lengthRef outerLen)], over 03 | 02 41 42 43 44 45. With a scope of
    its own, [a] would take its length 2 from its sibling and [b] would
    fall back to 1. The parser gives [a] the fallback length 1, its sibling
    not being in the index, and gives [b] the length 3 of the outer
    field. *)
Lemma substructure_reads_outer_scope :
  let template :=
    mkSubstructureTemplate "sub1" "Sub" None
      [field "innerLen" uint8;
       withLengthRef "innerLen" (field "a" string_);
       withLengthRef "outerLen" (field "b" string_)] in
  let this := parserOf [x03; x02; x41; x42; x43; x44; x45] [template] in
  let fields :=
    [field "outerLen" uint8; withSubstructureRef "sub1" (field "s" struct)] in
  map (fun r => (summary r, map summary <$> pf_children r)) <$>
    decode this 2 fields freshState
  = Some [((VNumber 3, 0, 1), None);
          ((VArray [VNumber 2; VString "A"; VString "BCD"], 1, 5),
           Some [(VNumber 2, 1, 1); (VString "A", 2, 1); (VString "BCD", 3, 3)])].
Proof. vm_compute. reflexivity. Qed.

(** ** Determinism *)

Section Determinism.

Context `{P : Platform} (this : BinaryParser).

Implicit Types parse : FieldDefinition -> Z -> option Z -> M ParsedField.

Lemma worldBlind_ret {A} (a : A) : worldBlind (ret a).
Proof. intros s1 s2 Hidx. simpl. auto. Qed.

Lemma worldBlind_bind {A B} (m : M A) (k : A -> M B) :
  worldBlind m -> (forall a, worldBlind (k a)) -> worldBlind (bind m k).
Proof.
  intros Hm Hk s1 s2 Hidx. specialize (Hm s1 s2 Hidx).
  unfold bind, agree in *.
  destruct (m s1) as [[a1 t1]|], (m s2) as [[a2 t2]|]; try contradiction;
    [|exact I].
  destruct Hm as [-> Ht]. apply Hk. exact Ht.
Qed.

Lemma worldBlind_getIndex : worldBlind getIndex.
Proof. intros s1 s2 Hidx. simpl. auto. Qed.

Lemma worldBlind_setParsedField (id : string) (r : ParsedField) :
  worldBlind (setParsedField id r).
Proof. intros s1 s2 Hidx. simpl. rewrite Hidx. auto. Qed.

Create HintDb blind.
#[local] Hint Resolve worldBlind_ret worldBlind_getIndex
  worldBlind_setParsedField : blind.

Lemma parseScriptField_worldBlind (d : FieldDefinition) (off : Z) :
  deterministicScripts -> worldBlind (parseScriptField this d off).
Proof.
  intros Hdet s1 s2 Hidx. unfold parseScriptField.
  destruct (truthy (def_script d)) as [code|]; [|simpl; auto].
  rewrite Hidx.
  destruct (Hdet code (file this) (fileSize this) off (parsedFields s2)
              (world s1) (world s2)) as [-> ->].
  destruct (run_outcome _) as [m| |[|[v|] [[n|]|]]]; simpl; auto.
  destruct (n <? 0); simpl; auto.
Qed.

Lemma parseChildren_worldBlind parse (defs : list FieldDefinition) :
  (forall d o rc, worldBlind (parse d o rc)) ->
  forall acc off, worldBlind (parseChildren this parse defs acc off).
Proof.
  intros Hparse. induction defs as [|d rest IH]; intros acc off;
    cbn [parseChildren]; [auto with blind|].
  destruct (off >=? fileSize this); [auto with blind|].
  apply worldBlind_bind; auto.
Qed.

Lemma repeatLoop_worldBlind parse (d : FieldDefinition) (remaining : nat) :
  (forall d o rc, worldBlind (parse d o rc)) ->
  forall i acc off, worldBlind (repeatLoop this parse d remaining i acc off).
Proof.
  intros Hparse. induction remaining as [|remaining IH]; intros i acc off;
    cbn [repeatLoop]; [auto with blind|].
  destruct (off >=? fileSize this); [auto with blind|].
  apply worldBlind_bind; [auto|]. intros r.
  destruct (_ && _); auto with blind.
Qed.

Lemma parseSubstructure_worldBlind parse (d : FieldDefinition) (off : Z) :
  (forall d o rc, worldBlind (parse d o rc)) ->
  worldBlind (parseSubstructure this parse d off).
Proof.
  intros Hparse. unfold parseSubstructure.
  destruct (find _ _); [|auto with blind].
  apply worldBlind_bind; [apply parseChildren_worldBlind; auto|].
  intros [cs childOffset]. auto with blind.
Qed.

Lemma parsePrimitive_worldBlind parse (d : FieldDefinition) (off : Z)
    (rc : option Z) :
  (forall d o rc, worldBlind (parse d o rc)) ->
  worldBlind (parsePrimitive this parse d off rc).
Proof.
  intros Hparse. unfold parsePrimitive.
  apply worldBlind_bind; [auto with blind|]. intros index. cbv zeta.
  destruct (match getDataTypeSize (def_type d) with
            | Some size => _ | None => false end); [auto with blind|].
  destruct (_ >? 1).
  - unfold parseRepeatedField.
    apply worldBlind_bind; [apply repeatLoop_worldBlind; auto|].
    intros [cs currentOffset]. auto with blind.
  - unfold parseSingle. cbv zeta.
    destruct (def_type d); auto with blind.
    destruct (def_children d); [|auto with blind].
    destruct (isNull _); [auto with blind|].
    apply worldBlind_bind; [apply parseChildren_worldBlind; auto|].
    intros [cs childOffset]. auto with blind.
Qed.

Lemma parseField_worldBlind (fuel : nat) :
  deterministicScripts ->
  forall d o rc, worldBlind (parseField this fuel d o rc).
Proof.
  intros Hdet. induction fuel as [|fuel IH]; intros d o rc.
  - intros s1 s2 _. exact I.
  - rewrite parseField_S. unfold parseFieldBody.
    destruct (_ >=? fileSize this); [auto with blind|].
    destruct (def_type d); try (apply parsePrimitive_worldBlind; exact IH).
    + destruct (truthy (def_substructureRef d)).
      * apply parseSubstructure_worldBlind. exact IH.
      * apply parsePrimitive_worldBlind. exact IH.
    + apply parseScriptField_worldBlind. exact Hdet.
Qed.

Lemma structureLoop_worldBlind parse (fields : list FieldDefinition) :
  (forall d o rc, worldBlind (parse d o rc)) ->
  forall results off, worldBlind (structureLoop this parse fields results off).
Proof.
  intros Hparse. induction fields as [|d rest IH]; intros results off;
    cbn [structureLoop]; [auto with blind|].
  apply worldBlind_bind; [auto|]. intros r.
  apply worldBlind_bind; [auto with blind|]. intros _.
  destruct (_ >=? fileSize this); auto with blind.
Qed.

Lemma parseStructure_agree (fuel : nat) (fields : list FieldDefinition)
    (st1 st2 : State) :
  deterministicScripts ->
  agree (parseStructure this fuel fields st1)
        (parseStructure this fuel fields st2).
Proof.
  intros Hdet. unfold parseStructure, bind, clearParsedFields.
  apply structureLoop_worldBlind; [|reflexivity].
  apply parseField_worldBlind. exact Hdet.
Qed.

(** C8, as amended. When the outcome of a script and its effect on the
    map depend on the arguments of the call alone, decoding is
    deterministic: from any two states of the parser and of the page, the
    same structure over the same source decodes to the same tree (or fails
    to return in both); in particular a second run, from the state the
    first run left behind, returns the tree of the first. *)
Theorem decoding_is_deterministic (fuel : nat)
    (fields : list FieldDefinition) :
  deterministicScripts ->
  (forall st1 st2,
     decode this fuel fields st1 = decode this fuel fields st2) /\
  (forall st rs st',
     parseStructure this fuel fields st = Some (rs, st') ->
     exists st'', parseStructure this fuel fields st' = Some (rs, st'')).
Proof.
  intros Hdet. split.
  - intros st1 st2. unfold decode.
    pose proof (parseStructure_agree fuel fields st1 st2 Hdet) as Hagree.
    unfold agree in Hagree.
    destruct (parseStructure this fuel fields st1) as [[rs1 t1]|],
             (parseStructure this fuel fields st2) as [[rs2 t2]|];
      try contradiction; [|reflexivity].
    destruct Hagree as [-> _]. reflexivity.
  - intros st rs st' Hrun.
    pose proof (parseStructure_agree fuel fields st st' Hdet) as Hagree.
    unfold agree in Hagree. rewrite Hrun in Hagree.
    destruct (parseStructure this fuel fields st') as [[rs2 t2]|];
      [|contradiction].
    destruct Hagree as [-> _]. eauto.
Qed.

End Determinism.

Lemma plain_scripts_deterministic : @deterministicScripts plainPlatform.
Proof. intros code data size offset index w1 w2. split; reflexivity. Qed.

Lemma decoding_is_deterministic_witness :
  let this := parserOf [x01; x12; x34] [] in
  let fields := [withScript "return {" (field "s" script); field "n" uint8] in
  let used :=
    @mkState plainPlatform
      {[ "n" := mkParsedField (field "n" uint8) (VNumber 7) [x07] 0 1 None ]}
      tt in
  decode this 1 fields freshState = decode this 1 fields used.
Proof.
  intros this fields used.
  exact (proj1 (@decoding_is_deterministic plainPlatform this 1 fields
                  plain_scripts_deterministic) freshState used).
Defined.

(** C8, as stated, fails. A script field whose script counts its own
    calls in the page,
    [globalThis.n = (globalThis.n || 0) + 1;
     return { value: globalThis.n, length: 0 };],
    decodes to 1 on the first run and to 2 on the second, over the same
    structure and the same bytes. *)
Lemma decoding_twice_differs_with_stateful_script :
  let this := parserOf [x2a] [] in
  let code :=
    "globalThis.n = (globalThis.n || 0) + 1; return { value: globalThis.n, length: 0 };" in
  let fields := [withScript code (field "count" script)] in
  exists rs1 st1 rs2 st2,
    @parseStructure counterPlatform this 1 fields
      (@mkState counterPlatform ∅ 0) = Some (rs1, st1) /\
    @parseStructure counterPlatform this 1 fields st1 = Some (rs2, st2) /\
    map pf_value rs1 = [VNumber 1] /\
    map pf_value rs2 = [VNumber 2] /\
    rs1 <> rs2.
Proof.
  do 4 eexists. split; [vm_compute; reflexivity|].
  split; [vm_compute; reflexivity|].
  split; [reflexivity|]. split; [reflexivity|]. congruence.
Qed.

(** * Further properties of the decoder *)

(** ** parseValue on integers *)

Section Integers.

Context `{P : Platform}.

Lemma byteValue_range (b : byte) : 0 <= byteValue b < 256.
Proof.
  unfold byteValue. pose proof (Byte.to_N_bounded b). lia.
Qed.

Lemma byteValue_inj (a b : byte) : byteValue a = byteValue b -> a = b.
Proof.
  unfold byteValue. intros Heq. apply N2Z.inj in Heq.
  pose proof (Byte.of_to_N a) as Ha. pose proof (Byte.of_to_N b) as Hb.
  rewrite Heq in Ha. congruence.
Qed.

Lemma bigEndian_acc (acc : Z) (bs : list byte) :
  bigEndian acc bs = acc * 256 ^ Z.of_nat (length bs) + bigEndian 0 bs.
Proof.
  revert acc. induction bs as [|b rest IH]; intros acc.
  - simpl. lia.
  - cbn [bigEndian]. rewrite IH, (IH (0 * 256 + byteValue b)).
    rewrite length_cons, Nat2Z.inj_succ, Z.pow_succ_r by lia. ring.
Qed.

Lemma bigEndian_range (bs : list byte) :
  0 <= bigEndian 0 bs < 256 ^ Z.of_nat (length bs).
Proof.
  induction bs as [|b rest IH].
  - simpl. lia.
  - cbn [bigEndian]. rewrite bigEndian_acc.
    rewrite length_cons, Nat2Z.inj_succ, Z.pow_succ_r by lia.
    pose proof (byteValue_range b). nia.
Qed.

Lemma bigEndian_inj (xs ys : list byte) :
  length xs = length ys -> bigEndian 0 xs = bigEndian 0 ys -> xs = ys.
Proof.
  revert ys. induction xs as [|x xs IH]; intros [|y ys] Hlen Heq;
    try discriminate; [reflexivity|].
  injection Hlen as Hlen. cbn [bigEndian] in Heq.
  rewrite (bigEndian_acc (0 * 256 + byteValue x)),
          (bigEndian_acc (0 * 256 + byteValue y)), Hlen in Heq.
  pose proof (bigEndian_range xs) as Hx. pose proof (bigEndian_range ys) as Hy.
  rewrite Hlen in Hx.
  pose proof (byteValue_range x). pose proof (byteValue_range y).
  assert (byteValue x = byteValue y) as Hb by nia.
  f_equal; [apply byteValue_inj; exact Hb|].
  apply IH; [exact Hlen|]. rewrite Hb in Heq. lia.
Qed.

Lemma getUint_range (size : nat) (data : list byte) (littleEndian : bool) :
  0 <= getUint size data littleEndian < 256 ^ Z.of_nat size.
Proof.
  unfold getUint.
  set (window := if littleEndian then rev (take size data) else take size data).
  assert (length window <= size)%nat as Hlen.
  { unfold window. destruct littleEndian; rewrite ?length_rev, length_take; lia. }
  pose proof (bigEndian_range window) as Hrange.
  assert (256 ^ Z.of_nat (length window) <= 256 ^ Z.of_nat size)
    by (apply Z.pow_le_mono_r; lia).
  lia.
Qed.

(** The signed reading is the unsigned one, wrapped at the sign bit. *)
Lemma getInt_wrap (size : nat) (data : list byte) (littleEndian : bool) :
  getInt size data littleEndian = getUint size data littleEndian \/
  getInt size data littleEndian =
    getUint size data littleEndian - 2 ^ (8 * Z.of_nat size).
Proof. unfold getInt. destruct (_ <? _); auto. Qed.

Lemma getUint_bits (size : nat) (data : list byte) (littleEndian : bool) :
  0 <= getUint size data littleEndian < 2 ^ (8 * Z.of_nat size).
Proof.
  pose proof (getUint_range size data littleEndian) as Hrange.
  rewrite Z.pow_mul_r by lia. exact Hrange.
Qed.

Lemma getInt_bits (size : nat) (data : list byte) (littleEndian : bool) :
  (0 < size)%nat ->
  - 2 ^ (8 * Z.of_nat size - 1) <= getInt size data littleEndian
    < 2 ^ (8 * Z.of_nat size - 1).
Proof.
  intros Hsize. pose proof (getUint_bits size data littleEndian) as Hrange.
  unfold getInt.
  replace (2 ^ (8 * Z.of_nat size)) with (2 * 2 ^ (8 * Z.of_nat size - 1)) in *
    by (rewrite <- Z.pow_succ_r by lia; f_equal; lia).
  destruct (Z.ltb_spec (getUint size data littleEndian)
              (2 ^ (8 * Z.of_nat size - 1))); lia.
Qed.

(** X1. An integer field that decodes yields an integer of its kind: an
    unsigned one of [w] bits lies in [0, 2^w), a signed one in
    [-2^(w-1), 2^(w-1)), whatever the bytes and the byte order. *)
Theorem parseValue_integer_in_range (definition : FieldDefinition)
    (data : list byte) (value : FieldValue) (lo hi : Z) :
  integerRange (def_type definition) = Some (lo, hi) ->
  parseValue definition data = Some value ->
  exists n, integerOf value = Some n /\ lo <= n < hi.
Proof.
  unfold parseValue. intros Hrange.
  destruct (match getDataTypeSize (def_type definition) with
            | Some size => _ | None => false end); [discriminate|].
  set (e := match def_endianness definition with little => true | big => false end).
  destruct (def_type definition); try discriminate;
    injection Hrange as <- <-; intros [= <-]; eexists;
    (split; [reflexivity|]).
  - exact (getUint_bits 1 data e).
  - exact (getUint_bits 2 data e).
  - exact (getUint_bits 4 data e).
  - exact (getUint_bits 8 data e).
  - exact (getInt_bits 1 data e ltac:(lia)).
  - exact (getInt_bits 2 data e ltac:(lia)).
  - exact (getInt_bits 4 data e ltac:(lia)).
  - exact (getInt_bits 8 data e ltac:(lia)).
Qed.

End Integers.

Lemma parseValue_integer_in_range_witness :
  let definition := field "n" int16 in
  integerRange (def_type definition) = Some (- 2 ^ 15, 2 ^ 15) /\
  @parseValue plainPlatform definition [xff; xfe] = Some (VNumber (-2)) /\
  exists n, integerOf (VNumber (-2)) = Some n /\ - 2 ^ 15 <= n < 2 ^ 15.
Proof.
  split; [reflexivity|]. split; [reflexivity|].
  apply (@parseValue_integer_in_range plainPlatform (field "n" int16)
           [xff; xfe] (VNumber (-2)) (- 2 ^ 15) (2 ^ 15));
    reflexivity.
Defined.

Section ByteOrder.

Context `{P : Platform}.

Lemma getUint_exact (size : nat) (data : list byte) (littleEndian : bool) :
  length data = size ->
  getUint size data littleEndian =
  bigEndian 0 (if littleEndian then rev data else data).
Proof.
  intros Hlen. unfold getUint. rewrite take_ge by lia. reflexivity.
Qed.

Lemma getUint_reversed (size : nat) (data : list byte) :
  length data = size ->
  getUint size data true = getUint size (rev data) false.
Proof.
  intros Hlen. rewrite !getUint_exact by (rewrite ?length_rev; exact Hlen).
  reflexivity.
Qed.

Lemma getInt_reversed (size : nat) (data : list byte) :
  length data = size ->
  getInt size data true = getInt size (rev data) false.
Proof.
  intros Hlen. unfold getInt. rewrite getUint_reversed by exact Hlen.
  reflexivity.
Qed.

Lemma getUint_inj (size : nat) (xs ys : list byte) (littleEndian : bool) :
  length xs = size -> length ys = size ->
  getUint size xs littleEndian = getUint size ys littleEndian -> xs = ys.
Proof.
  intros Hx Hy. rewrite !getUint_exact by assumption.
  destruct littleEndian; intros Heq.
  - apply bigEndian_inj in Heq; [|rewrite !length_rev; congruence].
    rewrite <- (rev_involutive xs), <- (rev_involutive ys), Heq. reflexivity.
  - apply bigEndian_inj in Heq; [exact Heq | congruence].
Qed.

Lemma getInt_unsigned_eq (size : nat) (xs ys : list byte) (e : bool) :
  (0 < size)%nat ->
  getInt size xs e = getInt size ys e -> getUint size xs e = getUint size ys e.
Proof.
  intros Hsize. unfold getInt.
  pose proof (getUint_bits size xs e) as Hx.
  pose proof (getUint_bits size ys e) as Hy.
  replace (2 ^ (8 * Z.of_nat size)) with (2 * 2 ^ (8 * Z.of_nat size - 1)) in *
    by (rewrite <- Z.pow_succ_r by lia; f_equal; lia).
  destruct (Z.ltb_spec (getUint size xs e) (2 ^ (8 * Z.of_nat size - 1))),
           (Z.ltb_spec (getUint size ys e) (2 ^ (8 * Z.of_nat size - 1))); lia.
Qed.

Lemma getInt_inj (size : nat) (xs ys : list byte) (e : bool) :
  (0 < size)%nat -> length xs = size -> length ys = size ->
  getInt size xs e = getInt size ys e -> xs = ys.
Proof.
  intros Hsize Hx Hy Heq. apply (getUint_inj size xs ys e Hx Hy).
  apply getInt_unsigned_eq; assumption.
Qed.

(** X2. Byte order: an integer field read little-endian from exactly as
    many bytes as its kind takes has the value the same field reads
    big-endian from those bytes reversed. *)
Theorem parseValue_byte_order (littleDef bigDef : FieldDefinition)
    (data : list byte) (size : Z) :
  is_Some (integerRange (def_type littleDef)) ->
  def_type bigDef = def_type littleDef ->
  def_endianness littleDef = little ->
  def_endianness bigDef = big ->
  getDataTypeSize (def_type littleDef) = Some size ->
  Z.of_nat (length data) = size ->
  parseValue littleDef data = parseValue bigDef (rev data).
Proof.
  intros [range Hrange] Htype Hlittle Hbig Hsize Hlen.
  unfold parseValue. rewrite Htype, Hlittle, Hbig, Hsize, length_rev.
  destruct (Z.of_nat (length data) <? size); [reflexivity|].
  destruct (def_type littleDef); try discriminate;
    injection Hsize as <-; do 2 f_equal;
    first [apply getUint_reversed | apply getInt_reversed]; lia.
Qed.

(** X3. No two byte patterns of the right size decode to the same
    integer: on inputs of exactly the size of the kind, the decode of an
    integer field is injective. *)
Theorem parseValue_integer_injective (definition : FieldDefinition)
    (xs ys : list byte) (size : Z) :
  is_Some (integerRange (def_type definition)) ->
  getDataTypeSize (def_type definition) = Some size ->
  Z.of_nat (length xs) = size ->
  Z.of_nat (length ys) = size ->
  parseValue definition xs = parseValue definition ys ->
  xs = ys.
Proof.
  intros [range Hrange] Hsize Hx Hy. unfold parseValue. rewrite Hsize, Hx, Hy.
  rewrite Z.ltb_irrefl.
  set (e := match def_endianness definition with little => true | big => false end).
  destruct (def_type definition); try discriminate;
    injection Hsize as <-; intros [= Heq];
    first [eapply getUint_inj; [| |exact Heq]; lia
          |eapply getInt_inj; [| | |exact Heq]; lia].
Qed.

End ByteOrder.

Lemma parseValue_byte_order_witness :
  @parseValue plainPlatform (withEndianness little (field "n" uint32))
    [x07; x06; x05; x04]
  = @parseValue plainPlatform (field "n" uint32) (rev [x07; x06; x05; x04]).
Proof.
  apply (@parseValue_byte_order plainPlatform
           (withEndianness little (field "n" uint32)) (field "n" uint32)
           [x07; x06; x05; x04] 4);
    try reflexivity.
  eexists. reflexivity.
Defined.

Lemma parseValue_integer_injective_witness :
  @parseValue plainPlatform (field "n" int16) [xff; xfe]
  = @parseValue plainPlatform (field "n" int16) [xff; xfe] /\
  [xff; xfe] = [xff; xfe].
Proof.
  split; [reflexivity|].
  apply (@parseValue_integer_injective plainPlatform (field "n" int16)
           [xff; xfe] [xff; xfe] 2);
    try reflexivity.
  eexists. reflexivity.
Defined.

(** ** Value maps *)

Lemma find_app_first {A} (f : A -> bool) (front : list A) (x : A) (back : list A) :
  Forall (fun a => f a = false) front -> f x = true ->
  find f (front ++ x :: back) = Some x.
Proof.
  intros Hfront Hx. induction Hfront as [|a front Ha _ IH]; simpl.
  - rewrite Hx. reflexivity.
  - rewrite Ha. exact IH.
Qed.

Lemma applyBitDescriptions_text (definition : FieldDefinition) (s : string) :
  applyBitDescriptions definition (VString s) = VString s.
Proof.
  unfold applyBitDescriptions.
  destruct (def_bitDescriptions definition) as [descriptions|]; [|reflexivity].
  destruct (_ =? 0); reflexivity.
Qed.

(** X4. Of the entries of a value map that are strictly equal to the
    decoded value, the first in list order gives the result, and that
    description is final: bit descriptions on the same field do not touch
    it. *)
Theorem valueMap_first_match_is_final (definition : FieldDefinition)
    (value : FieldValue) (front : list ValueMapping) (entry : ValueMapping)
    (back : list ValueMapping) :
  def_valueMap definition = Some (front ++ entry :: back) ->
  Forall (fun m => strictEquals (vm_value m) value = false) front ->
  strictEquals (vm_value entry) value = true ->
  applyValueMapping definition value = VString (vm_description entry) /\
  applyBitDescriptions definition (applyValueMapping definition value)
    = VString (vm_description entry).
Proof.
  intros Hmap Hfront Hentry.
  assert (applyValueMapping definition value = VString (vm_description entry))
    as Hmapped.
  { unfold applyValueMapping. rewrite Hmap.
    assert ((Z.of_nat (length (front ++ entry :: back)) =? 0) = false) as ->.
    { apply Z.eqb_neq. rewrite length_app. simpl. lia. }
    assert (isNull value = false) as ->.
    { destruct value; try reflexivity. destruct (vm_value entry); discriminate. }
    simpl. rewrite (find_app_first _ front entry back Hfront Hentry).
    reflexivity. }
  split; [exact Hmapped|]. rewrite Hmapped. apply applyBitDescriptions_text.
Qed.

Lemma valueMap_first_match_is_final_witness :
  let entry := mkValueMapping (KNumber 1) "first" in
  let definition :=
    mkFieldDefinition "f" "f" uint8 None None big None None None None None
      None None
      (Some [mkValueMapping (KNumber 2) "two"; entry;
             mkValueMapping (KNumber 1) "second"])
      (Some [mkBitDescription 0 "bit0" None]) in
  applyBitDescriptions definition (applyValueMapping definition (VNumber 1))
    = VString "first".
Proof.
  intros entry definition.
  refine (proj2 (valueMap_first_match_is_final definition (VNumber 1)
                   [mkValueMapping (KNumber 2) "two"] entry
                   [mkValueMapping (KNumber 1) "second"] _ _ _));
    [reflexivity | repeat constructor | reflexivity].
Defined.

(** ** Edges of parseField and parseStructure *)

Section Edges.

Context `{P : Platform} (this : BinaryParser).

Lemma parseFieldBody_beyond parse (d : FieldDefinition) (off : Z)
    (rc : option Z) (st : State) :
  fileSize this <= resolvedOffset d off ->
  parseFieldBody this parse d off rc st
    = Some (emptyResult d (resolvedOffset d off), st).
Proof.
  intros Hbeyond. unfold parseFieldBody. fold (resolvedOffset d off).
  destruct (Z.geb_spec (resolvedOffset d off) (fileSize this)); [reflexivity|lia].
Qed.

(** X5. When the first descriptor resolves at or beyond the end of the
    source (an empty source, or a fixed offset past the end), the decode
    returns that one field alone, as the null result of length 0; no
    other descriptor is decoded and no script is run. *)
Theorem first_field_beyond_end (fuel : nat) (d : FieldDefinition)
    (rest : list FieldDefinition) (st : State) :
  fileSize this <= resolvedOffset d 0 ->
  parseStructure this (S fuel) (d :: rest) st =
  Some ([emptyResult d (resolvedOffset d 0)],
        register (def_id d) (emptyResult d (resolvedOffset d 0)) (cleared st)).
Proof.
  intros Hbeyond. unfold parseStructure, bind at 1, clearParsedFields.
  fold (cleared st). cbn [structureLoop]. unfold bind at 1.
  rewrite parseField_S, parseFieldBody_beyond by assumption.
  unfold bind at 1. cbn [setParsedField emptyResult pf_offset pf_length].
  destruct (Z.geb_spec (resolvedOffset d 0 + 0) (fileSize this)); [|lia].
  reflexivity.
Qed.

(** X6. A struct field whose non-empty [substructureRef] names no
    template of the catalog decodes, inside the source, to the null result
    of length 0 without children, the state untouched; the top-level
    driver goes on with the next descriptor at the same offset. *)
Theorem unresolved_substructure_is_skipped (fuel : nat)
    (d : FieldDefinition) (off : Z) (rc : option Z) (st : State) :
  def_type d = struct ->
  is_Some (truthy (def_substructureRef d)) ->
  Forall (fun s => Some (tpl_id s) <> def_substructureRef d)
    (substructures this) ->
  resolvedOffset d off < fileSize this ->
  let skipped := emptyResult d (resolvedOffset d off) in
  parseField this (S fuel) d off rc st = Some (skipped, st) /\
  (forall rest results,
     structureLoop this (parseField this (S fuel)) (d :: rest) results off st =
     structureLoop this (parseField this (S fuel)) rest (results ++ [skipped])
       (resolvedOffset d off) (register (def_id d) skipped st)).
Proof.
  intros Htype Href Hcatalog Hin skipped.
  assert (parseField this (S fuel) d off rc st = Some (skipped, st)) as Hfield.
  { rewrite (parseField_substructure this fuel d off rc st Htype Href Hin).
    unfold parseSubstructure. rewrite find_none_of_all_false; [reflexivity|].
    intros s Hs. rewrite List.Forall_forall in Hcatalog.
    apply bool_decide_eq_false. apply Hcatalog. exact Hs. }
  split; [exact Hfield|].
  intros rest results. cbn [structureLoop]. unfold bind at 1.
  assert (parseField this (S fuel) d off None st = Some (skipped, st)) as ->.
  { rewrite (parseField_substructure this fuel d off None st Htype Href Hin).
    rewrite <- (parseField_substructure this fuel d off rc st Htype Href Hin).
    exact Hfield. }
  unfold bind at 1. cbn [setParsedField].
  assert (pf_offset skipped + pf_length skipped = resolvedOffset d off) as ->
    by (simpl; lia).
  destruct (Z.geb_spec (resolvedOffset d off) (fileSize this)); [lia|].
  reflexivity.
Qed.

End Edges.

Lemma first_field_beyond_end_witness :
  let this := parserOf [] [] in
  decode this 1 [field "a" uint8; field "b" uint8] freshState
  = Some [emptyResult (field "a" uint8) 0].
Proof.
  intros this. unfold decode.
  rewrite (@first_field_beyond_end plainPlatform this 0 (field "a" uint8)
             [field "b" uint8] freshState);
    [reflexivity | vm_compute; congruence].
Defined.

Lemma unresolved_substructure_is_skipped_witness :
  let this := parserOf [x2a] [] in
  let d := withSubstructureRef "missing" (field "s" struct) in
  parseField this 1 d 0 None freshState = Some (emptyResult d 0, freshState).
Proof.
  intros this d.
  apply (@unresolved_substructure_is_skipped plainPlatform this 0 d 0 None
           freshState);
    [reflexivity | eexists; reflexivity | constructor | vm_compute; reflexivity].
Defined.

(** ** Primitive fields *)

Section Primitive.

Context `{P : Platform} (this : BinaryParser).

Lemma parseValue_fixed_size (definition : FieldDefinition) (data : list byte)
    (size : Z) :
  getDataTypeSize (def_type definition) = Some size ->
  size <= Z.of_nat (length data) ->
  exists v, parseValue definition data = Some v /\ v <> VNull.
Proof.
  intros Hsize Hlen. unfold parseValue. rewrite Hsize.
  destruct (Z.ltb_spec (Z.of_nat (length data)) size); [lia|].
  eexists. split; [reflexivity|].
  destruct (def_type definition); discriminate.
Qed.

Lemma applyValueMapping_not_null (definition : FieldDefinition) (v : FieldValue) :
  v <> VNull -> applyValueMapping definition v <> VNull.
Proof.
  intros Hv. unfold applyValueMapping.
  destruct (def_valueMap definition); [|exact Hv].
  destruct (_ || _); [exact Hv|]. destruct (find _ _); [discriminate|exact Hv].
Qed.

Lemma applyBitDescriptions_not_null (definition : FieldDefinition) (v : FieldValue) :
  v <> VNull -> applyBitDescriptions definition v <> VNull.
Proof.
  intros Hv. unfold applyBitDescriptions.
  destruct (def_bitDescriptions definition); [|exact Hv].
  destruct (_ =? 0); [exact Hv|]. destruct v; try exact Hv.
  destruct (_ >? 0); [discriminate|exact Hv].
Qed.

Lemma getDataTypeSize_positive (type : DataType) (size : Z) :
  getDataTypeSize type = Some size -> 0 < size.
Proof. destruct type; simpl; intros [= <-]; lia. Qed.

Lemma readFileSlice_length (bytes : list byte) (start count : Z) :
  0 <= start -> 0 <= count ->
  start + count <= Z.of_nat (length bytes) ->
  Z.of_nat (length (readFileSlice bytes start (start + count))) = count.
Proof.
  intros Hstart Hcount Hfit.
  rewrite readFileSlice_inside by lia.
  rewrite length_take, length_drop. lia.
Qed.

(** X7. For a field of a fixed-size type that is not repeated, decoded
    inside a source whose size is that of its file, a null value means
    insufficient data and nothing else: the value is null exactly when
    fewer bytes than the size of the type can be read, min(requested
    length, bytes left) being that number. Such a result has no
    children and leaves the state as it was. *)
Theorem fixed_size_null_iff_insufficient (fuel : nat)
    (definition : FieldDefinition) (startOffset : Z)
    (repeatCount : option Z) (st : State) (size : Z) :
  getDataTypeSize (def_type definition) = Some size ->
  fileSize this = Z.of_nat (length (file this)) ->
  0 <= resolvedOffset definition startOffset < fileSize this ->
  resolvedRepeatCount (parsedFields st) definition repeatCount <= 1 ->
  let requested := getFieldLength (parsedFields st) definition in
  let left := fileSize this - resolvedOffset definition startOffset in
  exists r,
    parseField this (S fuel) definition startOffset repeatCount st
      = Some (r, st) /\
    pf_children r = None /\
    (pf_value r = VNull <-> Z.min requested left < size).
Proof.
  intros Hsize Hfile Hin Hcount requested left.
  destruct (fixed_size_is_primitive _ _ Hsize) as [Hscript Hstruct].
  pose proof (getDataTypeSize_positive _ _ Hsize) as Hpos.
  rewrite parseField_S. unfold parseFieldBody.
  fold (resolvedOffset definition startOffset).
  destruct (Z.geb_spec (resolvedOffset definition startOffset) (fileSize this));
    [lia|].
  rewrite parseFieldBody_dispatch_primitive by assumption.
  unfold parsePrimitive, bind, getIndex. cbv zeta.
  rewrite Hsize. fold requested. fold left.
  fold (resolvedRepeatCount (parsedFields st) definition repeatCount).
  destruct (Z.ltb_spec (Z.min requested left) size) as [Hshort|Henough].
  { eexists. split; [reflexivity|]. split; [reflexivity|]. simpl. tauto. }
  destruct (Z.gtb_spec
              (resolvedRepeatCount (parsedFields st) definition repeatCount) 1);
    [lia|].
  unfold parseSingle. cbv zeta.
  set (raw := readFileSlice (file this) (resolvedOffset definition startOffset)
                (resolvedOffset definition startOffset + Z.min requested left)).
  assert (Z.of_nat (length raw) = Z.min requested left) as Hraw.
  { unfold raw. apply readFileSlice_length; unfold left in *; lia. }
  destruct (parseValue_fixed_size definition raw size Hsize) as (v & Hv & Hnonnull);
    [lia|].
  rewrite Hv.
  assert (applyBitDescriptions definition (applyValueMapping definition v) <> VNull)
    as Hfinal
    by (apply applyBitDescriptions_not_null, applyValueMapping_not_null, Hnonnull).
  destruct (def_type definition); try congruence;
    (eexists; split; [reflexivity|]; split; [reflexivity|];
     cbn [pf_value]; split; [intros Hnull; contradiction | lia]).
Qed.

(** X8. A field that is neither a struct nor a script has children only
    as a repeated field: with a repeat count of at most 1 the result has
    no children, and a result with children comes from a count above 1
    and has the values of its children as its value. *)
Theorem primitive_children_iff_repeated (fuel : nat)
    (definition : FieldDefinition) (startOffset : Z)
    (repeatCount : option Z) (st : State) (r : ParsedField) (st' : State) :
  def_type definition <> struct ->
  def_type definition <> script ->
  parseField this (S fuel) definition startOffset repeatCount st
    = Some (r, st') ->
  let count := resolvedRepeatCount (parsedFields st) definition repeatCount in
  (count <= 1 -> pf_children r = None) /\
  (forall children,
     pf_children r = Some children ->
     1 < count /\ pf_value r = VArray (map pf_value children)).
Proof.
  intros Hstruct Hscript Hrun count.
  rewrite parseField_S in Hrun. unfold parseFieldBody in Hrun.
  destruct (_ >=? fileSize this).
  { injection Hrun as <- _. split; [reflexivity | discriminate]. }
  rewrite parseFieldBody_dispatch_primitive in Hrun by assumption.
  unfold parsePrimitive, bind, getIndex in Hrun. cbv zeta in Hrun.
  fold (resolvedRepeatCount (parsedFields st) definition repeatCount) in Hrun.
  fold count in Hrun.
  destruct (match getDataTypeSize (def_type definition) with
            | Some size => _ | None => false end).
  { injection Hrun as <- _. split; [reflexivity | discriminate]. }
  destruct (Z.gtb_spec count 1) as [Hmany|Hone].
  - unfold parseRepeatedField, bind in Hrun.
    destruct (repeatLoop _ _ _ _ _ _ _ _) as [[[cs cur] s1]|]; [|discriminate].
    injection Hrun as <- _. split; [lia|].
    intros children [= <-]. split; [lia | reflexivity].
  - unfold parseSingle in Hrun. cbv zeta in Hrun.
    destruct (def_type definition); try congruence;
      injection Hrun as <- _; (split; [reflexivity | discriminate]).
Qed.

End Primitive.

Lemma fixed_size_null_iff_insufficient_witness :
  let this := parserOf [x01; x02; x03; x04; x05] [] in
  exists r,
    parseField this 1 (field "n" uint32) 0 None freshState
      = Some (r, freshState) /\
    pf_children r = None /\
    (pf_value r = VNull <-> Z.min 4 5 < 4).
Proof.
  intros this.
  apply (@fixed_size_null_iff_insufficient plainPlatform this 0
           (field "n" uint32) 0 None freshState 4);
    [reflexivity | reflexivity | vm_compute; split; congruence
    | vm_compute; congruence].
Defined.

Lemma primitive_children_iff_repeated_witness :
  let this := parserOf [x12; x34; x56; x78] [] in
  let definition := withRepeats 2 (field "f1" uint16) in
  exists r st',
    parseField this 2 definition 0 None freshState = Some (r, st') /\
    forall children,
      pf_children r = Some children ->
      1 < 2 /\ pf_value r = VArray (map pf_value children).
Proof.
  intros this definition.
  destruct (parseField this 2 definition 0 None freshState)
    as [[r st']|] eqn:Hrun; [|vm_compute in Hrun; discriminate].
  exists r, st'. split; [reflexivity|].
  exact (proj2 (@primitive_children_iff_repeated plainPlatform this 1
                  definition 0 None freshState r st'
                  ltac:(discriminate) ltac:(discriminate) Hrun)).
Defined.

(** ** Script fields that succeed *)

Section ScriptSuccess.

Context `{P : Platform} (this : BinaryParser).

(** X9. A script that returns an object with [value] and a non-negative
    numeric [length], run inside the source, yields its value as the value
    of the field; the length of the field is min(returned length, bytes
    left), so the field never reaches beyond the end of the source, and
    its raw bytes are the slice of that length at the offset. *)
Theorem script_result_is_clamped (fuel : nat)
    (definition : FieldDefinition) (startOffset : Z)
    (repeatCount : option Z) (st : State) (code : string)
    (value : FieldValue) (n : Z) :
  def_type definition = script ->
  truthy (def_script definition) = Some code ->
  resolvedOffset definition startOffset < fileSize this ->
  run_outcome
    (runScript code (file this) (fileSize this)
       (resolvedOffset definition startOffset) (parsedFields st) (world st))
    = Returned (RObject (Some value) (Some (LNumber n))) ->
  0 <= n ->
  let offset := resolvedOffset definition startOffset in
  exists r st',
    parseField this (S fuel) definition startOffset repeatCount st
      = Some (r, st') /\
    pf_value r = value /\
    pf_offset r = offset /\
    pf_length r = Z.min n (fileSize this - offset) /\
    0 <= pf_length r /\
    pf_offset r + pf_length r <= fileSize this /\
    pf_rawValue r = readFileSlice (file this) offset (offset + pf_length r) /\
    pf_children r = None.
Proof.
  intros Htype Hcode Hin Hrun Hn offset.
  rewrite parseField_S, parseFieldBody_script by assumption.
  unfold parseScriptField. rewrite Hcode. fold offset. fold offset in Hrun.
  rewrite Hrun.
  destruct (Z.ltb_spec n 0); [lia|].
  eexists _, _. split; [reflexivity|].
  cbn [pf_value pf_offset pf_length pf_rawValue pf_children].
  unfold offset in *. repeat split; lia.
Qed.

End ScriptSuccess.

Lemma script_result_is_clamped_witness :
  let this := parserOf [x0a; x0b; x0c] [] in
  let definition := withScript "return { value: offset, length: 4 };"
                      (field "s" script) in
  exists r st',
    @parseField offsetScriptPlatform this 1 definition 1 None
      (@mkState offsetScriptPlatform ∅ tt) = Some (r, st') /\
    pf_value r = VNumber 1 /\
    pf_offset r = 1 /\
    pf_length r = Z.min 4 (3 - 1).
Proof.
  intros this definition.
  destruct (@script_result_is_clamped offsetScriptPlatform this 0 definition 1
              None (@mkState offsetScriptPlatform ∅ tt)
              "return { value: offset, length: 4 };" (VNumber 1) 4)
    as (r & st' & Hrun & Hvalue & Hoffset & Hlength & _);
    [reflexivity | reflexivity | vm_compute; reflexivity | reflexivity | lia |].
  exists r, st'. repeat split; assumption.
Defined.

(** ** The aggregates: substructures and repeats *)

Section Aggregates.

Context `{P : Platform} (this : BinaryParser).

Implicit Types parse : FieldDefinition -> Z -> option Z -> M ParsedField.

Lemma parseChildren_definitions parse (defs : list FieldDefinition) :
  sound parse ->
  forall acc off s out s',
    parseChildren this parse defs acc off s = Some (out, s') ->
    exists new, fst out = acc ++ new /\
      map pf_definition new = take (length new) defs /\
      snd out = endOffset off new.
Proof.
  intros Hsound. induction defs as [|d rest IH]; intros acc off s out s' Hrun.
  - injection Hrun as <- _. exists []. rewrite app_nil_r. auto.
  - cbn [parseChildren] in Hrun. destruct (off >=? fileSize this).
    + injection Hrun as <- _. exists []. rewrite app_nil_r. auto.
    + unfold bind in Hrun.
      destruct (parse d off None s) as [[r s1]|] eqn:Hd; [|discriminate].
      destruct (Hsound d off None s r s1 I Hd) as (Hdef & _ & _).
      apply IH in Hrun as (new & Hout & Hdefs & Hend).
      exists (r :: new). rewrite Hout, <- app_assoc. split; [reflexivity|].
      split; [simpl; rewrite Hdef, Hdefs; reflexivity | exact Hend].
Qed.

Lemma repeatLoop_definitions parse (definition : FieldDefinition)
    (remaining : nat) :
  sound parse ->
  forall i acc off s out s',
    repeatLoop this parse definition remaining i acc off s = Some (out, s') ->
    exists new, fst out = acc ++ new /\
      (length new <= remaining)%nat /\
      map pf_definition new =
        map (fun k => itemDef definition (i + Z.of_nat k)) (seq 0 (length new)) /\
      snd out = endOffset off new.
Proof.
  intros Hsound. induction remaining as [|remaining IH];
    intros i acc off s out s' Hrun.
  - injection Hrun as <- _. exists []. rewrite app_nil_r. simpl. auto.
  - cbn [repeatLoop] in Hrun. destruct (off >=? fileSize this).
    + injection Hrun as <- _. exists []. rewrite app_nil_r.
      simpl. repeat split; lia.
    + unfold bind in Hrun.
      destruct (parse (itemDef definition i) off (Some 1) s)
        as [[r s1]|] eqn:Hd; [|discriminate].
      destruct (Hsound _ off (Some 1) s r s1 I Hd) as (Hdef & _ & _).
      destruct (isNull (pf_value r) && (pf_length r =? 0)).
      * injection Hrun as <- _. exists []. rewrite app_nil_r.
        simpl. repeat split; lia.
      * apply IH in Hrun as (new & Hout & Hlen & Hdefs & Hend).
        exists (r :: new). rewrite Hout, <- app_assoc. split; [reflexivity|].
        split; [simpl; lia|]. split; [|exact Hend].
        simpl. rewrite Hdef, Hdefs, Z.add_0_r. f_equal.
        rewrite <- seq_shift, map_map. apply map_ext. intros k.
        f_equal. lia.
Qed.

(** X10. The result of a substructure whose template is in the catalog:
    its children are the decodes of a prefix of the template's fields, in
    order; its value is the list of their values; its length is the span
    from its offset to where the last child ended, cut at the end of the
    source, so that it never reaches beyond it; its raw bytes are the
    slice of that length at its offset. *)
Theorem substructure_aggregate (fuel : nat) (definition : FieldDefinition)
    (offset : Z) (st : State) (substructure : SubstructureTemplate)
    (r : ParsedField) (st' : State) :
  find (fun s => bool_decide (Some (tpl_id s) = def_substructureRef definition))
    (substructures this) = Some substructure ->
  parseSubstructure this (parseField this fuel) definition offset st
    = Some (r, st') ->
  exists children,
    pf_children r = Some children /\
    map pf_definition children
      = take (length children) (tpl_fields substructure) /\
    pf_value r = VArray (map pf_value children) /\
    pf_length r
      = Z.min (endOffset offset children - offset) (fileSize this - offset) /\
    offset + pf_length r <= fileSize this /\
    pf_rawValue r = readFileSlice (file this) offset (offset + pf_length r).
Proof.
  intros Hfind Hrun. unfold parseSubstructure in Hrun. rewrite Hfind in Hrun.
  unfold bind in Hrun.
  destruct (parseChildren _ _ _ _ _ _) as [[[cs childOffset] s1]|] eqn:Hloop;
    [|discriminate].
  injection Hrun as <- _.
  apply (parseChildren_definitions _ _ (parseField_sound this fuel)) in Hloop
    as (new & Hout & Hdefs & Hend).
  simpl in Hout, Hend. subst cs childOffset.
  exists new. cbn [pf_children pf_value pf_length pf_rawValue].
  repeat split; try assumption. lia.
Qed.

(** X11. The result of a repeated field: it has at most [count] children;
    the k-th child is the decode of the descriptor with the id
    [id[k]], k counting from 0 without gaps; its value is the list of
    their values; its length is the span covered by the children, cut at
    the end of the source. *)
Theorem repeated_aggregate (fuel : nat) (definition : FieldDefinition)
    (offset count : Z) (st : State) (r : ParsedField) (st' : State) :
  parseRepeatedField this (parseField this fuel) definition offset count st
    = Some (r, st') ->
  exists children,
    pf_children r = Some children /\
    (length children <= Z.to_nat count)%nat /\
    map pf_definition children
      = map (fun k => itemDef definition (Z.of_nat k))
          (seq 0 (length children)) /\
    pf_value r = VArray (map pf_value children) /\
    pf_length r
      = Z.min (endOffset offset children - offset) (fileSize this - offset) /\
    offset + pf_length r <= fileSize this.
Proof.
  intros Hrun. unfold parseRepeatedField, bind in Hrun.
  destruct (repeatLoop _ _ _ _ _ _ _ _) as [[[cs cur] s1]|] eqn:Hloop;
    [|discriminate].
  injection Hrun as <- _.
  apply (repeatLoop_definitions _ _ _ (parseField_sound this fuel)) in Hloop
    as (new & Hout & Hlen & Hdefs & Hend).
  simpl in Hout, Hend. subst cs cur.
  exists new. cbn [pf_children pf_value pf_length].
  repeat split; try assumption. lia.
Qed.

End Aggregates.

Lemma substructure_aggregate_witness :
  let sub1 :=
    mkSubstructureTemplate "sub1" "MySub" None
      [field "s_type" uint8; field "s_val" uint16] in
  let this := parserOf [x01; x12; x34] [sub1] in
  let definition := withSubstructureRef "sub1" (field "f1" struct) in
  exists r st',
    parseSubstructure this (parseField this 1) definition 0 freshState
      = Some (r, st') /\
    0 + pf_length r <= fileSize this.
Proof.
  intros sub1 this definition.
  destruct (parseSubstructure this (parseField this 1) definition 0 freshState)
    as [[r st']|] eqn:Hrun; [|vm_compute in Hrun; discriminate].
  exists r, st'. split; [reflexivity|].
  destruct (@substructure_aggregate plainPlatform this 1 definition 0
              freshState sub1 r st' eq_refl Hrun)
    as (children & _ & _ & _ & _ & Hfit & _).
  exact Hfit.
Defined.

Lemma repeated_aggregate_witness :
  let this := parserOf [x12; x34; x56; x78] [] in
  let definition := withRepeats 2 (field "f1" uint16) in
  exists r st' children,
    parseRepeatedField this (parseField this 1) definition 0 2 freshState
      = Some (r, st') /\
    pf_children r = Some children /\
    (length children <= Z.to_nat 2)%nat.
Proof.
  intros this definition.
  destruct (parseRepeatedField this (parseField this 1) definition 0 2 freshState)
    as [[r st']|] eqn:Hrun; [|vm_compute in Hrun; discriminate].
  destruct (@repeated_aggregate plainPlatform this 1 definition 0 2
              freshState r st' Hrun)
    as (children & Hchildren & Hlen & _).
  exists r, st', children. repeat split; assumption.
Defined.

(** ** The top level: what is registered, and where the decode stops *)

Section TopLevel.

Context `{P : Platform} (this : BinaryParser).

Implicit Types parse : FieldDefinition -> Z -> option Z -> M ParsedField.

Lemma indexAfter_cons (start : gmap string ParsedField) (r : ParsedField)
    (rs : list ParsedField) :
  indexAfter start (r :: rs)
  = indexAfter (<[def_id (pf_definition r) := r]> start) rs.
Proof. reflexivity. Qed.

Lemma endOffset_cons (start : Z) (r : ParsedField) (rs : list ParsedField) :
  endOffset start (r :: rs) = endOffset (pf_offset r + pf_length r) rs.
Proof. reflexivity. Qed.

Lemma indexAfter_other (start : gmap string ParsedField)
    (rs : list ParsedField) (id : string) :
  id ∉ map (fun r => def_id (pf_definition r)) rs ->
  indexAfter start rs !! id = start !! id.
Proof.
  revert start. induction rs as [|r rs IH]; intros start Hnotin; [reflexivity|].
  cbn [map] in Hnotin. apply not_elem_of_cons in Hnotin as [Hne Hnotin].
  rewrite indexAfter_cons, IH by exact Hnotin.
  apply lookup_insert_ne. congruence.
Qed.

Lemma driverRun_index parse off st fields rs st' :
  sound parse ->
  (forall d o rc, keepsIndex (parse d o rc)) ->
  driverRun this parse off st fields rs st' ->
  parsedFields st' = indexAfter (parsedFields st) rs /\
  (forall k r,
     rs !! k = Some r ->
     exists d s s',
       fields !! k = Some d /\
       parsedFields s = indexAfter (parsedFields st) (take k rs) /\
       parse d (endOffset off (take k rs)) None s = Some (r, s')).
Proof.
  intros Hsound Hkeeps.
  induction 1 as [off st | off st d rest r st1 Hparse Hend
                 | off st d rest r st1 rs st2 Hparse Hend Hrest IH].
  - split; [reflexivity|]. intros k r Hk. discriminate.
  - destruct (Hsound d off None st r st1 I Hparse) as (Hdef & _ & _).
    pose proof (Hkeeps d off None st r st1 Hparse) as Hidx.
    split.
    + cbn [register parsedFields indexAfter fold_left].
      rewrite Hdef, Hidx. reflexivity.
    + intros [|k] r' Hk; [|discriminate]. injection Hk as <-.
      exists d, st, st1. auto.
  - destruct (Hsound d off None st r st1 I Hparse) as (Hdef & _ & _).
    pose proof (Hkeeps d off None st r st1 Hparse) as Hidx.
    destruct IH as [Hfinal Hsteps].
    cbn [register parsedFields] in Hfinal, Hsteps. rewrite Hidx in Hfinal, Hsteps.
    split.
    + rewrite indexAfter_cons, Hdef. exact Hfinal.
    + intros [|k] r' Hk.
      * injection Hk as <-. exists d, st, st1. auto.
      * destruct (Hsteps k r' Hk) as (d' & s & s' & Hd' & Hs & Hrun).
        exists d', s, s'. split; [exact Hd'|].
        cbn [take]. rewrite indexAfter_cons, endOffset_cons, Hdef.
        auto.
Qed.

(** X12. With scripts that do not write to the map, the reference index
    is exactly what the driver registers: every top-level field is decoded
    against the index holding the results before it, each under the id of
    its descriptor, a later one replacing an earlier one of the same id;
    after the decode the index holds all the results in that way. When
    the ids of the descriptors are distinct, every result is found under
    its id. *)
Theorem top_level_results_are_indexed (fuel : nat)
    (fields : list FieldDefinition) (st : State)
    (rs : list ParsedField) (st' : State) :
  readOnlyScripts ->
  parseStructure this fuel fields st = Some (rs, st') ->
  parsedFields st' = indexAfter ∅ rs /\
  (forall k r,
     rs !! k = Some r ->
     exists d s s',
       fields !! k = Some d /\
       parsedFields s = indexAfter ∅ (take k rs) /\
       parseField this fuel d (endOffset 0 (take k rs)) None s = Some (r, s')) /\
  (NoDup (map def_id fields) ->
   forall k r,
     rs !! k = Some r ->
     parsedFields st' !! def_id (pf_definition r) = Some r).
Proof.
  intros Hro Hrun. apply parseStructure_driverRun in Hrun.
  pose proof (driverRun_chained this _ _ _ _ _ _ (parseField_sound this fuel)
                Hrun) as (_ & _ & Hdefs).
  apply driverRun_index in Hrun as [Hfinal Hsteps];
    [|apply parseField_sound | apply parseField_keepsIndex; exact Hro].
  cbn [cleared parsedFields] in Hfinal, Hsteps.
  split; [exact Hfinal|]. split; [exact Hsteps|].
  intros Hnodup k r Hk. rewrite Hfinal.
  assert (NoDup (map (fun r => def_id (pf_definition r)) rs)) as Hids.
  { rewrite <- (map_map pf_definition def_id), Hdefs, <- firstn_map.
    rewrite <- (take_drop (length rs) (map def_id fields)) in Hnodup.
    apply NoDup_app in Hnodup as (Hnodup & _ & _). exact Hnodup. }
  apply take_drop_middle in Hk. rewrite <- Hk in Hids |- *.
  unfold indexAfter. rewrite fold_left_app. cbn [fold_left].
  fold (indexAfter (<[def_id (pf_definition r) := r]>
                      (fold_left (fun index r0 =>
                                    <[def_id (pf_definition r0) := r0]> index)
                         (take k rs) ∅)) (drop (S k) rs)).
  rewrite indexAfter_other; [apply lookup_insert_eq|].
  rewrite map_app in Hids. apply NoDup_app in Hids as (_ & _ & Hids).
  cbn [map] in Hids. apply NoDup_cons in Hids as [Hnotin _]. exact Hnotin.
Qed.



End TopLevel.

Lemma top_level_results_are_indexed_witness :
  let this := parserOf [x05; x48; x65; x6c; x6c; x6f] [] in
  let fields := [field "len" uint8; withLengthRef "len" (field "str" string_)] in
  exists rs st',
    parseStructure this 1 fields freshState = Some (rs, st') /\
    parsedFields st' = indexAfter ∅ rs.
Proof.
  intros this fields.
  destruct (parseStructure this 1 fields freshState)
    as [[rs st']|] eqn:Hrun; [|vm_compute in Hrun; discriminate].
  exists rs, st'. split; [reflexivity|].
  exact (proj1 (@top_level_results_are_indexed plainPlatform this 1 fields
                  freshState rs st' plain_scripts_read_only Hrun)).
Defined.


(** ** The raw bytes of a result *)

Section RawBytes.

Context `{P : Platform} (this : BinaryParser).

Implicit Types parse : FieldDefinition -> Z -> option Z -> M ParsedField.

Lemma readFileSlice_prefix (bytes : list byte) (start end_ : Z) :
  0 <= start ->
  exists n, readFileSlice bytes start end_ = take n (drop (Z.to_nat start) bytes).
Proof.
  intros Hstart. unfold readFileSlice.
  destruct (Z.ltb_spec start 0); [lia|].
  eexists. f_equal.
  destruct (Z.le_gt_cases start (Z.of_nat (length bytes))).
  - rewrite Z.min_l by lia. reflexivity.
  - rewrite Z.min_r by lia. rewrite Nat2Z.id, !drop_ge by lia. reflexivity.
Qed.

Lemma rawIsSlice_rawAtOffset (r : ParsedField) :
  rawIsSlice this r -> rawAtOffset this r.
Proof.
  intros [Hempty | [end_ Hslice]] Hoffset.
  - exists 0%nat. rewrite Hempty. reflexivity.
  - rewrite Hslice. apply readFileSlice_prefix. exact Hoffset.
Qed.

Lemma parseChildren_produced parse (defs : list FieldDefinition) :
  forall acc off s out s',
    parseChildren this parse defs acc off s = Some (out, s') ->
    exists new, fst out = acc ++ new /\ Forall (producedBy parse) new.
Proof.
  induction defs as [|d rest IH]; intros acc off s out s' Hrun.
  - injection Hrun as <- _. exists []. rewrite app_nil_r. auto.
  - cbn [parseChildren] in Hrun. destruct (off >=? fileSize this).
    + injection Hrun as <- _. exists []. rewrite app_nil_r. auto.
    + unfold bind in Hrun.
      destruct (parse d off None s) as [[r s1]|] eqn:Hd; [|discriminate].
      apply IH in Hrun as (new & Hout & Hall).
      exists (r :: new). rewrite Hout, <- app_assoc. split; [reflexivity|].
      constructor; [|exact Hall]. exists d, off, None, s, s1. exact Hd.
Qed.

Lemma repeatLoop_produced parse (definition : FieldDefinition) (remaining : nat) :
  forall i acc off s out s',
    repeatLoop this parse definition remaining i acc off s = Some (out, s') ->
    exists new, fst out = acc ++ new /\ Forall (producedBy parse) new.
Proof.
  induction remaining as [|remaining IH]; intros i acc off s out s' Hrun.
  - injection Hrun as <- _. exists []. rewrite app_nil_r. auto.
  - cbn [repeatLoop] in Hrun. destruct (off >=? fileSize this).
    + injection Hrun as <- _. exists []. rewrite app_nil_r. auto.
    + unfold bind in Hrun.
      destruct (parse (itemDef definition i) off (Some 1) s)
        as [[r s1]|] eqn:Hd; [|discriminate].
      destruct (isNull (pf_value r) && (pf_length r =? 0)).
      * injection Hrun as <- _. exists []. rewrite app_nil_r. auto.
      * apply IH in Hrun as (new & Hout & Hall).
        exists (r :: new). rewrite Hout, <- app_assoc. split; [reflexivity|].
        constructor; [|exact Hall].
        exists (itemDef definition i), off, (Some 1), s, s1. exact Hd.
Qed.

Lemma rawIsSlice_empty (d : FieldDefinition) (v : FieldValue) (o len : Z)
    (cs : option (list ParsedField)) :
  rawIsSlice this (mkParsedField d v [] o len cs).
Proof. left. reflexivity. Qed.

Lemma rawIsSlice_slice (d : FieldDefinition) (v : FieldValue) (o e len : Z)
    (cs : option (list ParsedField)) :
  rawIsSlice this (mkParsedField d v (readFileSlice (file this) o e) o len cs).
Proof. right. exists e. reflexivity. Qed.

Lemma parseScriptField_shape (d : FieldDefinition) (o : Z) (s : State)
    (r : ParsedField) (s' : State) :
  parseScriptField this d o s = Some (r, s') ->
  rawIsSlice this r /\ pf_children r = None.
Proof.
  unfold parseScriptField. destruct (truthy (def_script d)).
  - destruct (run_outcome _) as [m| |[|[v|] [[n|]|]]]; try discriminate;
      try (intros [= <- _]; split; [apply rawIsSlice_empty | reflexivity]).
    destruct (n <? 0); intros [= <- _]; split;
      first [apply rawIsSlice_empty | apply rawIsSlice_slice | reflexivity].
  - intros [= <- _]. split; [apply rawIsSlice_empty | reflexivity].
Qed.

(** The root of a result and the origin of its children. *)
Lemma parseFieldBody_shape parse (d : FieldDefinition) (o : Z)
    (rc : option Z) (s : State) (r : ParsedField) (s' : State) :
  parseFieldBody this parse d o rc s = Some (r, s') ->
  rawIsSlice this r /\
  (forall cs, pf_children r = Some cs -> Forall (producedBy parse) cs).
Proof.
  unfold parseFieldBody. intros Hrun.
  destruct (_ >=? fileSize this).
  { injection Hrun as <- _. split; [apply rawIsSlice_empty | discriminate]. }
  assert (forall off s r s',
            parsePrimitive this parse d off rc s = Some (r, s') ->
            rawIsSlice this r /\
            (forall cs, pf_children r = Some cs -> Forall (producedBy parse) cs))
    as Hprimitive.
  { clear Hrun s r s'. intros off s r s'.
    unfold parsePrimitive, bind at 1, getIndex. cbv zeta.
    destruct (match getDataTypeSize (def_type d) with
              | Some size => _ | None => false end).
    { intros [= <- _]. split; [apply rawIsSlice_slice | discriminate]. }
    destruct (_ >? 1).
    - unfold parseRepeatedField, bind.
      destruct (repeatLoop _ _ _ _ _ _ _ _) as [[[cs cur] s1]|] eqn:Hloop;
        [|discriminate].
      intros [= <- _]. split; [apply rawIsSlice_slice|].
      intros cs' [= <-].
      apply repeatLoop_produced in Hloop as (new & Hout & Hall).
      simpl in Hout. subst cs. exact Hall.
    - unfold parseSingle. cbv zeta.
      destruct (def_type d);
        try (intros [= <- _]; split; [apply rawIsSlice_slice | discriminate]).
      destruct (def_children d) as [children|];
        [|intros [= <- _]; split; [apply rawIsSlice_slice | discriminate]].
      destruct (isNull _);
        [intros [= <- _]; split; [apply rawIsSlice_slice | discriminate]|].
      unfold bind.
      destruct (parseChildren _ _ _ _ _ _) as [[[cs cur] s1]|] eqn:Hloop;
        [|discriminate].
      intros [= <- _]. split; [apply rawIsSlice_slice|].
      intros cs' [= <-].
      apply parseChildren_produced in Hloop as (new & Hout & Hall).
      simpl in Hout. subst cs. exact Hall. }
  destruct (def_type d); try (eapply Hprimitive; exact Hrun).
  - destruct (truthy (def_substructureRef d)) as [ref|];
      [|eapply Hprimitive; exact Hrun].
    unfold parseSubstructure in Hrun. destruct (find _ _) as [substructure|].
    + unfold bind in Hrun.
      destruct (parseChildren _ _ _ _ _ _) as [[[cs cur] s1]|] eqn:Hloop;
        [|discriminate].
      injection Hrun as <- _. split; [apply rawIsSlice_slice|].
      intros cs' [= <-].
      apply parseChildren_produced in Hloop as (new & Hout & Hall).
      simpl in Hout. subst cs. exact Hall.
    + injection Hrun as <- _. split; [apply rawIsSlice_empty | discriminate].
  - apply parseScriptField_shape in Hrun as [Hraw Hnone].
    split; [exact Hraw|]. intros cs Hcs. congruence.
Qed.

Lemma parseField_every_node (fuel : nat) :
  forall c, producedBy (parseField this fuel) c ->
            EveryNode (rawAtOffset this) c.
Proof.
  induction fuel as [|fuel IH]; intros c (d & o & rc & s0 & s1 & Hrun);
    [discriminate|].
  rewrite parseField_S in Hrun.
  apply parseFieldBody_shape in Hrun as [Hraw Hchildren].
  constructor; [apply rawIsSlice_rawAtOffset; exact Hraw|].
  intros cs Hcs. eapply Forall_impl; [apply Hchildren; exact Hcs|].
  exact IH.
Qed.

Lemma driverRun_produced parse off st fields rs st' :
  driverRun this parse off st fields rs st' -> Forall (producedBy parse) rs.
Proof.
  induction 1 as [off st | off st d rest r st1 Hparse Hend
                 | off st d rest r st1 rs st2 Hparse Hend Hrest IH].
  - constructor.
  - constructor; [|constructor]. exists d, off, None, st, st1. exact Hparse.
  - constructor; [|exact IH]. exists d, off, None, st, st1. exact Hparse.
Qed.

(** X14. At every node of a decoded tree that sits at a non-negative
    offset, the raw bytes are bytes of the file starting at the offset of
    that node: a prefix of what the file holds from there on. *)
Theorem raw_bytes_start_at_the_offset (fuel : nat)
    (fields : list FieldDefinition) (st : State)
    (rs : list ParsedField) (st' : State) :
  parseStructure this fuel fields st = Some (rs, st') ->
  Forall (EveryNode (rawAtOffset this)) rs.
Proof.
  intros Hrun. apply parseStructure_driverRun in Hrun.
  apply driverRun_produced in Hrun.
  eapply Forall_impl; [exact Hrun|]. apply parseField_every_node.
Qed.

End RawBytes.

Lemma raw_bytes_start_at_the_offset_witness :
  let sub1 :=
    mkSubstructureTemplate "sub1" "MySub" None
      [field "s_type" uint8; field "s_val" uint16] in
  let this := parserOf [x01; x12; x34] [sub1] in
  let fields := [withSubstructureRef "sub1" (field "f1" struct)] in
  exists rs st',
    parseStructure this 2 fields freshState = Some (rs, st') /\
    Forall (EveryNode (rawAtOffset this)) rs.
Proof.
  intros sub1 this fields.
  destruct (parseStructure this 2 fields freshState)
    as [[rs st']|] eqn:Hrun; [|vm_compute in Hrun; discriminate].
  exists rs, st'. split; [reflexivity|].
  exact (@raw_bytes_start_at_the_offset plainPlatform this 2 fields
           freshState rs st' Hrun).
Defined.

(** ** Legacy structs and byte dumps *)

Section LegacyStruct.

Context `{P : Platform} (this : BinaryParser).

Lemma applyValueMapping_bytes (d : FieldDefinition) (data : list byte) :
  applyValueMapping d (VBytes data) = VBytes data.
Proof.
  unfold applyValueMapping. destruct (def_valueMap d) as [valueMap|]; [|reflexivity].
  destruct (_ || _); [reflexivity|].
  rewrite find_none_of_all_false; [reflexivity|].
  intros m _. destruct (vm_value m); reflexivity.
Qed.

Lemma applyBitDescriptions_bytes (d : FieldDefinition) (data : list byte) :
  applyBitDescriptions d (VBytes data) = VBytes data.
Proof.
  unfold applyBitDescriptions. destruct (def_bitDescriptions d); [|reflexivity].
  destruct (_ =? 0); reflexivity.
Qed.

(** X15. A struct field with inline children and no substructure
    reference, decoded inside the source and not repeated, always has a
    children list: its value is its own raw bytes, which is never null.
    The children are the decodes of a prefix of its inline descriptors,
    in order, and its length is the span from its offset to where the last
    child ended (0 when there is none), not its requested length. *)
Theorem legacy_struct_aggregate (fuel : nat) (definition : FieldDefinition)
    (startOffset : Z) (repeatCount : option Z) (st : State)
    (inline : list FieldDefinition) (r : ParsedField) (st' : State) :
  def_type definition = struct ->
  truthy (def_substructureRef definition) = None ->
  def_children definition = Some inline ->
  resolvedOffset definition startOffset < fileSize this ->
  resolvedRepeatCount (parsedFields st) definition repeatCount <= 1 ->
  parseField this (S fuel) definition startOffset repeatCount st
    = Some (r, st') ->
  exists children,
    pf_children r = Some children /\
    map pf_definition children = take (length children) inline /\
    pf_value r = VBytes (pf_rawValue r) /\
    pf_length r
      = endOffset (resolvedOffset definition startOffset) children
        - resolvedOffset definition startOffset.
Proof.
  intros Htype Href Hinline Hin Hcount Hrun.
  rewrite parseField_S in Hrun. unfold parseFieldBody in Hrun.
  fold (resolvedOffset definition startOffset) in Hrun.
  destruct (Z.geb_spec (resolvedOffset definition startOffset) (fileSize this));
    [lia|].
  rewrite Htype, Href in Hrun.
  unfold parsePrimitive, bind at 1, getIndex in Hrun. cbv zeta in Hrun.
  fold (resolvedRepeatCount (parsedFields st) definition repeatCount) in Hrun.
  rewrite Htype in Hrun. cbn [getDataTypeSize] in Hrun.
  destruct (Z.gtb_spec
              (resolvedRepeatCount (parsedFields st) definition repeatCount) 1);
    [lia|].
  unfold parseSingle in Hrun. cbv zeta in Hrun.
  rewrite Htype, Hinline in Hrun.
  unfold parseValue in Hrun. rewrite Htype in Hrun.
  cbn [getDataTypeSize] in Hrun.
  rewrite applyValueMapping_bytes, applyBitDescriptions_bytes in Hrun.
  cbn [isNull] in Hrun. unfold bind in Hrun.
  destruct (parseChildren _ _ _ _ _ _) as [[[cs cur] s1]|] eqn:Hloop;
    [|discriminate].
  injection Hrun as <- _.
  apply (parseChildren_definitions this _ _ (parseField_sound this fuel)) in Hloop
    as (new & Hout & Hdefs & Hend).
  simpl in Hout, Hend. subst cs cur.
  exists new. cbn [pf_children pf_value pf_rawValue pf_length]. auto.
Qed.

End LegacyStruct.

Lemma legacy_struct_aggregate_witness :
  let this := parserOf [x01; x02; x03] [] in
  let definition :=
    mkFieldDefinition "s" "s" struct None None big None None None None
      (Some [field "a" uint8; field "b" uint16]) None None None None in
  exists r st' children,
    parseField this 2 definition 0 None freshState = Some (r, st') /\
    pf_children r = Some children /\
    pf_length r = endOffset 0 children - 0.
Proof.
  intros this definition.
  destruct (parseField this 2 definition 0 None freshState)
    as [[r st']|] eqn:Hrun; [|vm_compute in Hrun; discriminate].
  destruct (@legacy_struct_aggregate plainPlatform this 1 definition 0 None
              freshState [field "a" uint8; field "b" uint16] r st')
    as (children & Hchildren & _ & _ & Hlength);
    [reflexivity | reflexivity | reflexivity | vm_compute; reflexivity
    | vm_compute; congruence | exact Hrun |].
  exists r, st', children. auto.
Defined.

Section ByteDump.

Context `{P : Platform}.

Lemma hexDigitValue_hexDigit (n : Z) :
  0 <= n < 16 -> hexDigitValue (hexDigit n) = n.
Proof.
  intros Hn. rewrite <- (Z2Nat.id n) by lia.
  assert (Z.to_nat n < 16)%nat as Hk by lia.
  revert Hk. generalize (Z.to_nat n). intros k Hk.
  do 16 (destruct k as [|k]; [reflexivity|]). lia.
Qed.

Lemma toHex2_inj (a b : byte) : toHex2 a = toHex2 b -> a = b.
Proof.
  unfold toHex2. intros [= Hhigh Hlow].
  pose proof (byteValue_range a) as Ha. pose proof (byteValue_range b) as Hb.
  assert (0 <= byteValue a / 16 < 16) by (split; [apply Z.div_pos|apply Z.div_lt_upper_bound]; lia).
  assert (0 <= byteValue b / 16 < 16) by (split; [apply Z.div_pos|apply Z.div_lt_upper_bound]; lia).
  assert (0 <= byteValue a mod 16 < 16) by (apply Z.mod_pos_bound; lia).
  assert (0 <= byteValue b mod 16 < 16) by (apply Z.mod_pos_bound; lia).
  apply (f_equal hexDigitValue) in Hhigh, Hlow.
  rewrite !hexDigitValue_hexDigit in Hhigh, Hlow by assumption.
  apply byteValue_inj.
  rewrite (Z.div_mod (byteValue a) 16), (Z.div_mod (byteValue b) 16) by lia.
  congruence.
Qed.

Lemma hex_dump_inj (xs ys : list byte) :
  String.concat " " (map toHex2 xs) = String.concat " " (map toHex2 ys) ->
  xs = ys.
Proof.
  revert ys. induction xs as [|x xs IH]; intros [|y ys] Heq.
  - reflexivity.
  - destruct ys; discriminate.
  - destruct xs; discriminate.
  - destruct xs as [|x' xs], ys as [|y' ys].
    + f_equal. apply toHex2_inj. exact Heq.
    + cbn [map String.concat] in Heq. unfold toHex2 in Heq at 1 2.
      discriminate.
    + cbn [map String.concat] in Heq. unfold toHex2 in Heq at 1 3.
      discriminate.
    + cbn [map] in Heq, IH.
      change (String.concat " " (toHex2 x :: toHex2 x' :: map toHex2 xs))
        with (toHex2 x ++ " " ++ String.concat " " (toHex2 x' :: map toHex2 xs))%string
        in Heq.
      change (String.concat " " (toHex2 y :: toHex2 y' :: map toHex2 ys))
        with (toHex2 y ++ " " ++ String.concat " " (toHex2 y' :: map toHex2 ys))%string
        in Heq.
      unfold toHex2 in Heq at 1 3. cbn [String.append] in Heq.
      injection Heq as Hhigh Hlow Hrest.
      f_equal.
      * apply toHex2_inj. unfold toHex2. congruence.
      * apply (IH (y' :: ys)). exact Hrest.
Qed.

(** X16. The text of a [bytes] field determines its bytes: two byte
    sequences that give the same hex dump are the same sequence. *)
Theorem bytes_dump_is_injective (definition : FieldDefinition)
    (xs ys : list byte) :
  def_type definition = bytes ->
  parseValue definition xs = parseValue definition ys ->
  xs = ys.
Proof.
  intros Htype. unfold parseValue. rewrite Htype. cbn [getDataTypeSize].
  intros [= Heq]. apply hex_dump_inj. exact Heq.
Qed.

End ByteDump.

Lemma bytes_dump_is_injective_witness :
  @parseValue plainPlatform (field "raw" bytes) [x0a; xff]
    = Some (VString "0a ff") /\
  [x0a; xff] = [x0a; xff].
Proof.
  split; [reflexivity|].
  apply (@bytes_dump_is_injective plainPlatform (field "raw" bytes)
           [x0a; xff] [x0a; xff]); reflexivity.
Defined.

(** * The hex view worker *)

Lemma rowCount_spec (data : list byte) (j : nat) :
  (16 * j < length data)%nat <-> (j < rowCount data)%nat.
Proof.
  unfold rowCount.
  pose proof (Nat.div_mod_eq (length data + 15) 16) as Hdiv.
  pose proof (Nat.mod_upper_bound (length data + 15) 16) as Hmod.
  lia.
Qed.

Lemma formatHexLoop_closed (data : list byte) (startOffset : Z) (turns : nat) :
  forall j rows,
    (rowCount data - j <= turns)%nat ->
    formatHexLoop turns data startOffset (16 * j) rows =
    rows ++ map (rowAt data startOffset) (seq j (rowCount data - j)).
Proof.
  induction turns as [|turns IH]; intros j rows Hturns.
  - replace (rowCount data - j)%nat with 0%nat by lia.
    simpl. rewrite app_nil_r. reflexivity.
  - cbn [formatHexLoop]. destruct (Nat.ltb_spec (16 * j) (length data)) as [Hin|Hout].
    + apply rowCount_spec in Hin.
      replace (16 * j + 16)%nat with (16 * S j)%nat by lia.
      rewrite IH by lia.
      replace (rowCount data - j)%nat with (S (rowCount data - S j)) by lia.
      cbn [seq map]. rewrite <- app_assoc. reflexivity.
    + assert (~ (j < rowCount data)%nat) as Hdone
        by (rewrite <- rowCount_spec; lia).
      replace (rowCount data - j)%nat with 0%nat by lia.
      simpl. rewrite app_nil_r. reflexivity.
Qed.

Lemma rowCount_le_length (data : list byte) : (rowCount data <= length data)%nat.
Proof.
  unfold rowCount.
  pose proof (Nat.div_mod_eq (length data + 15) 16) as Hdiv.
  pose proof (Nat.mod_upper_bound (length data + 15) 16) as Hmod.
  lia.
Qed.

Lemma formatHex_closed (data : list byte) (startOffset : Z) :
  formatHex data startOffset
  = map (rowAt data startOffset) (seq 0 (rowCount data)).
Proof.
  unfold formatHex. pose proof (rowCount_le_length data).
  change 0%nat with (16 * 0)%nat at 1.
  rewrite formatHexLoop_closed by lia.
  rewrite Nat.sub_0_r. reflexivity.
Qed.

Lemma chunks_concat {A} (f : byte -> A) (data : list byte) (m : nat) :
  forall j,
    (rowCount data - j = m)%nat ->
    concat (map (fun k => map f (take 16 (drop (16 * k) data))) (seq j m))
    = map f (drop (16 * j) data).
Proof.
  induction m as [|m IH]; intros j Hm.
  - assert (~ (16 * j < length data)%nat) by (rewrite rowCount_spec; lia).
    rewrite drop_ge by lia. reflexivity.
  - cbn [seq map concat]. rewrite IH by lia.
    rewrite <- map_app. f_equal.
    replace (16 * S j)%nat with (16 * j + 16)%nat by lia.
    rewrite <- drop_drop. apply take_drop.
Qed.

Lemma upperCase_hexDigit_inj (m n : Z) :
  0 <= m < 16 -> 0 <= n < 16 ->
  upperCaseChar (hexDigit m) = upperCaseChar (hexDigit n) -> m = n.
Proof.
  intros Hm Hn. rewrite <- (Z2Nat.id m), <- (Z2Nat.id n) by lia.
  assert (Z.to_nat m < 16)%nat as Hi by lia.
  assert (Z.to_nat n < 16)%nat as Hj by lia.
  revert Hi Hj. generalize (Z.to_nat m) (Z.to_nat n). intros i j Hi Hj.
  do 16 (destruct i as [|i];
         [do 16 (destruct j as [|j]; [first [reflexivity | discriminate]|]); lia|]).
  lia.
Qed.

Lemma hexCell_inj (a b : byte) : hexCell a = hexCell b -> a = b.
Proof.
  unfold hexCell, toHex2. cbn [toUpperCase]. intros [= Hhigh Hlow].
  pose proof (byteValue_range a) as Ha. pose proof (byteValue_range b) as Hb.
  assert (0 <= byteValue a / 16 < 16)
    by (split; [apply Z.div_pos|apply Z.div_lt_upper_bound]; lia).
  assert (0 <= byteValue b / 16 < 16)
    by (split; [apply Z.div_pos|apply Z.div_lt_upper_bound]; lia).
  assert (0 <= byteValue a mod 16 < 16) by (apply Z.mod_pos_bound; lia).
  assert (0 <= byteValue b mod 16 < 16) by (apply Z.mod_pos_bound; lia).
  apply upperCase_hexDigit_inj in Hhigh, Hlow; try assumption.
  apply byteValue_inj.
  rewrite (Z.div_mod (byteValue a) 16), (Z.div_mod (byteValue b) 16) by lia.
  congruence.
Qed.

Lemma map_hexCell_inj (xs ys : list byte) :
  map hexCell xs = map hexCell ys -> xs = ys.
Proof.
  revert ys. induction xs as [|x xs IH]; intros [|y ys] Heq;
    try discriminate; [reflexivity|].
  cbn [map] in Heq.
  pose proof (f_equal (fun cells => List.hd EmptyString cells) Heq) as Hhead.
  pose proof (f_equal (@List.tl string) Heq) as Htail.
  cbn [List.hd List.tl] in Hhead, Htail.
  f_equal; [apply hexCell_inj; exact Hhead | apply IH; exact Htail].
Qed.

(** X17. The hex view of a chunk has one row for every 16 bytes, the last
    one possibly shorter: ceil(length / 16) rows, none for an empty chunk.
    Row k carries the label of the offset [startOffset + 16 k] and the
    bytes from index 16 k on, at least 1 and at most 16 of them, as many
    hex cells as ASCII cells. Read row after row, the hex cells and the
    ASCII cells are those of the whole chunk in order: no byte is lost,
    repeated or moved. *)
Theorem formatHex_rows (data : list byte) (startOffset : Z) :
  let rows := formatHex data startOffset in
  length rows = rowCount data /\
  (forall k row,
     rows !! k = Some row ->
     row = rowAt data startOffset k /\
     (1 <= length (row_hex row) <= 16)%nat /\
     length (row_ascii row) = length (row_hex row)) /\
  concat (map row_hex rows) = map hexCell data /\
  concat (map row_ascii rows) = map asciiCell data.
Proof.
  intros rows. unfold rows. rewrite formatHex_closed.
  split; [rewrite length_map, length_seq; reflexivity|]. split.
  - intros k row Hk. rewrite list_lookup_fmap in Hk.
    destruct (seq 0 (rowCount data) !! k) as [k'|] eqn:Hseq; [|discriminate].
    apply lookup_seq in Hseq as [-> Hlt]. injection Hk as <-.
    split; [reflexivity|]. apply rowCount_spec in Hlt.
    cbn [rowAt row_hex row_ascii].
    rewrite !length_map, length_take, length_drop. lia.
  - rewrite !map_map. cbn [rowAt row_hex row_ascii].
    rewrite (chunks_concat hexCell data (rowCount data) 0),
            (chunks_concat asciiCell data (rowCount data) 0) by lia.
    split; reflexivity.
Qed.

(** X18. The hex cells of the rows determine the bytes: two chunks whose
    hex views show the same cells, whatever their offsets, are the same
    bytes. *)
Theorem formatHex_determines_bytes (xs ys : list byte) (startX startY : Z) :
  map row_hex (formatHex xs startX) = map row_hex (formatHex ys startY) ->
  xs = ys.
Proof.
  intros Heq. apply map_hexCell_inj.
  destruct (formatHex_rows xs startX) as (_ & _ & <- & _).
  destruct (formatHex_rows ys startY) as (_ & _ & <- & _).
  rewrite Heq. reflexivity.
Qed.

Lemma formatHex_determines_bytes_witness :
  map row_hex (formatHex [x41; x0a] 0) = map row_hex (formatHex [x41; x0a] 16) /\
  [x41; x0a] = [x41; x0a].
Proof.
  split; [reflexivity|].
  apply (formatHex_determines_bytes [x41; x0a] [x41; x0a] 0 16). reflexivity.
Defined.

Example formatHex_example :
  formatHex [x48; x69; x00; xff] 0x1f0
  = [mkFormattedRow "000001F0" ["48"; "69"; "00"; "FF"] ["H"; "i"; "."; "."]].
Proof. vm_compute. reflexivity. Qed.

(** * The byte styles of the hex view *)

Lemma ParsedField_tree_ind (Q : ParsedField -> Prop) :
  (forall r, (forall cs, pf_children r = Some cs -> Forall Q cs) -> Q r) ->
  forall r, Q r.
Proof.
  intros step. fix IH 1. intros [d v raw o len children]. apply step.
  cbn [pf_children]. intros cs Hcs.
  destruct children as [l|]; [|discriminate]. injection Hcs as <-.
  induction l as [|x xs IHl]; constructor; [apply IH | exact IHl].
Qed.

Lemma addFieldRange_children (field : ParsedField) (colorIndex : nat)
    (ranges : list FieldRange) :
  addFieldRange field colorIndex ranges =
  match pf_children field with
  | Some cs =>
    addFieldRanges cs (colorIndex + 1) 0 (ranges ++ [ownRange field colorIndex])
  | None => ranges ++ [ownRange field colorIndex]
  end.
Proof.
  destruct field as [d v raw o len [cs|]]; [|reflexivity].
  cbn [addFieldRange pf_children].
  change (mkFieldRange o (o + len - 1) (mkParsedField d v raw o len (Some cs))
            (colorAt colorIndex))
    with (ownRange (mkParsedField d v raw o len (Some cs)) colorIndex).
  generalize (ranges ++ [ownRange (mkParsedField d v raw o len (Some cs)) colorIndex]).
  intros acc.
  enough (Hloop : forall index acc,
    (fix forEach (cs : list ParsedField) (index : nat)
         (ranges : list FieldRange) {struct cs} : list FieldRange :=
       match cs with
       | [] => ranges
       | child :: rest =>
         forEach rest (S index)
           (addFieldRange child (colorIndex + index + 1) ranges)
       end) cs index acc
    = addFieldRanges cs (colorIndex + 1) index acc) by apply Hloop.
  induction cs as [|child rest IH]; intros index acc'; [reflexivity|].
  cbn [addFieldRanges]. rewrite <- IH.
  replace (colorIndex + 1 + index)%nat with (colorIndex + index + 1)%nat by lia.
  reflexivity.
Qed.

Lemma addFieldRanges_appends_if (fields : list ParsedField) :
  Forall (fun field => forall colorIndex ranges,
            exists tail, addFieldRange field colorIndex ranges = ranges ++ tail)
    fields ->
  forall base index ranges,
    exists tail, addFieldRanges fields base index ranges = ranges ++ tail.
Proof.
  induction 1 as [|field rest Hfield _ IH]; intros base index ranges.
  - exists []. rewrite app_nil_r. reflexivity.
  - cbn [addFieldRanges].
    destruct (Hfield (base + index)%nat ranges) as [tail1 ->].
    destruct (IH base (S index) (ranges ++ tail1)) as [tail2 ->].
    exists (tail1 ++ tail2). rewrite app_assoc. reflexivity.
Qed.

Lemma addFieldRange_appends (field : ParsedField) :
  forall colorIndex ranges,
    exists tail,
      addFieldRange field colorIndex ranges
      = ranges ++ ownRange field colorIndex :: tail.
Proof.
  induction field as [field IH] using ParsedField_tree_ind.
  intros colorIndex ranges. rewrite addFieldRange_children.
  destruct (pf_children field) as [cs|] eqn:Hcs; [|exists []; reflexivity].
  destruct (addFieldRanges_appends_if cs) with
    (base := (colorIndex + 1)%nat) (index := 0%nat)
    (ranges := ranges ++ [ownRange field colorIndex]) as [tail ->].
  - eapply Forall_impl; [apply IH; reflexivity|].
    intros child Hchild ci acc. destruct (Hchild ci acc) as [tail ->]. eauto.
  - exists tail. rewrite <- app_assoc. reflexivity.
Qed.

Lemma addFieldRanges_appends (fields : list ParsedField) (base index : nat)
    (ranges : list FieldRange) :
  exists tail, addFieldRanges fields base index ranges = ranges ++ tail.
Proof.
  apply addFieldRanges_appends_if. apply Forall_forall. intros field _ ci acc.
  destruct (addFieldRange_appends field ci acc) as [tail ->]. eauto.
Qed.

Lemma addFieldRanges_app (xs ys : list ParsedField) :
  forall base index ranges,
    addFieldRanges (xs ++ ys) base index ranges =
    addFieldRanges ys base (index + length xs)
      (addFieldRanges xs base index ranges).
Proof.
  induction xs as [|x xs IH]; intros base index ranges.
  - simpl. rewrite Nat.add_0_r. reflexivity.
  - cbn [app addFieldRanges length]. rewrite IH. f_equal. lia.
Qed.

(** X19. The first top-level field whose span holds a byte decides the
    style of that byte, and its children never do: when no range of the
    fields before it holds the byte, the byte gets the colour of that
    field's position, and the highlight ring exactly when the highlighted
    id is the id of that field. Selecting one of its children therefore
    rings none of the bytes inside the parent's span. *)
Theorem first_covering_field_styles_the_byte
    (before : list ParsedField) (p : ParsedField) (after : list ParsedField)
    (highlightedField : option string) (offset : Z) :
  pf_offset p <= offset <= pf_offset p + pf_length p - 1 ->
  Forall (fun r => covers offset r = false) (fieldRanges before) ->
  getByteStyle (fieldRanges (before ++ p :: after)) highlightedField offset =
  colorAt (length before) +:+ " " +:+
  (if bool_decide (highlightedField = Some (def_id (pf_definition p)))
   then "ring-2 ring-white" else EmptyString).
Proof.
  intros Hspan Hbefore. unfold getByteStyle, fieldRanges.
  rewrite addFieldRanges_app. cbn [addFieldRanges].
  fold (fieldRanges before).
  destruct (addFieldRange_appends p (0 + (0 + length before))
              (fieldRanges before)) as [tail1 ->].
  destruct (addFieldRanges_appends after 0 (S (0 + length before))
              (fieldRanges before
               ++ ownRange p (0 + (0 + length before)) :: tail1))
    as [tail2 ->].
  rewrite <- app_assoc. cbn [app].
  rewrite (find_app_first _ _ (ownRange p (0 + (0 + length before)))
             (tail1 ++ tail2) Hbefore).
  - reflexivity.
  - unfold covers, ownRange. cbn [range_start range_end].
    apply andb_true_intro. split; [apply Z.geb_le | apply Z.leb_le]; lia.
Qed.

Lemma first_covering_field_styles_the_byte_witness :
  getByteStyle
    (fieldRanges
       [mkParsedField (field "f1" uint16) (VArray [VNumber 1]) [x00; x01] 0 2
          (Some [mkParsedField (field "f1[0]" uint16) (VNumber 1)
                   [x00; x01] 0 2 None])])
    (Some "f1[0]") 1
  = "bg-red-500/20 border-red-500/50 ".
Proof.
  apply (first_covering_field_styles_the_byte []
           (mkParsedField (field "f1" uint16) (VArray [VNumber 1]) [x00; x01] 0 2
              (Some [mkParsedField (field "f1[0]" uint16) (VNumber 1)
                       [x00; x01] 0 2 None]))
           [] (Some "f1[0]") 1);
    [vm_compute; split; congruence | constructor].
Defined.

(** * The entropy calculator *)

Section EntropyProperties.
Context {number : Type} (zero : number)
        (subtractTerm : number -> nat -> nat -> number).

Lemma calculateEntropyLoop_blocks (data : list byte) (blockSize : Z) :
  1 <= blockSize ->
  forall turns i entropyValues,
    0 <= i <= Z.of_nat (length data) + blockSize - 1 ->
    (Z.to_nat (Z.of_nat (length data) - i) < turns)%nat ->
    calculateEntropyLoop zero subtractTerm turns data blockSize i entropyValues
    = Some
        (entropyValues ++
         map (fun k =>
                calculateBlockEntropy zero subtractTerm
                  (uint8ArraySlice data (i + Z.of_nat k * blockSize)
                     (Z.min (i + Z.of_nat k * blockSize + blockSize)
                        (Z.of_nat (length data)))))
             (seq 0 (Z.to_nat
                       ((Z.of_nat (length data) - i + blockSize - 1)
                        / blockSize)))).
Proof.
  intros Hsize. induction turns as [|turns IH]; intros i acc Hi Hturns;
    [lia|].
  cbn [calculateEntropyLoop].
  destruct (i <? Z.of_nat (length data)) eqn:Hlt.
  - apply Z.ltb_lt in Hlt. rewrite IH by lia.
    replace (Z.of_nat (length data) - i + blockSize - 1)
      with ((Z.of_nat (length data) - (i + blockSize) + blockSize - 1)
            + 1 * blockSize) by lia.
    rewrite Z.div_add by lia.
    rewrite Z2Nat.inj_add by (try apply Z.div_pos; lia).
    change (Z.to_nat 1) with 1%nat. rewrite Nat.add_1_r. cbn [seq map].
    rewrite <- seq_shift, map_map, <- app_assoc. cbn [app Z.of_nat].
    rewrite Z.mul_0_l, Z.add_0_r. do 3 f_equal.
    apply map_ext. intros k.
    replace (i + blockSize + Z.of_nat k * blockSize)
      with (i + Z.of_nat (S k) * blockSize) by lia.
    reflexivity.
  - apply Z.ltb_ge in Hlt.
    rewrite Z.div_small by lia. cbn. rewrite app_nil_r. reflexivity.
Qed.

Lemma calculateEntropyLoop_runs_on (data : list byte) (blockSize : Z) :
  blockSize <= 0 -> data <> [] ->
  forall turns i entropyValues,
    i <= 0 ->
    calculateEntropyLoop zero subtractTerm turns data blockSize i entropyValues
    = None.
Proof.
  intros Hsize Hdata. induction turns as [|turns IH]; intros i acc Hi;
    [reflexivity|].
  cbn [calculateEntropyLoop].
  assert (Hlt : (i <? Z.of_nat (length data)) = true).
  { apply Z.ltb_lt. destruct data; [congruence | cbn [length]; lia]. }
  rewrite Hlt. apply IH. lia.
Qed.

Lemma frequencies_fold_permutation (xs ys : list byte) :
  Permutation xs ys ->
  forall init : list nat,
    fold_left (fun frequencies b => alter S (Byte.to_nat b) frequencies) xs init
    = fold_left (fun frequencies b => alter S (Byte.to_nat b) frequencies) ys init.
Proof.
  induction 1 as [|x xs ys _ IH|x y xs|xs ys zs _ IH1 _ IH2]; intros init.
  - reflexivity.
  - cbn [fold_left]. apply IH.
  - cbn [fold_left]. f_equal.
    destruct (decide (Byte.to_nat x = Byte.to_nat y)) as [->|Hne];
      [reflexivity|].
    apply list_alter_alter_ne. congruence.
  - rewrite IH1. apply IH2.
Qed.

(** X20. For a block size of at least 1, [calculateEntropy] returns one
    value per block of [blockSize] bytes, ceil(length / blockSize) of
    them (none for empty data), the k-th being the entropy of the bytes
    from k * blockSize up to the next block or the end of the data. *)
Theorem calculateEntropy_one_value_per_block
    (data : list byte) (blockSize : Z) (turns : nat) :
  1 <= blockSize ->
  (length data < turns)%nat ->
  calculateEntropy zero subtractTerm turns data blockSize
  = Some
      (map (fun k =>
              calculateBlockEntropy zero subtractTerm
                (uint8ArraySlice data (Z.of_nat k * blockSize)
                   (Z.min (Z.of_nat k * blockSize + blockSize)
                      (Z.of_nat (length data)))))
           (seq 0 (Z.to_nat
                     ((Z.of_nat (length data) + blockSize - 1) / blockSize)))).
Proof.
  intros Hsize Hturns. unfold calculateEntropy.
  rewrite calculateEntropyLoop_blocks by lia.
  rewrite Z.sub_0_r. reflexivity.
Qed.

(** X21. With a block size of 0 or less the loop of [calculateEntropy]
    never ends on data that is not empty: however many turns it is
    given, it is still running. *)
Theorem calculateEntropy_needs_positive_block_size
    (data : list byte) (blockSize : Z) (turns : nat) :
  blockSize <= 0 -> data <> [] ->
  calculateEntropy zero subtractTerm turns data blockSize = None.
Proof.
  intros Hsize Hdata. unfold calculateEntropy.
  apply calculateEntropyLoop_runs_on; [assumption | assumption | lia].
Qed.

(** X22. The entropy of a block depends on how often each byte occurs,
    not on where: two blocks that are rearrangements of each other get
    the same entropy, whatever the floating-point operations do. *)
Theorem calculateBlockEntropy_ignores_order (xs ys : list byte) :
  Permutation xs ys ->
  calculateBlockEntropy zero subtractTerm xs
  = calculateBlockEntropy zero subtractTerm ys.
Proof.
  intros Hperm. unfold calculateBlockEntropy, frequenciesOf.
  rewrite (Permutation_length Hperm).
  rewrite (frequencies_fold_permutation xs ys Hperm). reflexivity.
Qed.
End EntropyProperties.

Lemma calculateEntropy_one_value_per_block_witness :
  calculateEntropy 0%nat (fun entropy frequency _ => (entropy + frequency)%nat)
    4 [x01; x02; x03] 2
  = Some [2%nat; 1%nat].
Proof.
  apply (calculateEntropy_one_value_per_block 0%nat
           (fun entropy frequency _ => (entropy + frequency)%nat)
           [x01; x02; x03] 2 4); [lia | cbn; lia].
Defined.

Lemma calculateEntropy_needs_positive_block_size_witness :
  calculateEntropy 0%nat (fun entropy frequency _ => (entropy + frequency)%nat)
    1000 [x01] 0
  = None.
Proof.
  apply (calculateEntropy_needs_positive_block_size 0%nat
           (fun entropy frequency _ => (entropy + frequency)%nat)
           [x01] 0 1000); [lia | discriminate].
Defined.

Lemma calculateBlockEntropy_ignores_order_witness :
  calculateBlockEntropy 0%nat
    (fun entropy frequency blockLength => (2 * entropy + frequency * blockLength)%nat)
    [x01; x02; x02]
  = calculateBlockEntropy 0%nat
      (fun entropy frequency blockLength => (2 * entropy + frequency * blockLength)%nat)
      [x02; x01; x02].
Proof.
  apply (calculateBlockEntropy_ignores_order 0%nat
           (fun entropy frequency blockLength =>
              (2 * entropy + frequency * blockLength)%nat)
           [x01; x02; x02] [x02; x01; x02]).
  apply perm_swap.
Defined.
